(** * PropertyInterceptor: a shallow embedding of [PropertyInterceptor.js]

    The JavaScript module attaches three chains of callbacks to one property
    of one object by replacing the property with an accessor pair.  All the
    state of an intercepted property hangs off the two accessor functions:

      - the getter function object carries [value], [after] and [oldGet];
      - the setter function object carries [before], [after] and [oldset];
      - both are closures over the property descriptor object that the
        installing call was working on.

    The embedding keeps that layout.  A heap holds the objects' own property
    table, the descriptor objects and the function objects; the engine's
    [get] and [set] and the three installers are state-and-exception
    computations over it, written statement by statement after the source.

    Callbacks are user code.  They are modelled as functions that take the
    three arguments of the source's signature and act on a user world [W]
    (whatever the callback's own variables are: a log, a counter, ...),
    either returning a value or raising.  A callback does not reach back
    into the accessor state of the property it is attached to; the source
    documents the same convention for its callers.

    The module only ever looks at own properties
    ([Object.getOwnPropertyDescriptor]), so the heap has no prototype
    chain.  User functions get their arguments and the world: the engine
    calls a prior getter as a method of the descriptor or of the new getter
    function, never of the object, so the receiver carries nothing the
    object knows and is left out. *)

From Stdlib Require Import Floats.
From stdpp Require Import base option list gmap strings.

Open Scope string_scope.
Open Scope list_scope.

(** ** JavaScript values *)

(** A number is an IEEE double, as in the language.  Objects and functions
    are references; [typeof] separates the two. *)
Inductive JsVal : Type :=
  | VUndefined
  | VNull
  | VBool (b : bool)
  | VNum (x : float)
  | VStr (s : string)
  | VObj (o : nat)
  | VFun (f : nat).

(** [a === b].  On numbers this is the IEEE comparison, so [NaN === NaN] is
    false and [+0 === -0] is true; on references it is identity. *)
Definition strict_eq (a b : JsVal) : bool :=
  match a, b with
  | VUndefined, VUndefined => true
  | VNull, VNull => true
  | VBool x, VBool y => Bool.eqb x y
  | VNum x, VNum y => PrimFloat.eqb x y
  | VStr x, VStr y => String.eqb x y
  | VObj x, VObj y => Nat.eqb x y
  | VFun x, VFun y => Nat.eqb x y
  | _, _ => false
  end.

(** [typeof(v) === "function"] *)
Definition is_function (v : JsVal) : bool :=
  match v with VFun _ => true | _ => false end.

(** The error raised by the host when a property of [undefined] is used or
    a property cannot be redefined. *)
Definition TypeError : JsVal := VStr "TypeError".

(** ** Property descriptors *)

(** A descriptor object as [Object.getOwnPropertyDescriptor] returns it and
    as [Object.defineProperty] reads it.  A field that is missing from the
    JavaScript object is [None]; [delete descriptor.value] makes it so. *)
Record Descriptor : Type := mkDescriptor {
  d_value : option JsVal;
  d_writable : option bool;
  d_get : option nat;
  d_set : option nat;
  d_enumerable : bool;
  d_configurable : bool
}.

Definition desc_with_get (g : option nat) (D : Descriptor) : Descriptor :=
  mkDescriptor (d_value D) (d_writable D) g (d_set D)
               (d_enumerable D) (d_configurable D).

Definition desc_with_set (s : option nat) (D : Descriptor) : Descriptor :=
  mkDescriptor (d_value D) (d_writable D) (d_get D) s
               (d_enumerable D) (d_configurable D).

(** [delete descriptor.value; delete descriptor.writable;] *)
Definition desc_delete_data (D : Descriptor) : Descriptor :=
  mkDescriptor None None (d_get D) (d_set D)
               (d_enumerable D) (d_configurable D).

(** The literal [{configurable:true,enumerable:true}]. *)
Definition fresh_descriptor : Descriptor :=
  mkDescriptor None None None None true true.

Section Engine.

(** The state of the user's own code, on which callbacks and accessors that
    the engine did not create run. *)
Context {W : Type}.

(** ** User code *)

Inductive UOutcome : Type :=
  | UReturn (v : JsVal) (w : W)
  | URaise (e : JsVal) (w : W).

(** [function(object,property,value) { ...; return value }] *)
Definition Callback : Type := nat -> string -> JsVal -> W -> UOutcome.

(** The one-argument function that the engine stores in a chain. *)
Definition Handler : Type := JsVal -> W -> UOutcome.

(** [function(value) { return handler.callback(object,property,value); }] *)
Definition handler_of (object : nat) (property : string)
    (callback : Callback) : Handler :=
  fun value => callback object property value.

(** [function(value) { handler.callback(object,property,value); }]: the
    wrapper of an after-set callback has no [return]. *)
Definition observer_of (object : nat) (property : string)
    (callback : Callback) : Handler :=
  fun value w =>
    match callback object property value w with
    | UReturn _ w' => UReturn VUndefined w'
    | URaise e w' => URaise e w'
    end.

(** [chain.forEach(function(h) { value = h(value); })] *)
Fixpoint forEach_thread (chain : list Handler) (value : JsVal) (w : W)
    : UOutcome :=
  match chain with
  | [] => UReturn value w
  | h :: rest =>
      match h value w with
      | UReturn value' w' => forEach_thread rest value' w'
      | URaise e w' => URaise e w'
      end
  end.

(** [chain.forEach(function(h) { h(value); })] *)
Fixpoint forEach_call (chain : list Handler) (value : JsVal) (w : W)
    : UOutcome :=
  match chain with
  | [] => UReturn VUndefined w
  | h :: rest =>
      match h value w with
      | UReturn _ w' => forEach_call rest value w'
      | URaise e w' => URaise e w'
      end
  end.

(** ** Function objects *)

(** What a function does when called: user code, or one of the two closures
    that the installers create, each over a descriptor object. *)
Inductive Code : Type :=
  | CUser (body : list JsVal -> W -> UOutcome)
  | CGet (descriptor : nat)   (* function() { return get(descriptor); } *)
  | CSet (descriptor : nat).  (* function(value) { return set(descriptor,value); } *)

(** A function object and the properties the engine hangs off it.  A missing
    property reads as [undefined]: [None] for the arrays and the saved
    accessors, [VUndefined] for [value]. *)
Record FunObj : Type := mkFunObj {
  fn_code : Code;
  fn_value : JsVal;
  fn_after : option (list Handler);
  fn_before : option (list Handler);
  fn_oldGet : option nat;
  fn_oldset : option nat
}.

Definition fn_with_value (v : JsVal) (F : FunObj) : FunObj :=
  mkFunObj (fn_code F) v (fn_after F) (fn_before F) (fn_oldGet F) (fn_oldset F).

Definition fn_with_after (a : option (list Handler)) (F : FunObj) : FunObj :=
  mkFunObj (fn_code F) (fn_value F) a (fn_before F) (fn_oldGet F) (fn_oldset F).

Definition fn_with_before (b : option (list Handler)) (F : FunObj) : FunObj :=
  mkFunObj (fn_code F) (fn_value F) (fn_after F) b (fn_oldGet F) (fn_oldset F).

Definition fn_with_oldGet (g : option nat) (F : FunObj) : FunObj :=
  mkFunObj (fn_code F) (fn_value F) (fn_after F) (fn_before F) g (fn_oldset F).

Definition fn_with_oldset (s : option nat) (F : FunObj) : FunObj :=
  mkFunObj (fn_code F) (fn_value F) (fn_after F) (fn_before F) (fn_oldGet F) s.

(** A function expression, before any property is hung off it. *)
Definition new_function (c : Code) : FunObj :=
  mkFunObj c VUndefined None None None None.

(** ** The heap *)

(** [h_props] is the own-property table of all objects, keyed by object
    reference and property name.  Descriptor objects and function objects
    are allocated in order; a reference is the position. *)
Record Heap : Type := mkHeap {
  h_props : gmap (nat * string) Descriptor;
  h_descs : list Descriptor;
  h_funs : list FunObj;
  h_world : W
}.

Definition with_props (ps : gmap (nat * string) Descriptor) (h : Heap) : Heap :=
  mkHeap ps (h_descs h) (h_funs h) (h_world h).

Definition with_descs (ds : list Descriptor) (h : Heap) : Heap :=
  mkHeap (h_props h) ds (h_funs h) (h_world h).

Definition with_funs (fs : list FunObj) (h : Heap) : Heap :=
  mkHeap (h_props h) (h_descs h) fs (h_world h).

Definition with_world (w : W) (h : Heap) : Heap :=
  mkHeap (h_props h) (h_descs h) (h_funs h) w.

(** ** Computations: state and exceptions *)

Inductive Outcome (A : Type) : Type :=
  | Ret (a : A) (h : Heap)
  | Throw (e : JsVal) (h : Heap).

Arguments Ret {A} a h.
Arguments Throw {A} e h.

Definition M (A : Type) : Type := Heap -> Outcome A.

Definition ret {A} (a : A) : M A := fun h => Ret a h.

Definition throw {A} (e : JsVal) : M A := fun h => Throw e h.

Definition bind {A B} (m : M A) (k : A -> M B) : M B :=
  fun h =>
    match m h with
    | Ret a h' => k a h'
    | Throw e h' => Throw e h'
    end.

Notation "'let!' x ':=' m 'in' k" := (bind m (fun x => k))
  (at level 10, x name, m at level 100, k at level 200).

Notation "m ';;!' k" := (bind m (fun _ => k))
  (at level 100, k at level 200, right associativity).

(** Run user code on the world. *)
Definition run_user (f : W -> UOutcome) : M JsVal :=
  fun h =>
    match f (h_world h) with
    | UReturn v w => Ret v (with_world w h)
    | URaise e w => Throw e (with_world w h)
    end.

(** Follow a reference that may be [undefined]; using a property of
    [undefined] raises. *)
Definition defined {A} (o : option A) : M A :=
  match o with
  | Some a => ret a
  | None => throw TypeError
  end.

Definition read_desc (d : nat) : M Descriptor :=
  fun h => defined (h_descs h !! d) h.

Definition write_desc (d : nat) (upd : Descriptor -> Descriptor) : M unit :=
  let! D := read_desc d in
  fun h => Ret tt (with_descs (<[d := upd D]> (h_descs h)) h).

Definition new_desc (D : Descriptor) : M nat :=
  fun h => Ret (length (h_descs h)) (with_descs (h_descs h ++ [D]) h).

Definition read_fun (f : nat) : M FunObj :=
  fun h => defined (h_funs h !! f) h.

Definition write_fun (f : nat) (upd : FunObj -> FunObj) : M unit :=
  let! F := read_fun f in
  fun h => Ret tt (with_funs (<[f := upd F]> (h_funs h)) h).

Definition new_fun (F : FunObj) : M nat :=
  fun h => Ret (length (h_funs h)) (with_funs (h_funs h ++ [F]) h).

(** ** The engine: [get] and [set] *)

(** Call a function that is not one of the engine's closures.  [oldGet] is
    always such a function: the installers save a getter as [oldGet] only
    when it has no [after] property, and the engine's accessors have one
    from the moment they are created. *)
Definition call_user (f : nat) (args : list JsVal) : M JsVal :=
  let! F := read_fun f in
  match fn_code F with
  | CUser body => run_user (body args)
  | _ => throw TypeError
  end.

(** [function get(descriptor)] *)
Definition get (descriptor : nat) : M JsVal :=
  let! D := read_desc descriptor in
  let! g := defined (d_get D) in
  let! G := read_fun g in
  (* var value = (descriptor.get.value===undefined && descriptor.get.oldGet
                  ? descriptor.get.oldGet() : descriptor.get.value); *)
  let! value :=
    (match strict_eq (fn_value G) VUndefined, fn_oldGet G with
     | true, Some oldGet => call_user oldGet []
     | _, _ => ret (fn_value G)
     end) in
  (* descriptor.get.after.forEach(function(after) { value = after(value); }); *)
  let! after := defined (fn_after G) in
  let! value := run_user (forEach_thread after value) in
  (* descriptor.get.value = value; *)
  write_fun g (fn_with_value value) ;;!
  (* return value; *)
  ret value.

(** [function set(descriptor,value)] *)
Definition set (descriptor : nat) (value : JsVal) : M JsVal :=
  let! D := read_desc descriptor in
  (* var originalvalue = descriptor.get.value; *)
  let! g := defined (d_get D) in
  let! G := read_fun g in
  let originalvalue := fn_value G in
  (* descriptor.set.before.forEach(function(before) { value = before(value); }); *)
  let! s := defined (d_set D) in
  let! S := read_fun s in
  let! before := defined (fn_before S) in
  let! value := run_user (forEach_thread before value) in
  (* descriptor.get.value = value; *)
  write_fun g (fn_with_value value) ;;!
  (* if(value!==originalvalue) { descriptor.set.after.forEach(...) } *)
  (if negb (strict_eq value originalvalue)
   then
     let! S := read_fun s in
     let! after := defined (fn_after S) in
     run_user (forEach_call after value) ;;! ret tt
   else ret tt) ;;!
  (* return value; *)
  ret value.

(** Call any function of the heap. *)
Definition call (f : nat) (args : list JsVal) : M JsVal :=
  let! F := read_fun f in
  match fn_code F with
  | CUser body => run_user (body args)
  | CGet descriptor => get descriptor
  | CSet descriptor => set descriptor (nth 0 args VUndefined)
  end.

(** ** The host's property operations *)

(** [Object.getOwnPropertyDescriptor(object,property)] builds a new
    descriptor object from the property's attributes; the accessor
    functions in it are the property's own (the same references). *)
Definition getOwnPropertyDescriptor (object : nat) (property : string)
    : M (option nat) :=
  fun h =>
    match h_props h !! (object, property) with
    | Some P => (let! d := new_desc P in ret (Some d)) h
    | None => Ret None h
    end.

(** [Object.defineProperty(object,property,descriptor)] on an extensible
    object, for the descriptors the installers pass: accessor descriptors
    whose [enumerable] and [configurable] are those of the property they
    came from.  A property that is not configurable cannot change its
    accessors or turn from data into an accessor. *)
Definition defineProperty (object : nat) (property : string)
    (descriptor : nat) : M unit :=
  let! D := read_desc descriptor in
  fun h =>
    let redefined := with_props (<[(object, property) := D]> (h_props h)) h in
    match h_props h !! (object, property) with
    | None => Ret tt redefined
    | Some P =>
        if d_configurable P then Ret tt redefined
        else if bool_decide (d_value P = None /\ d_get P = d_get D
                             /\ d_set P = d_set D)
        then Ret tt h
        else Throw TypeError h
    end.

(** [object.property], for an own property.  An accessor property without a
    getter reads as [undefined]. *)
Definition read_property (object : nat) (property : string) : M JsVal :=
  fun h =>
    match h_props h !! (object, property) with
    | None => Ret VUndefined h
    | Some P =>
        match d_get P with
        | Some g => call g [] h
        | None => Ret (default VUndefined (d_value P)) h
        end
    end.

(** [object.property = value], for an own property or a new one.  The
    result is what the operation that performed the write returned: the
    setter's return value for an accessor, the stored value for data.  A
    write to an accessor without a setter or to a read-only data property
    is dropped. *)
Definition write_property (object : nat) (property : string)
    (value : JsVal) : M JsVal :=
  fun h =>
    let store P :=
      Ret value (with_props (<[(object, property) := P]> (h_props h)) h) in
    match h_props h !! (object, property) with
    | None => store (mkDescriptor (Some value) (Some true) None None true true)
    | Some P =>
        match d_set P, d_get P, d_writable P with
        | Some s, _, _ => call s [value] h
        | None, Some _, _ => Ret VUndefined h
        | None, None, Some true =>
            store (mkDescriptor (Some value) (Some true) None None
                                (d_enumerable P) (d_configurable P))
        | None, None, _ => Ret VUndefined h
        end
    end.

(** ** The installers *)

(** The first two statements of every installer:
    [var descriptor = Object.getOwnPropertyDescriptor(object,property);
     descriptor = (descriptor ? descriptor : {configurable:true,enumerable:true});] *)
Definition descriptor_for (object : nat) (property : string) : M nat :=
  let! found := getOwnPropertyDescriptor object property in
  match found with
  | Some descriptor => ret descriptor
  | None => new_desc fresh_descriptor
  end.

(** The third:
    [var value = (descriptor.get ? descriptor.get() : descriptor.value);] *)
Definition current_value (descriptor : nat) : M JsVal :=
  let! D := read_desc descriptor in
  match d_get D with
  | Some g => call g []
  | None => ret (default VUndefined (d_value D))
  end.

(** [var oldget = descriptor.get;
     descriptor.get = function() { return get(descriptor); };
     descriptor.get.value = value;
     descriptor.get.after = after;
     descriptor.get.oldGet = oldget;] *)
Definition configure_get (descriptor : nat) (value : JsVal)
    (after : list Handler) : M unit :=
  let! D := read_desc descriptor in
  let oldget := d_get D in
  let! g := new_fun (new_function (CGet descriptor)) in
  write_desc descriptor (desc_with_get (Some g)) ;;!
  write_fun g (fn_with_value value) ;;!
  write_fun g (fn_with_after (Some after)) ;;!
  write_fun g (fn_with_oldGet oldget).

(** [descriptor.set = function(value) { return set(descriptor,value); }
     descriptor.set.before = before;
     descriptor.set.after = after;] *)
Definition configure_set (descriptor : nat) (before after : list Handler)
    : M nat :=
  let! s := new_fun (new_function (CSet descriptor)) in
  write_desc descriptor (desc_with_set (Some s)) ;;!
  write_fun s (fn_with_before (Some before)) ;;!
  write_fun s (fn_with_after (Some after)) ;;!
  ret s.

(** [var oldset = descriptor.set; ... descriptor.set.oldset = oldset;]
    around [configure_set]: wrap a setter that came from somewhere else. *)
Definition wrap_set (descriptor : nat) (before after : list Handler)
    : M unit :=
  let! D := read_desc descriptor in
  let oldset := d_set D in
  let! s := configure_set descriptor before after in
  write_fun s (fn_with_oldset oldset).

(** [if(!descriptor.get || !descriptor.get.after) { ... }]: create the
    engine's getter, with an empty chain, unless the property has it. *)
Definition ensure_get (descriptor : nat) (value : JsVal) : M unit :=
  let! D := read_desc descriptor in
  match d_get D with
  | None => configure_get descriptor value []
  | Some g =>
      let! G := read_fun g in
      match fn_after G with
      | None => configure_get descriptor value []
      | Some _ => ret tt
      end
  end.

(** [if(!descriptor.set) { ... }]: create a setter for data, with empty
    chains, if the property has no setter at all. *)
Definition ensure_set (descriptor : nat) : M unit :=
  let! D := read_desc descriptor in
  match d_set D with
  | None => configure_set descriptor [] [] ;;! ret tt
  | Some _ => ret tt
  end.

(** The rest of [afterGet], from the creation of the handler on. *)
Definition afterGet_install (object : nat) (property : string)
    (callback : Callback) (descriptor : nat) (value : JsVal) : M JsVal :=
  let handler := handler_of object property callback in
  let! D := read_desc descriptor in
  (* if(descriptor.get && descriptor.get.after) *)
  (match d_get D with
   | None => configure_get descriptor value [handler]
   | Some g =>
       let! G := read_fun g in
       match fn_after G with
       | Some after =>
           (* descriptor.get.after.push(handler); *)
           write_fun g (fn_with_after (Some (after ++ [handler])))
       | None => configure_get descriptor value [handler]
       end
   end) ;;!
  ensure_set descriptor ;;!
  write_desc descriptor desc_delete_data ;;!
  defineProperty object property descriptor ;;!
  ret (VObj object).

(** [PropertyInterceptor.prototype.afterGet] *)
Definition afterGet (object : nat) (property : string) (callback : Callback)
    : M JsVal :=
  let! descriptor := descriptor_for object property in
  let! value := current_value descriptor in
  afterGet_install object property callback descriptor value.

(** The rest of [beforeSet], from the test of [typeof(value)] on. *)
Definition beforeSet_install (object : nat) (property : string)
    (callback : Callback) (descriptor : nat) (value : JsVal) : M JsVal :=
  if is_function value then ret (VBool false) else
  ensure_get descriptor value ;;!
  ensure_set descriptor ;;!
  let handler := handler_of object property callback in
  let! D := read_desc descriptor in
  let! s := defined (d_set D) in
  let! S := read_fun s in
  (* if(descriptor.set.before) *)
  (match fn_before S with
   | Some before =>
       (* descriptor.set.before.unshift(handler); *)
       write_fun s (fn_with_before (Some (handler :: before)))
   | None => wrap_set descriptor [handler] []
   end) ;;!
  write_desc descriptor desc_delete_data ;;!
  defineProperty object property descriptor ;;!
  ret (VObj object).

(** [PropertyInterceptor.prototype.beforeSet] *)
Definition beforeSet (object : nat) (property : string) (callback : Callback)
    : M JsVal :=
  let! descriptor := descriptor_for object property in
  let! value := current_value descriptor in
  beforeSet_install object property callback descriptor value.

(** The rest of [afterSet], from the test of [typeof(value)] on. *)
Definition afterSet_install (object : nat) (property : string)
    (callback : Callback) (descriptor : nat) (value : JsVal) : M JsVal :=
  if is_function value then ret (VBool false) else
  ensure_get descriptor value ;;!
  ensure_set descriptor ;;!
  let handler := observer_of object property callback in
  let! D := read_desc descriptor in
  let! s := defined (d_set D) in
  let! S := read_fun s in
  (* if(descriptor.set.after) *)
  (match fn_after S with
   | Some after =>
       (* descriptor.set.after.push(handler); *)
       write_fun s (fn_with_after (Some (after ++ [handler])))
   | None => wrap_set descriptor [] [handler]
   end) ;;!
  write_desc descriptor desc_delete_data ;;!
  defineProperty object property descriptor ;;!
  ret (VObj object).

(** [PropertyInterceptor.prototype.afterSet] *)
Definition afterSet (object : nat) (property : string) (callback : Callback)
    : M JsVal :=
  let! descriptor := descriptor_for object property in
  let! value := current_value descriptor in
  afterSet_install object property callback descriptor value.

End Engine.

Arguments UOutcome : clear implicits.
Arguments Callback : clear implicits.
Arguments Handler : clear implicits.
Arguments Code : clear implicits.
Arguments FunObj : clear implicits.
Arguments Heap : clear implicits.
Arguments Outcome : clear implicits.
Arguments M : clear implicits.
Arguments Ret {W A} a h.
Arguments Throw {W A} e h.

Notation "'let!' x ':=' m 'in' k" := (bind m (fun x => k))
  (at level 10, x name, m at level 100, k at level 200).

Notation "m ';;!' k" := (bind m (fun _ => k))
  (at level 100, k at level 200, right associativity).

(** ** Observers of one property's interception state *)

Section Observers.

Context {W : Type}.
Implicit Types (h : Heap W) (o g s d : nat) (p : string).

(** The property's attributes as the installers see them: those of the own
    property, or the literal that stands in for a missing one. *)
Definition attributes h o p : Descriptor :=
  default fresh_descriptor (h_props h !! (o, p)).

(** The accessor functions of [object.property], by reference and as
    function objects. *)
Definition getter_ref h o p : option nat := d_get (attributes h o p).

Definition setter_ref h o p : option nat := d_set (attributes h o p).

Definition getter_of h o p : option (FunObj W) :=
  match getter_ref h o p with
  | Some g => h_funs h !! g
  | None => None
  end.

Definition setter_of h o p : option (FunObj W) :=
  match setter_ref h o p with
  | Some s => h_funs h !! s
  | None => None
  end.

(** [descriptor.get.value] *)
Definition cachedValue h o p : option JsVal :=
  fn_value <$> getter_of h o p.

(** [descriptor.get.after], [descriptor.set.before], [descriptor.set.after];
    empty when the accessor has no such array. *)
Definition afterGetChain h o p : list (Handler W) :=
  match getter_of h o p with
  | Some G => default [] (fn_after G)
  | None => []
  end.

Definition beforeSetChain h o p : list (Handler W) :=
  match setter_of h o p with
  | Some F => default [] (fn_before F)
  | None => []
  end.

Definition afterSetChain h o p : list (Handler W) :=
  match setter_of h o p with
  | Some F => default [] (fn_after F)
  | None => []
  end.

(** A function the engine did not create and has not touched. *)
Definition user_fun (fs : list (FunObj W)) (f : nat) : Prop :=
  ∃ body, fs !! f = Some (new_function (CUser body)).

(** The engine's getter: a closure over a descriptor object whose [get] is
    the closure itself, with an [after] array, and whose [oldGet], if any,
    is a user function. *)
Definition engine_getter h g : Prop :=
  ∃ G d D,
    h_funs h !! g = Some G ∧ fn_code G = CGet d ∧ is_Some (fn_after G) ∧
    h_descs h !! d = Some D ∧ d_get D = Some g ∧
    (∀ og, fn_oldGet G = Some og → user_fun (h_funs h) og).

(** The engine's setter for the getter [g]: a closure over a descriptor
    object whose [get] is [g] and whose [set] is the closure itself, with
    both arrays. *)
Definition engine_setter h g s : Prop :=
  ∃ F d D,
    h_funs h !! s = Some F ∧ fn_code F = CSet d ∧
    is_Some (fn_before F) ∧ is_Some (fn_after F) ∧
    h_descs h !! d = Some D ∧ d_get D = Some g ∧ d_set D = Some s.

(** A property that the engine has not touched: it is missing, or data, or
    its accessors are the user's. *)
Definition raw_field h o p : Prop :=
  (∀ g, getter_ref h o p = Some g → user_fun (h_funs h) g) ∧
  (∀ s, setter_ref h o p = Some s → user_fun (h_funs h) s).

(** A property under interception: its getter is the engine's; its setter
    is the engine's, or a setter of the user's that was there before. *)
Definition intercepted h o p : Prop :=
  ∃ g s,
    is_Some (h_props h !! (o, p)) ∧
    d_configurable (attributes h o p) = true ∧
    getter_ref h o p = Some g ∧ setter_ref h o p = Some s ∧
    engine_getter h g ∧
    (user_fun (h_funs h) s ∨ engine_setter h g s).

(** A property whose two accessors are the engine's. *)
Definition write_intercepted h o p : Prop :=
  ∃ g s,
    is_Some (h_props h !! (o, p)) ∧
    d_configurable (attributes h o p) = true ∧
    getter_ref h o p = Some g ∧ setter_ref h o p = Some s ∧
    engine_getter h g ∧ engine_setter h g s.

(** The states of a property that the installers meet: the property is as
    the user made it, or as the installers left it.  Both are kept by every
    installing call, read and write (see [install_all_spec] and the frame
    lemmas), so every state that the module's own operations reach from a
    user's object is one of them. *)
Definition field_ok h o p : Prop := raw_field h o p ∨ intercepted h o p.

(** The three chains of [h'] are those of [h]. *)
Definition same_chains h h' o p : Prop :=
  afterGetChain h' o p = afterGetChain h o p ∧
  beforeSetChain h' o p = beforeSetChain h o p ∧
  afterSetChain h' o p = afterSetChain h o p.

(** The accessor functions in place, which carry the chains, are still in
    place in [h']. *)
Definition reused h h' o p : Prop :=
  (intercepted h o p →
   intercepted h' o p ∧ getter_ref h' o p = getter_ref h o p) ∧
  (write_intercepted h o p →
   write_intercepted h' o p ∧ setter_ref h' o p = setter_ref h o p).

(** The heap once an installer has its descriptor object in hand. *)
Definition stage h o p : Heap W :=
  with_descs (h_descs h ++ [attributes h o p]) h.

(** The value a read starts from: [oldGet()] when the stored value is
    [undefined] and there is an [oldGet], the stored value otherwise. *)
Definition read_start (fs : list (FunObj W)) (G : FunObj W)
    : W → UOutcome W :=
  match strict_eq (fn_value G) VUndefined, fn_oldGet G with
  | true, Some og =>
      match fn_code <$> fs !! og with
      | Some (CUser body) => body []
      | _ => URaise TypeError
      end
  | _, _ => UReturn (fn_value G)
  end.

(** Start value, then the chain. *)
Definition read_chain (fs : list (FunObj W)) (G : FunObj W) (w : W)
    : UOutcome W :=
  match read_start fs G w with
  | UReturn v w' => forEach_thread (default [] (fn_after G)) v w'
  | URaise e w' => URaise e w'
  end.

(** What a read of a property that the engine has not touched does. *)
Definition raw_read h o p : W → UOutcome W :=
  match getter_ref h o p with
  | None => UReturn (default VUndefined (d_value (attributes h o p)))
  | Some g =>
      match fn_code <$> h_funs h !! g with
      | Some (CUser body) => body []
      | _ => URaise TypeError
      end
  end.

(** What a write does once the engine's setter is reached: run the
    before-chain on the incoming value, commit, and run the after-chain
    unless the committed value is strictly equal to the value stored when
    the write began. *)
Definition write_result h g (G : FunObj W) (before after : list (Handler W))
    (value : JsVal) : Outcome W JsVal :=
  match forEach_thread before value (h_world h) with
  | URaise e w => Throw e (with_world w h)
  | UReturn committed w =>
      let h' := with_funs (<[g := fn_with_value committed G]> (h_funs h))
                          (with_world w h) in
      if strict_eq committed (fn_value G) then Ret committed h'
      else
        match forEach_call after committed w with
        | UReturn _ w' => Ret committed (with_world w' h')
        | URaise e w' => Throw e (with_world w' h')
        end
  end.

(** The outcome of the first statement of [get]: the start value and the
    world in which the chain begins. *)
Definition start_outcome h o p : UOutcome W :=
  match getter_of h o p with
  | Some G => read_start (h_funs h) G (h_world h)
  | None => URaise TypeError (h_world h)
  end.

(** [descriptor.get.oldGet]: the getter that the engine's getter replaced. *)
Definition priorReader h o p : option (list JsVal → W → UOutcome W) :=
  match getter_of h o p with
  | Some G =>
      match fn_oldGet G with
      | Some og =>
          match fn_code <$> h_funs h !! og with
          | Some (CUser body) => Some body
          | _ => None
          end
      | None => None
      end
  | None => None
  end.

(** The property's own getter, when it is a function of the user's. *)
Definition user_getter h o p : option (list JsVal → W → UOutcome W) :=
  match getter_ref h o p with
  | Some g =>
      match fn_code <$> h_funs h !! g with
      | Some (CUser body) => Some body
      | _ => None
      end
  | None => None
  end.

(** What every step of the engine keeps of the property's state. *)
Definition frame h h' o p : Prop :=
  (raw_field h o p → raw_field h' o p) ∧ reused h h' o p ∧
  same_chains h h' o p ∧
  (intercepted h o p → priorReader h' o p = priorReader h o p).

(** *** Sequences of installing calls *)

Inductive Hook : Type :=
  | AfterGet (callback : Callback W)
  | BeforeSet (callback : Callback W)
  | AfterSet (callback : Callback W).

Definition install o p (k : Hook) : M W JsVal :=
  match k with
  | AfterGet callback => afterGet o p callback
  | BeforeSet callback => beforeSet o p callback
  | AfterSet callback => afterSet o p callback
  end.

Definition heap_of {A} (r : Outcome W A) : Heap W :=
  match r with
  | Ret _ h' => h'
  | Throw _ h' => h'
  end.

(** The call returned the object, not [false], and did not raise. *)
Definition returned_object {A} (r : Outcome W A) (is_obj : A → bool) : bool :=
  match r with
  | Ret a _ => is_obj a
  | Throw _ _ => false
  end.

Definition is_object (v : JsVal) : bool :=
  match v with VObj _ => true | _ => false end.

(** The calls are made one after the other, whatever each one returns or
    raises. *)
Fixpoint install_all o p (ks : list Hook) h : Heap W :=
  match ks with
  | [] => h
  | k :: rest => install_all o p rest (heap_of (install o p k h))
  end.

(** The hooks of [ks] whose installing call returned the object. *)
Fixpoint registered o p (ks : list Hook) h : list Hook :=
  match ks with
  | [] => []
  | k :: rest =>
      let r := install o p k h in
      (if returned_object r is_object then [k] else [])
        ++ registered o p rest (heap_of r)
  end.

(** The handlers that a list of hooks contributes to each chain, in the
    order in which the chain runs them. *)
Fixpoint afterGet_hooks o p (ks : list Hook) : list (Handler W) :=
  match ks with
  | [] => []
  | AfterGet callback :: rest => handler_of o p callback :: afterGet_hooks o p rest
  | _ :: rest => afterGet_hooks o p rest
  end.

Fixpoint beforeSet_hooks o p (ks : list Hook) : list (Handler W) :=
  match ks with
  | [] => []
  | BeforeSet callback :: rest => beforeSet_hooks o p rest ++ [handler_of o p callback]
  | _ :: rest => beforeSet_hooks o p rest
  end.

Fixpoint afterSet_hooks o p (ks : list Hook) : list (Handler W) :=
  match ks with
  | [] => []
  | AfterSet callback :: rest => observer_of o p callback :: afterSet_hooks o p rest
  | _ :: rest => afterSet_hooks o p rest
  end.

End Observers.

Arguments Hook : clear implicits.

(** ** Scenarios *)

(** The user world of the scenarios is a log, as in [log.push(v)]. *)
Definition Log : Type := list JsVal.

(** [v => v + 1] and [v => v * 2], on the numbers the scenarios feed them. *)
Definition plus_one : Callback Log :=
  fun _ _ v log =>
    UReturn (match v with VNum x => VNum (x + 1) | _ => VNum nan end) log.

Definition times_two : Callback Log :=
  fun _ _ v log =>
    UReturn (match v with VNum x => VNum (x * 2) | _ => VNum nan end) log.

(** [(o,p,v) => log.push(v)]; [push] returns the new length, which no
    caller here uses. *)
Definition log_value : Callback Log :=
  fun _ _ v log => UReturn VUndefined (log ++ [v]).

(** [v => v] *)
Definition same_value : Callback Log :=
  fun _ _ v log => UReturn v log.

(** [v => 0], and [v => NaN] *)
Definition to_zero : Callback Log :=
  fun _ _ _ log => UReturn (VNum 0) log.


(** [v => { throw "rejected" }] *)
Definition reject : Callback Log :=
  fun _ _ _ log => URaise (VStr "rejected") log.

(** A data property as an object literal or an assignment creates it. *)
Definition data_property (v : JsVal) : Descriptor :=
  mkDescriptor (Some v) (Some true) None None true true.

(** [var obj = {x: 1}], the object being reference 0. *)
Definition obj_x1 : Heap Log :=
  mkHeap {[ (0, "x") := data_property (VNum 1) ]} [] [] [].



(** [var obj = { get t() { log.push("prior getter"); return 7; } }]:
    function object 0 is the getter. *)
Definition getter_of_t : list JsVal → Log → UOutcome Log :=
  fun _ log => UReturn (VNum 7) (log ++ [VStr "prior getter"]).

Definition obj_getter : Heap Log :=
  mkHeap {[ (0, "t") := mkDescriptor None None (Some 0) None true true ]} []
         [new_function (CUser getter_of_t)] [].

(** Run a computation and keep the heap. *)
Definition after {A} (m : M Log A) (h : Heap Log) : Heap Log := heap_of (m h).

(** What a computation returned, if it did. *)
Definition result {W A} (r : Outcome W A) : option A :=
  match r with
  | Ret a _ => Some a
  | Throw _ _ => None
  end.

(** [{x: 1}] after [afterGet(obj, "x", v => v + 1)] and then
    [afterGet(obj, "x", v => v * 2)]. *)
Definition obj_x_two_hooks : Heap Log :=
  after (afterGet 0 "x" times_two) (after (afterGet 0 "x" plus_one) obj_x1).

(** [{x: 1}] after [beforeSet(obj, "y", v => v * 2)] and then
    [beforeSet(obj, "y", v => v + 1)]. *)
Definition obj_y_two_hooks : Heap Log :=
  after (beforeSet 0 "y" plus_one) (after (beforeSet 0 "y" times_two) obj_x1).

(** [{x: 1}] after [afterSet(obj, "y", (o,p,v) => log.push(v))] twice. *)
Definition obj_y_two_observers : Heap Log :=
  after (afterSet 0 "y" log_value) (after (afterSet 0 "y" log_value) obj_x1).

(** [{x: 1}] after [afterSet(obj, "y", (o,p,v) => log.push(v))], then
    [beforeSet(obj, "y", v => { throw "rejected" })], then
    [beforeSet(obj, "y", v => v + 1)]. *)
Definition obj_y_guarded : Heap Log :=
  after (beforeSet 0 "y" plus_one)
    (after (beforeSet 0 "y" reject)
       (after (afterSet 0 "y" log_value) obj_x1)).


(** [{x: 1}] after [afterGet(obj, "x", v => v + 1)]. *)
Definition obj_x_hooked : Heap Log :=
  after (afterGet 0 "x" plus_one) obj_x1.

(** [{x: 1}] after [beforeSet(obj, "y", v => v * 2)], then after the write
    [obj.y = 5], then after [afterSet(obj, "y", (o,p,v) => log.push(v))]. *)
Definition obj_y_doubling : Heap Log :=
  after (beforeSet 0 "y" times_two) obj_x1.

Definition obj_y_ten : Heap Log :=
  after (write_property 0 "y" (VNum 5)) obj_y_doubling.

Definition obj_y_logged : Heap Log :=
  after (afterSet 0 "y" log_value) obj_y_ten.


(** One hook of each kind, and a second afterGet hook. *)
Definition four_hooks : list (Hook Log) :=
  [AfterGet plus_one; BeforeSet times_two; AfterSet log_value;
   AfterGet same_value].

(** [{x: 1}] after the four installing calls on ["x"], and the hooks among
    the four whose installing call returned the object. *)
Definition obj_x_four_hooks : Heap Log := install_all 0 "x" four_hooks obj_x1.

Definition four_hooks_kept : list (Hook Log) :=
  registered 0 "x" four_hooks obj_x1.

(** [obj_getter] after [afterGet(obj, "t", v => v)], then after a read of
    [obj.t], then after the write [obj.t = undefined]. *)
Definition obj_t_hooked : Heap Log :=
  after (afterGet 0 "t" same_value) obj_getter.

Definition obj_t_read : Heap Log :=
  after (read_property 0 "t") obj_t_hooked.

Definition obj_t_cleared : Heap Log :=
  after (write_property 0 "t" VUndefined) obj_t_read.

(** ** Operations on one property, in any order *)

Section Operations.

Context {W : Type}.
Implicit Types (h : Heap W) (o d : nat) (p : string).

(** What a program does to [object.property]: an installing call, a read
    or an assignment. *)
Inductive Op : Type :=
  | Install (k : Hook W)
  | Read
  | Write (value : JsVal).

Definition perform o p (a : Op) h : Heap W :=
  match a with
  | Install k => heap_of (install o p k h)
  | Read => heap_of (read_property o p h)
  | Write value => heap_of (write_property o p value h)
  end.

(** The operations are made one after the other, whatever each one returns
    or raises. *)
Fixpoint perform_all o p (ops : list Op) h : Heap W :=
  match ops with
  | [] => h
  | a :: rest => perform_all o p rest (perform o p a h)
  end.

(** The hooks among [ops] whose installing call returned the object. *)
Fixpoint installed o p (ops : list Op) h : list (Hook W) :=
  match ops with
  | [] => []
  | a :: rest =>
      match a with
      | Install k =>
          if returned_object (install o p k h) is_object then [k] else []
      | _ => []
      end ++ installed o p rest (perform o p a h)
  end.


(** The property's own setter, when it is a function of the user's, and
    [descriptor.set.oldset]: the setter that the engine's setter replaced. *)
Definition user_setter h o p : option (list JsVal → W → UOutcome W) :=
  match setter_ref h o p with
  | Some s =>
      match fn_code <$> h_funs h !! s with
      | Some (CUser body) => Some body
      | _ => None
      end
  | None => None
  end.

Definition priorWriter h o p : option (list JsVal → W → UOutcome W) :=
  match setter_of h o p with
  | Some F =>
      match fn_oldset F with
      | Some os =>
          match fn_code <$> h_funs h !! os with
          | Some (CUser body) => Some body
          | _ => None
          end
      | None => None
      end
  | None => None
  end.

(** *** What an operation on one property writes *)

(** The function objects that an operation on [object.property] does not
    write: the user's functions, and every function but the property's two
    accessors. *)
Definition outside h o p (f : nat) : Prop :=
  user_fun (h_funs h) f ∨
  (getter_ref h o p ≠ Some f ∧ setter_ref h o p ≠ Some f).

(** From [h] to [h'], descriptor objects were only allocated, the function
    objects [outside] the property are as they were, and the accessors of
    [object.property] are those it had or newly allocated ones. *)
Definition updates h h' o p : Prop :=
  (length (h_funs h) ≤ length (h_funs h'))%nat ∧
  (∀ d D, h_descs h !! d = Some D → h_descs h' !! d = Some D) ∧
  (∀ f F, h_funs h !! f = Some F → outside h o p f →
          h_funs h' !! f = Some F) ∧
  (∀ f, getter_ref h' o p = Some f →
        getter_ref h o p = Some f ∨ (length (h_funs h) ≤ f)%nat) ∧
  (∀ f, setter_ref h' o p = Some f →
        setter_ref h o p = Some f ∨ (length (h_funs h) ≤ f)%nat).

(** The accessors of [o2.p2] are not among the function objects that an
    operation on [object.property] writes. *)
Definition independent h o p o2 p2 : Prop :=
  ∀ f, getter_ref h o2 p2 = Some f ∨ setter_ref h o2 p2 = Some f →
       outside h o p f.

(** *** Specifications of computations *)

(** From a heap where [P] holds, [m] returns in a heap where [Q] holds of
    the result, or raises in a heap where [E] holds. *)
Definition triple {A} (P : Heap W → Prop) (m : M W A)
    (Q : A → Heap W → Prop) (E : Heap W → Prop) : Prop :=
  ∀ h, P h →
    match m h with
    | Ret a h' => Q a h'
    | Throw _ h' => E h'
    end.

(** An update of a descriptor object that leaves [enumerable] and
    [configurable] alone. *)
Definition keeps_flags (upd : Descriptor → Descriptor) : Prop :=
  ∀ D, d_enumerable (upd D) = d_enumerable D ∧
       d_configurable (upd D) = d_configurable D.

(** The property table is [ps]. *)
Definition props_are (ps : gmap (nat * string) Descriptor) h : Prop :=
  h_props h = ps.

(** The property table is still [ps], and the descriptor object [d] that an
    installer works on has the [enumerable] and [configurable] of the
    property as [ps] has it. *)
Definition descriptor_kept (ps : gmap (nat * string) Descriptor) o p d h
    : Prop :=
  h_props h = ps ∧
  ∃ D, h_descs h !! d = Some D ∧
       d_enumerable D = d_enumerable (default fresh_descriptor (ps !! (o, p))) ∧
       d_configurable D
         = d_configurable (default fresh_descriptor (ps !! (o, p))).

(** The property table of [h] is [ps] but for [object.property], which is
    now an accessor property with the [enumerable] and [configurable] it had
    in [ps]. *)
Definition redefined (ps : gmap (nat * string) Descriptor) o p h : Prop :=
  (∀ k, k ≠ (o, p) → h_props h !! k = ps !! k) ∧
  ∃ P, h_props h !! (o, p) = Some P ∧ d_value P = None ∧
       (d_configurable (default fresh_descriptor (ps !! (o, p))) = true →
        d_writable P = None) ∧
       d_enumerable P = d_enumerable (default fresh_descriptor (ps !! (o, p))) ∧
       d_configurable P
         = d_configurable (default fresh_descriptor (ps !! (o, p))).

(** [m] keeps the invariant [I], and [E] holds if it raises. *)
Definition keeps {A} (I E : Heap W → Prop) (m : M W A) : Prop :=
  triple I m (λ _, I) E.

(** What an invariant needs to survive the engine's primitive steps: it
    does not depend on the user's world nor on the function objects, and
    it survives the allocation of a descriptor object and every update of
    one that keeps its flags. *)
Definition closed (I E : Heap W → Prop) : Prop :=
  (∀ h, I h → E h) ∧
  (∀ h w, I h → I (with_world w h)) ∧
  (∀ h fs, I h → I (with_funs fs h)) ∧
  (∀ h D, I h → I (with_descs (h_descs h ++ [D]) h)) ∧
  (∀ h d D upd, keeps_flags upd → h_descs h !! d = Some D → I h →
     I (with_descs (<[d := upd D]> (h_descs h)) h)).

End Operations.

Arguments Op : clear implicits.

(** ** Further scenarios *)

(** [var obj = {}] *)
Definition obj_empty : Heap Log := mkHeap ∅ [] [] [].

(** [var obj = { get t() { log.push("prior getter"); return 7; },
                 set t(v) { log.push(v); } }]:
    function object 0 is the getter, function object 1 the setter. *)
Definition setter_of_t : list JsVal → Log → UOutcome Log :=
  fun args log => UReturn VUndefined (log ++ [nth 0 args VUndefined]).

Definition obj_accessor : Heap Log :=
  mkHeap {[ (0, "t") := mkDescriptor None None (Some 0) (Some 1) true true ]} []
         [new_function (CUser getter_of_t); new_function (CUser setter_of_t)]
         [].

(** [var obj = {}; Object.defineProperty(obj, "r",
      {value: 1, enumerable: false, configurable: true})]: read-only. *)
Definition obj_readonly : Heap Log :=
  mkHeap {[ (0, "r") := mkDescriptor (Some (VNum 1)) (Some false) None None
                                     false true ]} [] [] [].

(** [var obj = {}; Object.defineProperty(obj, "c", {value: 1})]: neither
    writable nor configurable. *)
Definition obj_fixed : Heap Log :=
  mkHeap {[ (0, "c") := mkDescriptor (Some (VNum 1)) (Some false) None None
                                     false false ]} [] [] [].

(** A run of installing calls, reads and writes on one property. *)
Definition mixed_operations : list (Op Log) :=
  [Install (AfterGet plus_one); Read; Write (VNum 5);
   Install (BeforeSet times_two); Read; Install (AfterSet log_value);
   Write (VNum 0); Install (AfterGet same_value)].

(** [{x: 1}] after [afterGet(obj, "x", v => v + 1)] and then
    [afterGet(obj, "x", v => { throw "rejected" })]. *)
Definition obj_x_rejecting : Heap Log :=
  after (afterGet 0 "x" reject) obj_x_hooked.

(** [obj_accessor] after [afterGet(obj, "t", v => v)], and after
    [beforeSet(obj, "t", v => v * 2)]. *)
Definition obj_accessor_read_hook : Heap Log :=
  after (afterGet 0 "t" same_value) obj_accessor.

Definition obj_accessor_write_hook : Heap Log :=
  after (beforeSet 0 "t" times_two) obj_accessor.
(** [{x: 1}] after [afterGet(obj, "x", v => v + 1)] and
    [afterGet(obj, "y", v => v * 2)]: two intercepted properties. *)
Definition obj_xy_hooked : Heap Log :=
  after (afterGet 0 "y" times_two) obj_x_hooked.

Section Theory.

Context {W : Type}.
Implicit Types (h : Heap W) (o g s d : nat) (p : string).

(** *** Executing the primitive steps *)

Lemma lookup_snoc_here {A} (l : list A) (x : A) :
  (l ++ [x]) !! length l = Some x.
Proof. by apply list_lookup_middle. Qed.

Lemma insert_snoc_here {A} (l : list A) (x y : A) :
  <[length l := y]> (l ++ [x]) = l ++ [y].
Proof.
  rewrite insert_app_r_alt by lia. by rewrite Nat.sub_diag.
Qed.

Ltac heap_cbn :=
  cbv beta iota delta
    [bind ret throw defined run_user read_desc write_desc new_desc
     read_fun write_fun new_fun with_props with_descs with_funs with_world]
    in *;
  cbn [h_props h_descs h_funs h_world
       fn_code fn_value fn_after fn_before fn_oldGet fn_oldset
       fn_with_value fn_with_after fn_with_before fn_with_oldGet
       fn_with_oldset new_function
       d_value d_writable d_get d_set d_enumerable d_configurable
       desc_with_get desc_with_set desc_delete_data fresh_descriptor
       default from_option id fmap option_fmap option_map] in *.

(** Bounds and disequalities of references, from the lookups at hand. *)
Ltac ref_bounds :=
  repeat match goal with
  | H : ?l !! ?i = Some _ |- _ =>
      lazymatch goal with
      | _ : i < length l |- _ => fail
      | _ => pose proof (lookup_lt_Some _ _ _ H)
      end
  end;
  rewrite ?length_app, ?length_insert in *; cbn [length] in *; try lia;
  try (let E := fresh in intros E; subst; simplify_eq/=; congruence).

(** One step of evaluating a lookup or an update in a store. *)
Ltac store_step :=
  first
  [ rewrite lookup_snoc_here
  | rewrite insert_snoc_here
  | rewrite list_insert_insert_eq
  | rewrite lookup_insert_eq
  | rewrite list_lookup_insert_eq by ref_bounds
  | rewrite list_lookup_insert_ne by ref_bounds
  | rewrite lookup_app_l by ref_bounds
  | rewrite insert_app_l by ref_bounds
  | match goal with
    | H : ?l !! ?i = _ |- context [?l !! ?i] => rewrite H
    | H : ?f ?x = Some _ |- context [?f ?x] => rewrite H
    | H : ?f ?x = None |- context [?f ?x] => rewrite H
    | H : ?f ?x = true |- context [?f ?x] => rewrite H
    | H : ?f ?x = false |- context [?f ?x] => rewrite H
    | H : fn_code ?x = _ |- context [fn_code ?x] => rewrite H
    end ].

Ltac run := heap_cbn; repeat (store_step; heap_cbn).

Ltac obs :=
  unfold same_chains, stage, afterGetChain, beforeSetChain, afterSetChain,
         cachedValue, priorReader, user_getter, getter_of, setter_of,
         getter_ref, setter_ref, attributes in *.

(** Case analysis on the outcome of the user code that runs next. *)
Ltac split_user :=
  match goal with
  | |- context [match ?x with UReturn _ _ => _ | URaise _ _ => _ end] =>
      lazymatch x with
      | context [match _ with _ => _ end] => fail
      | _ => destruct x eqn:?
      end
  end.

Lemma get_spec h d D g G :
  h_descs h !! d = Some D → d_get D = Some g →
  h_funs h !! g = Some G → is_Some (fn_after G) →
  (∀ og, fn_oldGet G = Some og → user_fun (h_funs h) og) →
  get d h =
    match read_chain (h_funs h) G (h_world h) with
    | UReturn v w =>
        Ret v (with_funs (<[g := fn_with_value v G]> (h_funs h)) (with_world w h))
    | URaise e w => Throw e (with_world w h)
    end.
Proof.
  intros HD Hg HG [after Ha] Hog.
  unfold get, read_chain, read_start, call_user.
  destruct (strict_eq (fn_value G) VUndefined) eqn:Eundef;
    destruct (fn_oldGet G) as [og|] eqn:Eog;
    try (destruct (Hog og eq_refl) as [body Hbody]);
    run; repeat (split_user; run); done.
Qed.

Lemma set_spec h d D g s G F before after value :
  h_descs h !! d = Some D → d_get D = Some g → d_set D = Some s →
  h_funs h !! g = Some G → h_funs h !! s = Some F → g ≠ s →
  fn_before F = Some before → fn_after F = Some after →
  set d value h = write_result h g G before after value.
Proof.
  intros HD Hg Hs HG HF Hne Hb Ha.
  unfold set, write_result. run. split_user; run; [|done].
  destruct (strict_eq _ (fn_value G)); cbn [negb]; run; [done|].
  split_user; by run.
Qed.

Lemma call_getter h g G d D :
  h_funs h !! g = Some G → fn_code G = CGet d →
  h_descs h !! d = Some D → d_get D = Some g → is_Some (fn_after G) →
  (∀ og, fn_oldGet G = Some og → user_fun (h_funs h) og) →
  call g [] h =
    match read_chain (h_funs h) G (h_world h) with
    | UReturn v w =>
        Ret v (with_funs (<[g := fn_with_value v G]> (h_funs h)) (with_world w h))
    | URaise e w => Throw e (with_world w h)
    end.
Proof.
  intros HG Hc HD Hg Ha Hog. rewrite <- (get_spec h d D g G) by done.
  unfold call. by run.
Qed.

(** *** Reading and writing the property *)

Lemma read_property_raw h o p :
  raw_field h o p → read_property o p h = run_user (raw_read h o p) h.
Proof.
  intros [Hg _]. destruct h as [ps ds fs w].
  unfold read_property, raw_read, getter_ref, attributes, call in *. heap_cbn.
  destruct (ps !! (o, p)) as [P|]; heap_cbn; [|done].
  destruct (d_get P) as [g|]; heap_cbn; [|done].
  destruct (Hg g eq_refl) as [body Hbody]. by run.
Qed.

Lemma read_property_intercepted h o p g G :
  intercepted h o p → getter_ref h o p = Some g → h_funs h !! g = Some G →
  read_property o p h =
    match read_chain (h_funs h) G (h_world h) with
    | UReturn v w =>
        Ret v (with_funs (<[g := fn_with_value v G]> (h_funs h)) (with_world w h))
    | URaise e w => Throw e (with_world w h)
    end.
Proof.
  intros (g' & s & [P HP] & _ & Hg' & _ & (G' & d & D & HG' & Hc & Ha & HD & HDg & Hog) & _)
         Hg HG.
  assert (g' = g) as -> by congruence. assert (G' = G) as -> by congruence.
  rewrite <- (get_spec h d D g G) by done.
  unfold read_property, call, getter_ref, attributes in *. rewrite HP in *.
  by run.
Qed.

Lemma write_property_intercepted h o p g s G F value :
  write_intercepted h o p →
  getter_ref h o p = Some g → setter_ref h o p = Some s →
  h_funs h !! g = Some G → h_funs h !! s = Some F →
  write_property o p value h =
    write_result h g G (default [] (fn_before F)) (default [] (fn_after F)) value.
Proof.
  intros (g' & s' & [P HP] & _ & Hg' & Hs' & (G' & d & D & HG' & Hc & Ha & HD & HDg & Hog)
          & (F' & d' & D' & HF' & Hc' & [b Hb] & [a Ha'] & HD' & HDg' & HDs'))
         Hg Hs HG HF.
  assert (g' = g) as -> by congruence. assert (s' = s) as -> by congruence.
  assert (G' = G) as -> by congruence. assert (F' = F) as -> by congruence.
  assert (g ≠ s) by (intros ->; congruence).
  rewrite <- (set_spec h d' D' g s G F) by (done || by rewrite ?Hb, ?Ha').
  unfold write_property, call, setter_ref, attributes in *. rewrite HP in *.
  by run.
Qed.

(** *** The invariant under the engine's own updates *)

Lemma user_fun_app (fs more : list (FunObj W)) f :
  user_fun fs f → user_fun (fs ++ more) f.
Proof.
  intros [body Hb]. exists body. rewrite lookup_app_l; [done|].
  by eapply lookup_lt_Some.
Qed.

Lemma user_fun_insert (fs : list (FunObj W)) f g G G' :
  fs !! g = Some G → (∀ body, fn_code G ≠ CUser body) →
  user_fun fs f → user_fun (<[g := G']> fs) f.
Proof.
  intros HG Hc [body Hb]. exists body.
  rewrite list_lookup_insert_ne; [done|].
  intros ->. simplify_eq. by eapply Hc.
Qed.

Lemma store_value_intercepted h o p g G v w :
  intercepted h o p → getter_ref h o p = Some g → h_funs h !! g = Some G →
  let h' := with_funs (<[g := fn_with_value v G]> (h_funs h)) (with_world w h) in
  intercepted h' o p ∧
  (write_intercepted h o p → write_intercepted h' o p) ∧
  same_chains h h' o p ∧ cachedValue h' o p = Some v.
Proof.
  intros (g' & s & HP & Hcfg & Hg' & Hs & Heg & Hes) Hg HG h'.
  assert (g' = g) as -> by congruence.
  destruct Heg as (G' & d & D & HG' & Hc & Ha & HD & HDg & Hog).
  assert (G' = G) as -> by congruence.
  assert (Heg' : engine_getter h' g).
  { exists (fn_with_value v G), d, D. subst h'. run.
    repeat split; try done. intros og Hog'.
    eapply user_fun_insert; [done| |eauto]. intros body; congruence. }
  assert (Hes' : engine_setter h g s → engine_setter h' g s).
  { intros (F & d' & D' & HF & Hc' & Hb & Ha' & HD' & HDg' & HDs').
    exists F, d', D'. subst h'. run. done. }
  assert (Hs' : h_funs h' !! s = h_funs h !! s).
  { subst h'. run. destruct Hes as [[body Hb]|(F & d' & D' & HF & Hc' & _)]; by run. }
  repeat split.
  - exists g, s. repeat split; try done.
    destruct Hes as [Hu|He]; [left|right; by apply Hes'].
    subst h'; heap_cbn. eapply user_fun_insert; [done| |done].
    intros body; congruence.
  - intros (g2 & s2 & _ & _ & Hg2 & Hs2 & _ & He2).
    assert (g2 = g) as -> by congruence. assert (s2 = s) as -> by congruence.
    exists g, s. repeat split; try done. by apply Hes'.
  - obs. subst h'. heap_cbn. rewrite Hg. by run.
  - obs. change (h_props h') with (h_props h). rewrite Hs, Hs'. done.
  - obs. change (h_props h') with (h_props h). rewrite Hs, Hs'. done.
  - obs. subst h'. heap_cbn. rewrite Hg. by run.
Qed.

Lemma store_value_prior h o p g G v w :
  intercepted h o p → getter_ref h o p = Some g → h_funs h !! g = Some G →
  priorReader (with_funs (<[g := fn_with_value v G]> (h_funs h))
                         (with_world w h)) o p
    = priorReader h o p.
Proof.
  intros (g' & s & HP & Hcfg & Hg' & Hs & Heg & Hes) Hg HG.
  assert (g' = g) as -> by congruence.
  destruct Heg as (G' & d & D & HG' & Hc & Ha & HD & HDg & Hog).
  assert (G' = G) as -> by congruence.
  unfold priorReader, getter_of. change (getter_ref _ o p) with (getter_ref h o p).
  rewrite Hg. run.
  destruct (fn_oldGet G) as [og|] eqn:Eog; [|done].
  destruct (Hog og eq_refl) as [body Hbody]. by run.
Qed.

(** *** The first three statements of an installer are a read *)

Lemma prelude_spec {A} (k : nat → JsVal → M W A) h o p :
  field_ok h o p →
  (let! descriptor := descriptor_for o p in
   let! value := current_value descriptor in
   k descriptor value) h =
  match read_property o p h with
  | Ret v h1 => k (length (h_descs h1)) v (stage h1 o p)
  | Throw e h1 => Throw e (stage h1 o p)
  end.
Proof.
  intros [Hraw|Hint].
  - rewrite read_property_raw by done. destruct Hraw as [Hg _].
    unfold descriptor_for, getOwnPropertyDescriptor, current_value, call, raw_read.
    obs. destruct (h_props h !! (o, p)) as [P|] eqn:HP; run.
    + destruct (d_get P) as [g|] eqn:Eg; run.
      * destruct (Hg g eq_refl) as [body Hbody]. run.
        split_user; obs; by run.
      * obs. by run.
    + obs. by run.
  - pose proof Hint
      as (g & s & [P HP] & _ & Hg & _
          & (G & d & D & HG & Hc & Ha & HD & HDg & Hog) & _).
    rewrite (read_property_intercepted h o p g G) by done.
    unfold descriptor_for, getOwnPropertyDescriptor, current_value.
    obs. rewrite HP in *. run.
    erewrite (call_getter _ g G d D); cbn [h_funs h_descs h_world]; eauto;
      [|by rewrite lookup_app_l by ref_bounds].
    split_user; obs; run; by rewrite ?length_insert.
Qed.

(** *** The rest of each installer *)

Lemma intercepted_intro h o p P g s G d D :
  h_props h !! (o, p) = Some P → d_configurable P = true →
  d_get P = Some g → d_set P = Some s →
  h_funs h !! g = Some G → fn_code G = CGet d → is_Some (fn_after G) →
  h_descs h !! d = Some D → d_get D = Some g →
  (∀ og, fn_oldGet G = Some og → user_fun (h_funs h) og) →
  user_fun (h_funs h) s ∨ engine_setter h g s →
  intercepted h o p.
Proof.
  intros HP ?????????. exists g, s. obs. rewrite HP. heap_cbn.
  repeat split; try done. by exists G, d, D.
Qed.

Lemma write_intercepted_intro h o p P g s G d D :
  h_props h !! (o, p) = Some P → d_configurable P = true →
  d_get P = Some g → d_set P = Some s →
  h_funs h !! g = Some G → fn_code G = CGet d → is_Some (fn_after G) →
  h_descs h !! d = Some D → d_get D = Some g →
  (∀ og, fn_oldGet G = Some og → user_fun (h_funs h) og) →
  engine_setter h g s →
  write_intercepted h o p.
Proof.
  intros HP ?????????. exists g, s. obs. rewrite HP. heap_cbn.
  repeat split; try done. by exists G, d, D.
Qed.

Lemma engine_setter_intro h g s F d D :
  h_funs h !! s = Some F → fn_code F = CSet d →
  is_Some (fn_before F) → is_Some (fn_after F) →
  h_descs h !! d = Some D → d_get D = Some g → d_set D = Some s →
  engine_setter h g s.
Proof. intros. by exists F, d, D. Qed.

Lemma raw_not_intercepted h o p :
  raw_field h o p → intercepted h o p → False.
Proof.
  intros [Hg _] (g & s & _ & _ & Hg' & _ & (G & d & D & HG & Hc & _) & _).
  destruct (Hg g Hg') as [body Hb]. simplify_eq/=.
Qed.

Lemma raw_chains h o p :
  raw_field h o p →
  afterGetChain h o p = [] ∧ beforeSetChain h o p = [] ∧
  afterSetChain h o p = [].
Proof.
  intros [Hg Hs]. unfold afterGetChain, beforeSetChain, afterSetChain,
    getter_of, setter_of.
  split; [|split].
  - destruct (getter_ref h o p) as [g|]; [|done].
    destruct (Hg g eq_refl) as [body ->]. done.
  - destruct (setter_ref h o p) as [s|]; [|done].
    destruct (Hs s eq_refl) as [body ->]. done.
  - destruct (setter_ref h o p) as [s|]; [|done].
    destruct (Hs s eq_refl) as [body ->]. done.
Qed.

Ltac user_funs :=
  repeat match goal with
  | H : ∀ g, Some ?x = Some g → user_fun _ g |- _ =>
      let body := fresh "body" in
      let Hbody := fresh "Hbody" in
      destruct (H x eq_refl) as [body Hbody]; clear H
  | H : ∀ g, None = Some g → user_fun _ g |- _ => clear H
  end.

(** Closing a fact about an explicit final heap. *)
Ltac fact :=
  heap_cbn; run;
  lazymatch goal with
  | |- is_Some _ => by eexists
  | |- user_fun _ _ => eexists; run; first [eassumption | reflexivity]
  | |- ∀ _, _ → user_fun _ _ =>
      let og := fresh "og" in let E := fresh in
      intros og E; heap_cbn; simplify_eq; try congruence;
      try match goal with
          | H : ∀ og', _ = Some og' → user_fun _ og' |- _ =>
              let body := fresh "body" in
              let Hbody := fresh "Hbody" in
              destruct (H og E) as [body Hbody]
          end;
      eexists; run; first [eassumption | reflexivity]
  | |- _ => first [reflexivity | assumption]
  end.

Ltac setter_fact :=
  eapply engine_setter_intro; [fact|fact|fact|fact|fact|fact|fact].

Ltac invariant :=
  first [eapply intercepted_intro | eapply write_intercepted_intro];
  [fact|fact|fact|fact|fact|fact|fact|fact|fact|fact|
   first [left; solve [fact] | right; setter_fact | setter_fact]].

(** The host refuses to change the accessors of a property that is not
    configurable. *)
Ltac refuse :=
  rewrite bool_decide_eq_false_2
    by (let E := fresh in intros (_ & E & _); heap_cbn; simplify_eq; ref_bounds).

Lemma write_intercepted_setter h o p s :
  write_intercepted h o p → setter_ref h o p = Some s →
  user_fun (h_funs h) s → False.
Proof.
  intros (g & s' & _ & _ & _ & Hs' & _ & (F & d & D & HF & Hc & _)) Hs [body Hb].
  simplify_eq/=.
Qed.

Ltac leaf :=
  repeat match goal with
  | H : write_intercepted ?h ?o ?p,
    Hb : h_funs ?h !! ?s = Some (new_function (CUser _)) |- _ =>
      solve [exfalso; eapply (write_intercepted_setter h o p s H);
             [obs; run; done | eexists; eassumption]]
  | |- _ ∧ _ => split
  | |- raw_field _ _ _ => unfold raw_field; obs; run; split; fact
  | |- intercepted _ _ _ => invariant
  | |- write_intercepted _ _ _ => invariant
  | |- _ → _ => intro
  | |- _ => done
  end.

Lemma afterGet_install_raw h o p cb v :
  raw_field h o p →
  match afterGet_install o p cb (length (h_descs h)) v (stage h o p) with
  | Ret r h' =>
      r = VObj o ∧ intercepted h' o p ∧
      (setter_ref h o p = None → write_intercepted h' o p) ∧
      afterGetChain h' o p = [handler_of o p cb] ∧
      beforeSetChain h' o p = [] ∧ afterSetChain h' o p = [] ∧
      h_world h' = h_world h ∧ cachedValue h' o p = Some v ∧
      priorReader h' o p = user_getter h o p
  | Throw e h' =>
      d_configurable (attributes h o p) = false ∧
      raw_field h' o p ∧ h_world h' = h_world h
  end.
Proof.
  intros [Hg Hs].
  unfold afterGet_install, ensure_set, configure_get, configure_set, defineProperty.
  obs. destruct (h_props h !! (o, p)) as [P|] eqn:HP; run.
  - destruct (d_get P) as [gu|] eqn:Eg; destruct (d_set P) as [su|] eqn:Es;
      destruct (d_configurable P) eqn:Ec; user_funs; run;
      try refuse; run; leaf.
  - leaf.
Qed.

Ltac open_intercepted H :=
  let g := fresh "g" in let s := fresh "s" in let P := fresh "P" in
  let G := fresh "G" in let d := fresh "d" in let D := fresh "D" in
  let after := fresh "after" in
  destruct H as (g & s & [P ?HP] & ?Hcfg & ?Hg & ?Hs
                 & (G & d & D & ?HG & ?Hc & [after ?Ha] & ?HD & ?HDg & ?Hog)
                 & ?Hset);
  obs;
  match goal with HP : h_props _ !! _ = Some _ |- _ => rewrite HP in * end;
  heap_cbn;
  let og := fresh "og" in let body := fresh "prior" in
  destruct (fn_oldGet G) as [og|] eqn:?Eog;
  [match goal with
   | Hog : ∀ og', Some og = Some og' → user_fun _ og' |- _ =>
       destruct (Hog og eq_refl) as [body ?Hprior]; clear Hog
   end
  |match goal with
   | Hog : ∀ og', None = Some og' → user_fun _ og' |- _ => clear Hog
   end].

Ltac open_setter H :=
  let F := fresh "F" in let d := fresh "d'" in let D := fresh "D'" in
  let before := fresh "before" in let after := fresh "after'" in
  let body := fresh "body" in
  destruct H as [[body ?Hbody]
                |(F & d & D & ?HF & ?Hc' & [before ?Hb] & [after ?Ha'] & ?HD'
                  & ?HDg' & ?HDs')].

Lemma afterGet_install_intercepted h o p cb v :
  intercepted h o p →
  match afterGet_install o p cb (length (h_descs h)) v (stage h o p) with
  | Ret r h' =>
      r = VObj o ∧ intercepted h' o p ∧
      (write_intercepted h o p → write_intercepted h' o p) ∧
      afterGetChain h' o p = afterGetChain h o p ++ [handler_of o p cb] ∧
      beforeSetChain h' o p = beforeSetChain h o p ∧
      afterSetChain h' o p = afterSetChain h o p ∧
      h_world h' = h_world h ∧
      cachedValue h' o p = cachedValue h o p ∧
      getter_ref h' o p = getter_ref h o p ∧
      setter_ref h' o p = setter_ref h o p ∧
      priorReader h' o p = priorReader h o p
  | Throw e h' => False
  end.
Proof.
  intros Hint.
  unfold afterGet_install, ensure_set, configure_get, configure_set, defineProperty.
  open_intercepted Hint; run; open_setter Hset; run; leaf.
Qed.

Lemma beforeSet_install_raw h o p cb v :
  raw_field h o p →
  match beforeSet_install o p cb (length (h_descs h)) v (stage h o p) with
  | Ret r h' =>
      if is_function v then r = VBool false ∧ h' = stage h o p
      else
        r = VObj o ∧ write_intercepted h' o p ∧
        afterGetChain h' o p = [] ∧
        beforeSetChain h' o p = [handler_of o p cb] ∧
        afterSetChain h' o p = [] ∧
        h_world h' = h_world h ∧ cachedValue h' o p = Some v ∧
        priorReader h' o p = user_getter h o p
  | Throw e h' =>
      is_function v = false ∧
      d_configurable (attributes h o p) = false ∧
      raw_field h' o p ∧ h_world h' = h_world h
  end.
Proof.
  intros [Hg Hs].
  unfold beforeSet_install, ensure_get, ensure_set, wrap_set, configure_get,
    configure_set, defineProperty.
  destruct (is_function v) eqn:Ef; [by run|].
  obs. destruct (h_props h !! (o, p)) as [P|] eqn:HP; run.
  - destruct (d_get P) as [gu|] eqn:Eg; destruct (d_set P) as [su|] eqn:Es;
      destruct (d_configurable P) eqn:Ec; user_funs; run;
      try refuse; run; leaf.
  - leaf.
Qed.

Lemma afterSet_install_raw h o p cb v :
  raw_field h o p →
  match afterSet_install o p cb (length (h_descs h)) v (stage h o p) with
  | Ret r h' =>
      if is_function v then r = VBool false ∧ h' = stage h o p
      else
        r = VObj o ∧ write_intercepted h' o p ∧
        afterGetChain h' o p = [] ∧
        beforeSetChain h' o p = [] ∧
        afterSetChain h' o p = [observer_of o p cb] ∧
        h_world h' = h_world h ∧ cachedValue h' o p = Some v ∧
        priorReader h' o p = user_getter h o p
  | Throw e h' =>
      is_function v = false ∧
      d_configurable (attributes h o p) = false ∧
      raw_field h' o p ∧ h_world h' = h_world h
  end.
Proof.
  intros [Hg Hs].
  unfold afterSet_install, ensure_get, ensure_set, wrap_set, configure_get,
    configure_set, defineProperty.
  destruct (is_function v) eqn:Ef; [by run|].
  obs. destruct (h_props h !! (o, p)) as [P|] eqn:HP; run.
  - destruct (d_get P) as [gu|] eqn:Eg; destruct (d_set P) as [su|] eqn:Es;
      destruct (d_configurable P) eqn:Ec; user_funs; run;
      try refuse; run; leaf.
  - leaf.
Qed.

Lemma beforeSet_install_intercepted h o p cb v :
  intercepted h o p →
  match beforeSet_install o p cb (length (h_descs h)) v (stage h o p) with
  | Ret r h' =>
      if is_function v then r = VBool false ∧ h' = stage h o p
      else
        r = VObj o ∧ write_intercepted h' o p ∧
        afterGetChain h' o p = afterGetChain h o p ∧
        beforeSetChain h' o p = handler_of o p cb :: beforeSetChain h o p ∧
        afterSetChain h' o p = afterSetChain h o p ∧
        h_world h' = h_world h ∧
        cachedValue h' o p = cachedValue h o p ∧
        getter_ref h' o p = getter_ref h o p ∧
        (write_intercepted h o p → setter_ref h' o p = setter_ref h o p) ∧
        priorReader h' o p = priorReader h o p
  | Throw e h' => False
  end.
Proof.
  intros Hint.
  unfold beforeSet_install, ensure_get, ensure_set, wrap_set, configure_get,
    configure_set, defineProperty.
  destruct (is_function v) eqn:Ef; [by run|].
  open_intercepted Hint; run; open_setter Hset; run; leaf.
Qed.

Lemma afterSet_install_intercepted h o p cb v :
  intercepted h o p →
  match afterSet_install o p cb (length (h_descs h)) v (stage h o p) with
  | Ret r h' =>
      if is_function v then r = VBool false ∧ h' = stage h o p
      else
        r = VObj o ∧ write_intercepted h' o p ∧
        afterGetChain h' o p = afterGetChain h o p ∧
        beforeSetChain h' o p = beforeSetChain h o p ∧
        afterSetChain h' o p = afterSetChain h o p ++ [observer_of o p cb] ∧
        h_world h' = h_world h ∧
        cachedValue h' o p = cachedValue h o p ∧
        getter_ref h' o p = getter_ref h o p ∧
        (write_intercepted h o p → setter_ref h' o p = setter_ref h o p) ∧
        priorReader h' o p = priorReader h o p
  | Throw e h' => False
  end.
Proof.
  intros Hint.
  unfold afterSet_install, ensure_get, ensure_set, wrap_set, configure_get,
    configure_set, defineProperty.
  destruct (is_function v) eqn:Ef; [by run|].
  open_intercepted Hint; run; open_setter Hset; run; leaf.
Qed.

(** *** Frames *)

Lemma write_intercepted_intercepted h o p :
  write_intercepted h o p → intercepted h o p.
Proof.
  intros (g & s & ? & ? & ? & ? & ? & ?). exists g, s. by eauto 10.
Qed.

Lemma same_chains_refl h o p : same_chains h h o p.
Proof. by repeat split. Qed.

Lemma same_chains_trans h1 h2 h3 o p :
  same_chains h1 h2 o p → same_chains h2 h3 o p → same_chains h1 h3 o p.
Proof.
  intros (? & ? & ?) (? & ? & ?). repeat split; congruence.
Qed.

Lemma reused_refl h o p : reused h h o p.
Proof. by split. Qed.

Lemma reused_trans h1 h2 h3 o p :
  reused h1 h2 o p → reused h2 h3 o p → reused h1 h3 o p.
Proof.
  intros [Hg1 Hs1] [Hg2 Hs2]. split.
  - intros H1. destruct (Hg1 H1) as [H2 E2]. destruct (Hg2 H2) as [H3 E3].
    split; [done|congruence].
  - intros H1. destruct (Hs1 H1) as [H2 E2]. destruct (Hs2 H2) as [H3 E3].
    split; [done|congruence].
Qed.

Lemma frame_refl h o p : frame h h o p.
Proof.
  split; [done|]. split; [apply reused_refl|].
  split; [apply same_chains_refl|done].
Qed.

Lemma frame_trans h1 h2 h3 o p :
  frame h1 h2 o p → frame h2 h3 o p → frame h1 h3 o p.
Proof.
  intros (R1 & U1 & C1 & P1) (R2 & U2 & C2 & P2). split; [by auto|].
  split; [by eapply reused_trans|].
  split; [by eapply same_chains_trans|].
  intros Hi. rewrite P2, P1; [done|done|]. by apply U1.
Qed.

Lemma frame_field_ok h h' o p :
  frame h h' o p → field_ok h o p → field_ok h' o p.
Proof.
  intros (R & [U _] & _) [Hraw|Hint]; [left; auto|right; by apply U].
Qed.

Lemma stage_frame h o p :
  frame h (stage h o p) o p ∧ h_world (stage h o p) = h_world h ∧
  cachedValue (stage h o p) o p = cachedValue h o p.
Proof.
  assert (Hi : intercepted h o p → intercepted (stage h o p) o p).
  { intros Hint. open_intercepted Hint; open_setter Hset; invariant. }
  assert (Hw : write_intercepted h o p → write_intercepted (stage h o p) o p).
  { intros Hw. pose proof (write_intercepted_intercepted _ _ _ Hw) as Hint.
    open_intercepted Hint; open_setter Hset; leaf. }
  split; [|done]. split; [intros Hr; exact Hr|].
  split; [split; by auto|]. by repeat split.
Qed.

Lemma world_frame h w o p : frame h (with_world w h) o p.
Proof.
  split; [intros Hr; exact Hr|].
  split; [split; intros Hi; (split; [exact Hi|reflexivity])|].
  by repeat split.
Qed.

Lemma read_property_frame h o p :
  field_ok h o p →
  match read_property o p h with
  | Ret v h1 =>
      frame h h1 o p ∧ h_props h1 = h_props h ∧ h_descs h1 = h_descs h ∧
      (raw_field h o p → cachedValue h1 o p = cachedValue h o p) ∧
      (intercepted h o p → cachedValue h1 o p = Some v)
  | Throw e h1 =>
      frame h h1 o p ∧ h_props h1 = h_props h ∧ h_descs h1 = h_descs h ∧
      cachedValue h1 o p = cachedValue h o p
  end.
Proof.
  intros [Hraw|Hint].
  - rewrite read_property_raw by done. unfold run_user.
    destruct (raw_read h o p (h_world h)); (split; [apply world_frame|]);
      repeat split; try done.
    all: intros Hint; destruct (raw_not_intercepted _ _ _ Hraw); done.
  - pose proof Hint as (g & s & _ & _ & Hg & _ & (G & _ & _ & HG & _) & _).
    rewrite (read_property_intercepted h o p g G) by done.
    destruct (read_chain (h_funs h) G (h_world h)) as [v w|e w].
    + destruct (store_value_intercepted h o p g G v w Hint Hg HG)
        as (Hi & Hw & Hc & Hv).
      split; [|split; [done|split; [done|split; [|done]]]].
      * split; [intros Hraw; destruct (raw_not_intercepted _ _ _ Hraw Hint)|].
        split; [split; [done|intros Hw'; split; [by apply Hw|done]]|].
        split; [done|]. intros _. by apply store_value_prior.
      * intros Hraw. destruct (raw_not_intercepted _ _ _ Hraw Hint).
    + split; [apply world_frame|done].
Qed.

Lemma props_attributes h h' o p :
  h_props h' = h_props h →
  attributes h' o p = attributes h o p ∧
  getter_ref h' o p = getter_ref h o p ∧
  setter_ref h' o p = setter_ref h o p.
Proof. intros E. obs. by rewrite E. Qed.

(** *** The installers, on any state of the property *)

Lemma raw_after_frame h h1 o p :
  field_ok h o p → frame h h1 o p → raw_field h1 o p → raw_field h o p.
Proof.
  intros [Hraw|Hint] (_ & [U _] & _) Hraw1; [done|].
  destruct (raw_not_intercepted _ _ _ Hraw1). by apply U.
Qed.

Lemma raw_frame h h' o p :
  raw_field h o p → raw_field h' o p → frame h h' o p.
Proof.
  intros Hraw Hraw'. split; [done|]. split.
  - split; intros Hi; [|apply write_intercepted_intercepted in Hi];
      destruct (raw_not_intercepted _ _ _ Hraw Hi).
  - split; [|intros Hi; destruct (raw_not_intercepted _ _ _ Hraw Hi)].
    unfold same_chains.
    destruct (raw_chains _ _ _ Hraw) as (-> & -> & ->).
    destruct (raw_chains _ _ _ Hraw') as (-> & -> & ->). by repeat split.
Qed.

Lemma raw_reused h h' o p : raw_field h o p → reused h h' o p.
Proof.
  intros Hraw.
  split; intros Hi; [|apply write_intercepted_intercepted in Hi];
    destruct (raw_not_intercepted _ _ _ Hraw Hi).
Qed.

Lemma afterGet_spec h o p cb :
  field_ok h o p →
  match afterGet o p cb h with
  | Ret r h' =>
      r = VObj o ∧ intercepted h' o p ∧ reused h h' o p ∧
      (setter_ref h o p = None ∨ write_intercepted h o p →
       write_intercepted h' o p) ∧
      afterGetChain h' o p = afterGetChain h o p ++ [handler_of o p cb] ∧
      beforeSetChain h' o p = beforeSetChain h o p ∧
      afterSetChain h' o p = afterSetChain h o p
  | Throw e h' => frame h h' o p
  end.
Proof.
  intros Hok. unfold afterGet. rewrite prelude_spec by done.
  pose proof (read_property_frame h o p Hok) as Hread.
  destruct (read_property o p h) as [v h1|e h1].
  - destruct Hread as (Hf & Hp & _).
    destruct (props_attributes _ _ o p Hp) as (_ & _ & Hsr).
    pose proof Hf as (Hr & Hu & (Hag & Hbs & Has) & Hpr).
    destruct (frame_field_ok _ _ _ _ Hf Hok) as [Hraw1|Hint1].
    + pose proof (raw_after_frame _ _ _ _ Hok Hf Hraw1) as Hraw.
      pose proof (afterGet_install_raw h1 o p cb v Hraw1) as Hin.
      destruct (afterGet_install _ _ _ _ _ _) as [r h'|e h'].
      * destruct Hin as (-> & Hi & Hw & Hag' & Hbs' & Has' & _).
        destruct (raw_chains _ _ _ Hraw) as (-> & -> & ->).
        split; [done|]. split; [done|]. split; [by apply raw_reused|].
        split; [|done].
        intros [E|Hw']; [apply Hw; congruence|].
        apply write_intercepted_intercepted in Hw'.
        destruct (raw_not_intercepted _ _ _ Hraw Hw').
      * destruct Hin as (_ & Hraw' & _). by apply raw_frame.
    + pose proof (afterGet_install_intercepted h1 o p cb v Hint1) as Hin.
      destruct (afterGet_install _ _ _ _ _ _) as [r h'|e h']; [|done].
      destruct Hin as (-> & Hi & Hw & Hag' & Hbs' & Has' & _ & _ & Hgr & Hsr' & _).
      split; [done|]. split; [done|]. split.
      { eapply reused_trans; [done|]. split; [done|].
        intros Hw1. split; [by apply Hw|done]. }
      split; [|split; [congruence|split; congruence]].
      intros [E|Hw']; apply Hw.
      * exfalso. destruct Hint1 as (? & ? & _ & _ & _ & Hs1 & _). congruence.
      * by apply Hu.
  - destruct Hread as (Hf & _). eapply frame_trans; [done|]. apply stage_frame.
Qed.

Lemma beforeSet_spec h o p cb :
  field_ok h o p →
  match beforeSet o p cb h with
  | Ret r h' =>
      (r = VBool false ∧ frame h h' o p) ∨
      (r = VObj o ∧ write_intercepted h' o p ∧ reused h h' o p ∧
       afterGetChain h' o p = afterGetChain h o p ∧
       beforeSetChain h' o p = handler_of o p cb :: beforeSetChain h o p ∧
       afterSetChain h' o p = afterSetChain h o p)
  | Throw e h' => frame h h' o p
  end.
Proof.
  intros Hok. unfold beforeSet. rewrite prelude_spec by done.
  pose proof (read_property_frame h o p Hok) as Hread.
  destruct (read_property o p h) as [v h1|e h1].
  - destruct Hread as (Hf & Hp & _).
    pose proof Hf as (Hr & Hu & (Hag & Hbs & Has) & Hpr).
    destruct (frame_field_ok _ _ _ _ Hf Hok) as [Hraw1|Hint1].
    + pose proof (raw_after_frame _ _ _ _ Hok Hf Hraw1) as Hraw.
      pose proof (beforeSet_install_raw h1 o p cb v Hraw1) as Hin.
      destruct (beforeSet_install _ _ _ _ _ _) as [r h'|e h'].
      * destruct (is_function v).
        { destruct Hin as (-> & ->). left. split; [done|].
          eapply frame_trans; [done|]. apply stage_frame. }
        destruct Hin as (-> & Hw & Hag' & Hbs' & Has' & _).
        destruct (raw_chains _ _ _ Hraw) as (-> & -> & ->).
        right. split; [done|]. split; [done|]. by split; [apply raw_reused|].
      * destruct Hin as (_ & _ & Hraw' & _). by apply raw_frame.
    + pose proof (beforeSet_install_intercepted h1 o p cb v Hint1) as Hin.
      destruct (beforeSet_install _ _ _ _ _ _) as [r h'|e h']; [|done].
      destruct (is_function v).
      { destruct Hin as (-> & ->). left. split; [done|].
        eapply frame_trans; [done|]. apply stage_frame. }
      destruct Hin as (-> & Hw & Hag' & Hbs' & Has' & _ & _ & Hgr & Hsr' & _).
      right. split; [done|]. split; [done|]. split.
      { eapply reused_trans; [done|].
        split; [intros _; split; [by apply write_intercepted_intercepted|done]|].
        intros Hw1. split; [done|by apply Hsr']. }
      split; [congruence|split; congruence].
  - destruct Hread as (Hf & _). eapply frame_trans; [done|]. apply stage_frame.
Qed.

Lemma afterSet_spec h o p cb :
  field_ok h o p →
  match afterSet o p cb h with
  | Ret r h' =>
      (r = VBool false ∧ frame h h' o p) ∨
      (r = VObj o ∧ write_intercepted h' o p ∧ reused h h' o p ∧
       afterGetChain h' o p = afterGetChain h o p ∧
       beforeSetChain h' o p = beforeSetChain h o p ∧
       afterSetChain h' o p = afterSetChain h o p ++ [observer_of o p cb])
  | Throw e h' => frame h h' o p
  end.
Proof.
  intros Hok. unfold afterSet. rewrite prelude_spec by done.
  pose proof (read_property_frame h o p Hok) as Hread.
  destruct (read_property o p h) as [v h1|e h1].
  - destruct Hread as (Hf & Hp & _).
    pose proof Hf as (Hr & Hu & (Hag & Hbs & Has) & Hpr).
    destruct (frame_field_ok _ _ _ _ Hf Hok) as [Hraw1|Hint1].
    + pose proof (raw_after_frame _ _ _ _ Hok Hf Hraw1) as Hraw.
      pose proof (afterSet_install_raw h1 o p cb v Hraw1) as Hin.
      destruct (afterSet_install _ _ _ _ _ _) as [r h'|e h'].
      * destruct (is_function v).
        { destruct Hin as (-> & ->). left. split; [done|].
          eapply frame_trans; [done|]. apply stage_frame. }
        destruct Hin as (-> & Hw & Hag' & Hbs' & Has' & _).
        destruct (raw_chains _ _ _ Hraw) as (-> & -> & ->).
        right. split; [done|]. split; [done|]. by split; [apply raw_reused|].
      * destruct Hin as (_ & _ & Hraw' & _). by apply raw_frame.
    + pose proof (afterSet_install_intercepted h1 o p cb v Hint1) as Hin.
      destruct (afterSet_install _ _ _ _ _ _) as [r h'|e h']; [|done].
      destruct (is_function v).
      { destruct Hin as (-> & ->). left. split; [done|].
        eapply frame_trans; [done|]. apply stage_frame. }
      destruct Hin as (-> & Hw & Hag' & Hbs' & Has' & _ & _ & Hgr & Hsr' & _).
      right. split; [done|]. split; [done|]. split.
      { eapply reused_trans; [done|].
        split; [intros _; split; [by apply write_intercepted_intercepted|done]|].
        intros Hw1. split; [done|by apply Hsr']. }
      split; [congruence|split; congruence].
  - destruct Hread as (Hf & _). eapply frame_trans; [done|]. apply stage_frame.
Qed.

(** *** Reads and writes in terms of the chains *)

Lemma forEach_thread_app (c1 c2 : list (Handler W)) v w :
  forEach_thread (c1 ++ c2) v w =
    match forEach_thread c1 v w with
    | UReturn v' w' => forEach_thread c2 v' w'
    | URaise e w' => URaise e w'
    end.
Proof.
  revert v w. induction c1 as [|c c1 IH]; intros v w; [done|].
  cbn. destruct (c v w); [apply IH|done].
Qed.

Lemma forEach_call_app (c1 c2 : list (Handler W)) v w :
  forEach_call (c1 ++ c2) v w =
    match forEach_call c1 v w with
    | UReturn _ w' => forEach_call c2 v w'
    | URaise e w' => URaise e w'
    end.
Proof.
  revert w. induction c1 as [|c c1 IH]; intros w; [done|].
  cbn. destruct (c v w); [apply IH|done].
Qed.

Lemma read_intercepted_run h o p :
  intercepted h o p →
  match start_outcome h o p with
  | UReturn v0 w0 =>
      match forEach_thread (afterGetChain h o p) v0 w0 with
      | UReturn v w =>
          ∃ h', read_property o p h = Ret v h' ∧
                cachedValue h' o p = Some v ∧ h_world h' = w ∧ frame h h' o p
      | URaise e w =>
          ∃ h', read_property o p h = Throw e h' ∧
                cachedValue h' o p = cachedValue h o p ∧ h_world h' = w ∧
                frame h h' o p
      end
  | URaise e w =>
      ∃ h', read_property o p h = Throw e h' ∧
            cachedValue h' o p = cachedValue h o p ∧ h_world h' = w ∧
            frame h h' o p
  end.
Proof.
  intros Hint.
  pose proof (read_property_frame h o p (or_intror Hint)) as Hf.
  pose proof Hint as (g & s & _ & _ & Hg & _ & (G & _ & _ & HG & _) & _).
  rewrite (read_property_intercepted h o p g G) in * by done.
  unfold start_outcome, afterGetChain, getter_of, read_chain in *.
  rewrite Hg, HG.
  destruct (read_start (h_funs h) G (h_world h)) as [v0 w0|e w].
  - destruct (forEach_thread _ v0 w0) as [v w|e w];
      (eexists; split; [reflexivity|]).
    + destruct Hf as (? & _ & _ & _ & Hv). by auto.
    + by destruct Hf as (? & _ & _ & ?).
  - eexists; split; [reflexivity|]. by destruct Hf as (? & _ & _ & ?).
Qed.

Lemma store_value_frame h o p g G v w w' :
  intercepted h o p → getter_ref h o p = Some g → h_funs h !! g = Some G →
  let h' := with_world w' (with_funs (<[g := fn_with_value v G]> (h_funs h))
                                     (with_world w h)) in
  frame h h' o p ∧ cachedValue h' o p = Some v.
Proof.
  intros Hint Hg HG h'.
  destruct (store_value_intercepted h o p g G v w Hint Hg HG)
    as (Hi & Hw & Hc & Hv).
  split; [|done].
  split; [intros Hraw; destruct (raw_not_intercepted _ _ _ Hraw Hint)|].
  split; [split; [done|intros Hw'; split; [by apply Hw|done]]|].
  split; [done|]. intros _. by apply (store_value_prior h o p g G v w).
Qed.

Lemma write_intercepted_run h o p value orig :
  write_intercepted h o p → cachedValue h o p = Some orig →
  match forEach_thread (beforeSetChain h o p) value (h_world h) with
  | URaise e w =>
      ∃ h', write_property o p value h = Throw e h' ∧
            cachedValue h' o p = Some orig ∧ h_world h' = w ∧ frame h h' o p
  | UReturn committed w =>
      if strict_eq committed orig then
        ∃ h', write_property o p value h = Ret committed h' ∧
              cachedValue h' o p = Some committed ∧ h_world h' = w ∧
              frame h h' o p
      else
        match forEach_call (afterSetChain h o p) committed w with
        | UReturn _ w' =>
            ∃ h', write_property o p value h = Ret committed h' ∧
                  cachedValue h' o p = Some committed ∧ h_world h' = w' ∧
                  frame h h' o p
        | URaise e w' =>
            ∃ h', write_property o p value h = Throw e h' ∧
                  cachedValue h' o p = Some committed ∧ h_world h' = w' ∧
                  frame h h' o p
        end
  end.
Proof.
  intros Hw Horig.
  pose proof (write_intercepted_intercepted _ _ _ Hw) as Hint.
  pose proof Hw as (g & s & _ & _ & Hg & Hs & (G & _ & _ & HG & _)
                    & (F & _ & _ & HF & _ & [b Hb] & [a Ha] & _)).
  rewrite (write_property_intercepted h o p g s G F) by done.
  unfold write_result, beforeSetChain, afterSetChain, setter_of.
  assert (fn_value G = orig) as <-.
  { unfold cachedValue, getter_of in Horig. rewrite Hg, HG in Horig.
    by injection Horig. }
  rewrite Hs, HF, Hb, Ha. cbn [default from_option id].
  destruct (forEach_thread b value (h_world h)) as [committed w|e w].
  - destruct (strict_eq committed (fn_value G)).
    + eexists; split; [reflexivity|].
      destruct (store_value_frame h o p g G committed w w Hint Hg HG)
        as (Hf & Hv).
      split; [exact Hv|split; [reflexivity|exact Hf]].
    + destruct (forEach_call a committed w) as [r w'|e w'];
        (eexists; split; [reflexivity|]);
        destruct (store_value_frame h o p g G committed w w' Hint Hg HG)
          as (Hf & Hv); (split; [exact Hv|split; [reflexivity|exact Hf]]).
  - eexists; split; [reflexivity|].
    split; [exact Horig|split; [reflexivity|apply world_frame]].
Qed.


Lemma install_reads h o p (k : Hook W) :
  intercepted h o p →
  match read_property o p h with
  | Ret v h1 =>
      ∃ r h', install o p k h = Ret r h' ∧
              cachedValue h' o p = Some v ∧ h_world h' = h_world h1
  | Throw e h1 =>
      ∃ h', install o p k h = Throw e h' ∧
            cachedValue h' o p = cachedValue h o p ∧ h_world h' = h_world h1
  end.
Proof.
  intros Hint.
  pose proof (read_property_frame h o p (or_intror Hint)) as Hread.
  assert (Hpre : ∀ body : nat → JsVal → M W JsVal,
    (let! descriptor := descriptor_for o p in
     let! value := current_value descriptor in
     body descriptor value) h =
    match read_property o p h with
    | Ret v h1 => body (length (h_descs h1)) v (stage h1 o p)
    | Throw e h1 => Throw e (stage h1 o p)
    end).
  { intros body. apply prelude_spec. by right. }
  destruct (read_property o p h) as [v h1|e h1].
  - destruct Hread as ((_ & [Hu _] & _) & _ & _ & _ & Hv).
    destruct (Hu Hint) as [Hint1 _]. specialize (Hv Hint).
    destruct (stage_frame h1 o p) as (_ & Hsw & Hsv).
    destruct k as [cb|cb|cb]; cbn [install].
    + unfold afterGet. rewrite Hpre.
      pose proof (afterGet_install_intercepted h1 o p cb v Hint1) as Hin.
      destruct (afterGet_install _ _ _ _ _ _) as [r h'|]; [|done].
      destruct Hin as (_ & _ & _ & _ & _ & _ & ? & ? & _).
      exists r, h'. split; [done|]. split; congruence.
    + unfold beforeSet. rewrite Hpre.
      pose proof (beforeSet_install_intercepted h1 o p cb v Hint1) as Hin.
      destruct (beforeSet_install _ _ _ _ _ _) as [r h'|]; [|done].
      exists r, h'. split; [done|]. destruct (is_function v).
      * destruct Hin as (_ & ->). split; congruence.
      * destruct Hin as (_ & _ & _ & _ & _ & ? & ? & _). split; congruence.
    + unfold afterSet. rewrite Hpre.
      pose proof (afterSet_install_intercepted h1 o p cb v Hint1) as Hin.
      destruct (afterSet_install _ _ _ _ _ _) as [r h'|]; [|done].
      exists r, h'. split; [done|]. destruct (is_function v).
      * destruct Hin as (_ & ->). split; congruence.
      * destruct Hin as (_ & _ & _ & _ & _ & ? & ? & _). split; congruence.
  - destruct Hread as (_ & _ & _ & Hv).
    destruct (stage_frame h1 o p) as (_ & Hsw & Hsv).
    exists (stage h1 o p).
    destruct k as [cb|cb|cb]; cbn [install];
      unfold afterGet, beforeSet, afterSet; rewrite Hpre;
      (split; [done|split; congruence]).
Qed.




(** One installing call: the state stays one the installers know, the
    accessors in place stay, and the chains grow by the hook exactly when
    the call returned the object. *)
Lemma install_step h o p (k : Hook W) :
  field_ok h o p →
  let r := install o p k h in
  let added := if returned_object r is_object then [k] else [] in
  field_ok (heap_of r) o p ∧ reused h (heap_of r) o p ∧
  afterGetChain (heap_of r) o p
    = afterGetChain h o p ++ afterGet_hooks o p added ∧
  beforeSetChain (heap_of r) o p
    = beforeSet_hooks o p added ++ beforeSetChain h o p ∧
  afterSetChain (heap_of r) o p
    = afterSetChain h o p ++ afterSet_hooks o p added.
Proof.
  intros Hok.
  assert (Hframe : ∀ h', frame h h' o p →
    field_ok h' o p ∧ reused h h' o p ∧
    afterGetChain h' o p = afterGetChain h o p ++ [] ∧
    beforeSetChain h' o p = [] ++ beforeSetChain h o p ∧
    afterSetChain h' o p = afterSetChain h o p ++ []).
  { intros h' Hf. split; [by eapply frame_field_ok|].
    destruct Hf as (_ & Hu & (Ca & Cb & Cs) & _).
    rewrite !app_nil_r. split; [exact Hu|]. split; [exact Ca|].
    split; [exact Cb|exact Cs]. }
  destruct k as [cb|cb|cb]; cbn [install].
  - pose proof (afterGet_spec h o p cb Hok) as Hspec.
    destruct (afterGet o p cb h) as [r h'|e h']; cbn; [|by apply Hframe].
    destruct Hspec as (-> & Hi & Hu & _ & Ca & Cb & Cs); cbn.
    rewrite ?app_nil_r. split; [by right|]. split; [exact Hu|].
    split; [exact Ca|]. split; [exact Cb|exact Cs].
  - pose proof (beforeSet_spec h o p cb Hok) as Hspec.
    destruct (beforeSet o p cb h) as [r h'|e h']; cbn; [|by apply Hframe].
    destruct Hspec as [[-> Hf]|(-> & Hw & Hu & Ca & Cb & Cs)]; cbn;
      [by apply Hframe|].
    rewrite ?app_nil_r.
    split; [right; by apply write_intercepted_intercepted|].
    split; [exact Hu|]. split; [exact Ca|]. split; [exact Cb|exact Cs].
  - pose proof (afterSet_spec h o p cb Hok) as Hspec.
    destruct (afterSet o p cb h) as [r h'|e h']; cbn; [|by apply Hframe].
    destruct Hspec as [[-> Hf]|(-> & Hw & Hu & Ca & Cb & Cs)]; cbn;
      [by apply Hframe|].
    rewrite ?app_nil_r.
    split; [right; by apply write_intercepted_intercepted|].
    split; [exact Hu|]. split; [exact Ca|]. split; [exact Cb|exact Cs].
Qed.

Lemma afterGet_hooks_app o p (ks1 ks2 : list (Hook W)) :
  afterGet_hooks o p (ks1 ++ ks2)
    = afterGet_hooks o p ks1 ++ afterGet_hooks o p ks2.
Proof.
  induction ks1 as [|[cb|cb|cb] ks1 IH]; cbn; [done| |done|done].
  by rewrite IH.
Qed.

Lemma beforeSet_hooks_app o p (ks1 ks2 : list (Hook W)) :
  beforeSet_hooks o p (ks1 ++ ks2)
    = beforeSet_hooks o p ks2 ++ beforeSet_hooks o p ks1.
Proof.
  induction ks1 as [|[cb|cb|cb] ks1 IH]; cbn;
    [by rewrite app_nil_r|done| |done].
  by rewrite IH, app_assoc.
Qed.

Lemma afterSet_hooks_app o p (ks1 ks2 : list (Hook W)) :
  afterSet_hooks o p (ks1 ++ ks2)
    = afterSet_hooks o p ks1 ++ afterSet_hooks o p ks2.
Proof.
  induction ks1 as [|[cb|cb|cb] ks1 IH]; cbn; [done|done|done|].
  by rewrite IH.
Qed.

Lemma install_all_spec o p (ks : list (Hook W)) h :
  field_ok h o p →
  field_ok (install_all o p ks h) o p ∧
  reused h (install_all o p ks h) o p ∧
  afterGetChain (install_all o p ks h) o p
    = afterGetChain h o p ++ afterGet_hooks o p (registered o p ks h) ∧
  beforeSetChain (install_all o p ks h) o p
    = beforeSet_hooks o p (registered o p ks h) ++ beforeSetChain h o p ∧
  afterSetChain (install_all o p ks h) o p
    = afterSetChain h o p ++ afterSet_hooks o p (registered o p ks h).
Proof.
  revert h. induction ks as [|k ks IH]; intros h Hok; cbn.
  - rewrite !app_nil_r. split; [done|]. split; [apply reused_refl|done].
  - destruct (install_step h o p k Hok) as (Hok1 & Hu1 & Hag1 & Hbs1 & Has1).
    destruct (IH _ Hok1) as (Hok2 & Hu2 & Hag2 & Hbs2 & Has2).
    split; [done|]. split; [by eapply reused_trans|].
    rewrite afterGet_hooks_app, beforeSet_hooks_app, afterSet_hooks_app.
    rewrite Hag2, Hbs2, Has2, Hag1, Hbs1, Has1.
    by rewrite !app_assoc.
Qed.

(** Reading a property whose getter is the user's runs that getter. *)
Lemma read_user_getter h o p prior :
  raw_field h o p → user_getter h o p = Some prior →
  read_property o p h = run_user (prior []) h.
Proof.
  intros Hraw Hprior. rewrite read_property_raw by done.
  unfold raw_read, user_getter in *.
  destruct (getter_ref h o p) as [g|]; [|done].
  destruct (fn_code <$> h_funs h !! g) as [[body| |]|]; congruence.
Qed.

(** An installing call on such a property runs the getter once and stores
    what it returned as the cached value; the getter becomes [oldGet]. *)
Lemma install_seeds h o p (k : Hook W) prior v w :
  raw_field h o p → user_getter h o p = Some prior →
  d_configurable (attributes h o p) = true →
  prior [] (h_world h) = UReturn v w →
  ∃ r h', install o p k h = Ret r h' ∧ h_world h' = w ∧
          (r = VObj o →
           cachedValue h' o p = Some v ∧ priorReader h' o p = Some prior).
Proof.
  intros Hraw Hprior Hcfg Hrun.
  assert (Hpre : ∀ body : nat → JsVal → M W JsVal,
    (let! descriptor := descriptor_for o p in
     let! value := current_value descriptor in
     body descriptor value) h =
    body (length (h_descs h)) v (stage (with_world w h) o p)).
  { intros body. rewrite prelude_spec by by left.
    rewrite (read_user_getter h o p prior) by done.
    unfold run_user. by rewrite Hrun. }
  assert (Hraw1 : raw_field (with_world w h) o p) by exact Hraw.
  destruct k as [cb|cb|cb]; cbn [install].
  - unfold afterGet. rewrite Hpre.
    pose proof (afterGet_install_raw (with_world w h) o p cb v Hraw1) as Hin.
    change (length (h_descs h)) with (length (h_descs (with_world w h))).
    destruct (afterGet_install _ _ _ _ _ _) as [r h'|e h'].
    + destruct Hin as (_ & _ & _ & _ & _ & _ & ? & ? & Hp).
      exists r, h'. split; [done|]. split; [done|]. intros _.
      split; [done|]. by rewrite Hp.
    + destruct Hin as (Hn & _). change (attributes _ o p) with (attributes h o p) in Hn.
      congruence.
  - unfold beforeSet. rewrite Hpre.
    pose proof (beforeSet_install_raw (with_world w h) o p cb v Hraw1) as Hin.
    change (length (h_descs h)) with (length (h_descs (with_world w h))).
    destruct (beforeSet_install _ _ _ _ _ _) as [r h'|e h'].
    + exists r, h'. split; [done|]. destruct (is_function v).
      * destruct Hin as (-> & ->). split; [done|]. intros [=].
      * destruct Hin as (_ & _ & _ & _ & _ & ? & ? & Hp).
        split; [done|]. intros _. split; [done|]. by rewrite Hp.
    + destruct Hin as (_ & Hn & _). change (attributes _ o p) with (attributes h o p) in Hn.
      congruence.
  - unfold afterSet. rewrite Hpre.
    pose proof (afterSet_install_raw (with_world w h) o p cb v Hraw1) as Hin.
    change (length (h_descs h)) with (length (h_descs (with_world w h))).
    destruct (afterSet_install _ _ _ _ _ _) as [r h'|e h'].
    + exists r, h'. split; [done|]. destruct (is_function v).
      * destruct Hin as (-> & ->). split; [done|]. intros [=].
      * destruct Hin as (_ & _ & _ & _ & _ & ? & ? & Hp).
        split; [done|]. intros _. split; [done|]. by rewrite Hp.
    + destruct Hin as (_ & Hn & _). change (attributes _ o p) with (attributes h o p) in Hn.
      congruence.
Qed.

(** A plain field: a configurable data property. *)
Lemma plain_field h o p P v0 :
  h_props h !! (o, p) = Some P → d_value P = Some v0 →
  d_get P = None → d_set P = None →
  raw_field h o p ∧ user_getter h o p = None ∧ setter_ref h o p = None ∧
  attributes h o p = P ∧
  read_property o p h = Ret v0 (with_world (h_world h) h).
Proof.
  intros HP Hv Hg Hs.
  assert (Hraw : raw_field h o p).
  { split; intros x Hx; obs; rewrite HP in Hx; cbn in Hx; congruence. }
  split; [done|]. rewrite read_property_raw by done.
  unfold run_user, raw_read. obs. rewrite HP. cbn. by rewrite Hg, Hs, Hv.
Qed.

Lemma intercepted_cached h o p :
  intercepted h o p → ∃ c, cachedValue h o p = Some c.
Proof.
  intros (g & s & _ & _ & Hg & _ & (G & _ & _ & HG & _) & _).
  exists (fn_value G). unfold cachedValue, getter_of. by rewrite Hg, HG.
Qed.

(** The value a read starts from, in terms of the cached value and of the
    getter that the engine's getter replaced. *)
Lemma start_outcome_spec h o p c :
  intercepted h o p → cachedValue h o p = Some c →
  start_outcome h o p =
    match strict_eq c VUndefined, priorReader h o p with
    | true, Some prior => prior [] (h_world h)
    | _, _ => UReturn c (h_world h)
    end.
Proof.
  intros (g & s & _ & _ & Hg & _ & (G & _ & _ & HG & _ & _ & _ & _ & Hog) & _) Hc.
  unfold start_outcome, priorReader, cachedValue, getter_of, read_start in *.
  rewrite Hg, HG in *. injection Hc as <-.
  destruct (strict_eq (fn_value G) VUndefined); [|done].
  destruct (fn_oldGet G) as [og|]; [|done].
  destruct (Hog og eq_refl) as [body ->]. done.
Qed.

(** What a write and then a read do on a property whose chains are known:
    the write, when the before-chain and the after-chain are empty, commits
    the incoming value and leaves the user's world alone. *)
Lemma pass_through_write h o p value :
  write_intercepted h o p →
  beforeSetChain h o p = [] → afterSetChain h o p = [] →
  ∃ h', write_property o p value h = Ret value h' ∧
        cachedValue h' o p = Some value ∧ h_world h' = h_world h ∧
        frame h h' o p.
Proof.
  intros Hw Hb Ha.
  destruct (intercepted_cached h o p (write_intercepted_intercepted _ _ _ Hw))
    as [orig Horig].
  pose proof (write_intercepted_run h o p value orig Hw Horig) as Hrun.
  rewrite Hb, Ha in Hrun. cbn in Hrun.
  by destruct (strict_eq value orig).
Qed.

(** *** Invariants of the engine's steps *)

Lemma triple_ret {A} (Q : A → Heap W → Prop) E a : triple (Q a) (ret a) Q E.
Proof. by intros h. Qed.

Lemma triple_bind {A B} P (m : M W A) (k : A → M W B) Q R E :
  triple P m Q E → (∀ a, triple (Q a) (k a) R E) → triple P (bind m k) R E.
Proof.
  intros Hm Hk h HP. unfold bind. specialize (Hm h HP).
  destruct (m h) as [a h'|e h']; [by apply Hk|done].
Qed.

Lemma triple_weaken {A} (P P' : Heap W → Prop) (m : M W A)
    (Q Q' : A → Heap W → Prop) (E E' : Heap W → Prop) :
  (∀ h, P' h → P h) → (∀ a h, Q a h → Q' a h) → (∀ h, E h → E' h) →
  triple P m Q E → triple P' m Q' E'.
Proof.
  intros HP HQ HE Hm h Hh. specialize (Hm h (HP h Hh)).
  destruct (m h); eauto.
Qed.

Section Invariant.

Variables (I E : Heap W → Prop).
Hypothesis HI : closed I E.

Lemma keeps_ret {A} (a : A) : keeps I E (ret a).
Proof. by intros h. Qed.

Lemma keeps_throw {A} e : keeps I E (throw e : M W A).
Proof. destruct HI as (HE & _). intros h Hh. by apply HE. Qed.

Lemma keeps_bind {A B} (m : M W A) (k : A → M W B) :
  keeps I E m → (∀ a, keeps I E (k a)) → keeps I E (bind m k).
Proof. intros Hm Hk. by eapply triple_bind. Qed.

Lemma keeps_defined {A} (x : option A) : keeps I E (defined x).
Proof. destruct x; [apply keeps_ret|apply keeps_throw]. Qed.

Lemma keeps_run_user f : keeps I E (run_user f).
Proof.
  destruct HI as (HE & Hw & _). intros h Hh. unfold run_user.
  destruct (f (h_world h)); [by apply Hw|]. apply HE. by apply Hw.
Qed.

Lemma keeps_read_desc d : keeps I E (read_desc d).
Proof. intros h Hh. unfold read_desc. by apply keeps_defined. Qed.

Lemma keeps_read_fun f : keeps I E (read_fun f).
Proof. intros h Hh. unfold read_fun. by apply keeps_defined. Qed.

Lemma keeps_new_desc D : keeps I E (new_desc D).
Proof. destruct HI as (_ & _ & _ & Ha & _). intros h Hh. by apply Ha. Qed.

Lemma keeps_new_fun F : keeps I E (new_fun F).
Proof. destruct HI as (_ & _ & Hf & _). intros h Hh. by apply Hf. Qed.

Lemma keeps_write_fun f upd : keeps I E (write_fun f upd).
Proof.
  destruct HI as (HE & _ & Hf & _). intros h Hh.
  unfold write_fun, bind, read_fun, defined.
  destruct (h_funs h !! f); cbn; [by apply Hf|by apply HE].
Qed.

Lemma keeps_write_desc d upd :
  keeps_flags upd → keeps I E (write_desc d upd).
Proof.
  destruct HI as (HE & _ & _ & _ & Hd). intros Hupd h Hh.
  unfold write_desc, bind, read_desc, defined.
  destruct (h_descs h !! d) eqn:HD; cbn; [by eapply Hd|by apply HE].
Qed.

(** One step of a proof that a computation keeps the invariant. *)
Ltac keeps_step :=
  first
  [ apply keeps_ret | apply keeps_throw | apply keeps_defined
  | apply keeps_run_user | apply keeps_read_desc | apply keeps_read_fun
  | apply keeps_new_desc | apply keeps_new_fun | apply keeps_write_fun
  | apply keeps_write_desc; by intros []
  | assumption
  | match goal with
    | H : ∀ _, keeps _ _ _ |- _ => apply H
    | H : ∀ _ _, keeps _ _ _ |- _ => apply H
    end
  | apply keeps_bind; [|intros ?]
  | match goal with
    | |- keeps _ _ (match ?x with _ => _ end) => destruct x
    end ].

Lemma keeps_call f args : keeps I E (call f args).
Proof. unfold call, get, set, call_user. cbv zeta. repeat keeps_step. Qed.

Lemma keeps_current_value d : keeps I E (current_value d).
Proof. unfold current_value. repeat keeps_step. Qed.

Lemma keeps_configure_get d value after :
  keeps I E (configure_get d value after).
Proof. unfold configure_get. cbv zeta. repeat keeps_step. Qed.

Lemma keeps_configure_set d before after :
  keeps I E (configure_set d before after).
Proof. unfold configure_set. repeat keeps_step. Qed.

Lemma keeps_wrap_set d before after : keeps I E (wrap_set d before after).
Proof. unfold wrap_set, configure_set. cbv zeta. repeat keeps_step. Qed.

Lemma keeps_ensure_get d value : keeps I E (ensure_get d value).
Proof. unfold ensure_get, configure_get. cbv zeta. repeat keeps_step. Qed.

Lemma keeps_ensure_set d : keeps I E (ensure_set d).
Proof. unfold ensure_set, configure_set. repeat keeps_step. Qed.

(** The steps of an installer before [delete descriptor.value] keep the
    invariant; what holds after the installer is what its last three
    statements establish. *)
Ltac keeps_then :=
  eapply (triple_bind _ _ _ (λ _, I));
  [match goal with |- triple _ ?m _ _ => change (keeps I E m) end;
   repeat keeps_step
  |intros ?].

Lemma afterGet_install_triple o p cb d v (Q : JsVal → Heap W → Prop) :
  triple I (write_desc d desc_delete_data ;;!
            defineProperty o p d ;;! ret (VObj o)) Q E →
  triple I (afterGet_install o p cb d v) Q E.
Proof.
  intros Htail. unfold afterGet_install, ensure_set, configure_get,
    configure_set. cbv zeta.
  do 3 keeps_then. exact Htail.
Qed.

Lemma beforeSet_install_triple o p cb d v (Q : JsVal → Heap W → Prop) :
  (∀ h, I h → Q (VBool false) h) →
  triple I (write_desc d desc_delete_data ;;!
            defineProperty o p d ;;! ret (VObj o)) Q E →
  triple I (beforeSet_install o p cb d v) Q E.
Proof.
  intros Hfalse Htail. unfold beforeSet_install, ensure_get, ensure_set,
    wrap_set, configure_get, configure_set. cbv zeta.
  destruct (is_function v); [intros h Hh; by apply Hfalse|].
  do 6 keeps_then. exact Htail.
Qed.

Lemma afterSet_install_triple o p cb d v (Q : JsVal → Heap W → Prop) :
  (∀ h, I h → Q (VBool false) h) →
  triple I (write_desc d desc_delete_data ;;!
            defineProperty o p d ;;! ret (VObj o)) Q E →
  triple I (afterSet_install o p cb d v) Q E.
Proof.
  intros Hfalse Htail. unfold afterSet_install, ensure_get, ensure_set,
    wrap_set, configure_get, configure_set. cbv zeta.
  destruct (is_function v); [intros h Hh; by apply Hfalse|].
  do 6 keeps_then. exact Htail.
Qed.

End Invariant.

Lemma closed_props ps : closed (W:=W) (props_are ps) (props_are ps).
Proof. unfold closed, props_are. by repeat split. Qed.

Lemma closed_descriptor ps o p d :
  closed (W:=W) (descriptor_kept ps o p d) (props_are ps).
Proof.
  unfold closed, descriptor_kept, props_are.
  split; [by intros h [? _]|]. split; [done|]. split; [done|]. split.
  - intros h D (? & D0 & HD & ?). split; [done|]. exists D0.
    split; [|done]. cbn. by apply lookup_app_l_Some.
  - intros h d' D upd Hupd HD' (? & D0 & HD & He & Hc). split; [done|]. cbn.
    destruct (decide (d' = d)) as [->|Hne].
    + exists (upd D).
      rewrite list_lookup_insert_eq by (by eapply lookup_lt_Some).
      assert (D = D0) as -> by congruence.
      destruct (Hupd D0) as [-> ->]. done.
    + exists D0. by rewrite list_lookup_insert_ne.
Qed.

Lemma descriptor_for_kept ps o p :
  triple (W:=W) (props_are ps) (descriptor_for o p)
         (λ d, descriptor_kept ps o p d) (props_are ps).
Proof.
  intros h <-. unfold descriptor_for, getOwnPropertyDescriptor, descriptor_kept.
  heap_cbn. destruct (h_props h !! (o, p)) as [P|]; heap_cbn.
  - split; [done|]. exists P. by rewrite lookup_snoc_here.
  - split; [done|]. exists fresh_descriptor. by rewrite lookup_snoc_here.
Qed.

Lemma install_tail ps o p d :
  triple (W:=W) (descriptor_kept ps o p d)
    (write_desc d desc_delete_data ;;! defineProperty o p d ;;! ret (VObj o))
    (λ r h, r = VObj o ∧ redefined ps o p h) (props_are ps).
Proof.
  intros h (<- & D & HD & He & Hc). unfold defineProperty, redefined, props_are.
  run. destruct (h_props h !! (o, p)) as [P|] eqn:HP; run.
  - destruct (d_configurable P) eqn:Ecfg; run.
    + split; [done|]. split; [intros k Hk; by rewrite lookup_insert_ne|].
      eexists. split; [reflexivity|by heap_cbn].
    + case_bool_decide as Hsame; run; [|done].
      split; [done|]. split; [done|]. exists P.
      destruct Hsame as (? & _). by rewrite Ecfg.
  - split; [done|]. split; [intros k Hk; by rewrite lookup_insert_ne|].
    eexists. split; [reflexivity|by heap_cbn].
Qed.

(** What an installing call does to the property table, from any heap. *)
Lemma install_props h o p (k : Hook W) :
  match install o p k h with
  | Ret r h' =>
      (r = VBool false ∧ h_props h' = h_props h) ∨
      (r = VObj o ∧ redefined (h_props h) o p h')
  | Throw _ h' => h_props h' = h_props h
  end.
Proof.
  assert (Hpre : ∀ body : nat → JsVal → M W JsVal,
    (∀ d v, triple (descriptor_kept (h_props h) o p d) (body d v)
              (λ r h', (r = VBool false ∧ h_props h' = h_props h) ∨
                       (r = VObj o ∧ redefined (h_props h) o p h'))
              (props_are (h_props h))) →
    triple (props_are (h_props h))
      (let! descriptor := descriptor_for o p in
       let! value := current_value descriptor in
       body descriptor value)
      (λ r h', (r = VBool false ∧ h_props h' = h_props h) ∨
               (r = VObj o ∧ redefined (h_props h) o p h'))
      (props_are (h_props h))).
  { intros body Hbody.
    eapply triple_bind; [apply descriptor_for_kept|intros d].
    eapply triple_bind; [|intros v; apply Hbody].
    apply keeps_current_value, closed_descriptor. }
  assert (Htail : ∀ d,
    triple (descriptor_kept (h_props h) o p d)
      (write_desc d desc_delete_data ;;! defineProperty o p d ;;! ret (VObj o))
      (λ r h', (r = VBool false ∧ h_props h' = h_props h) ∨
               (r = VObj o ∧ redefined (h_props h) o p h'))
      (props_are (h_props h))).
  { intros d. eapply triple_weaken; [| | |apply install_tail];
      [done|by intros r h' [? ?]; right|done]. }
  destruct k as [cb|cb|cb]; cbn [install].
  - apply (Hpre (afterGet_install o p cb)); [|done]. intros d v.
    eapply afterGet_install_triple; [apply closed_descriptor|apply Htail].
  - apply (Hpre (beforeSet_install o p cb)); [|done]. intros d v.
    eapply beforeSet_install_triple;
      [apply closed_descriptor|by intros h' [? _]; left|apply Htail].
  - apply (Hpre (afterSet_install o p cb)); [|done]. intros d v.
    eapply afterSet_install_triple;
      [apply closed_descriptor|by intros h' [? _]; left|apply Htail].
Qed.


(** *** Operations in any order *)

Lemma read_property_props h o p :
  h_props (heap_of (read_property o p h)) = h_props h.
Proof.
  unfold read_property. destruct (h_props h !! (o, p)) as [P|]; [|done].
  destruct (d_get P) as [g|]; [|done].
  pose proof (keeps_call _ _ (closed_props (h_props h)) g [] h eq_refl) as Hk.
  by destruct (call g [] h).
Qed.

Lemma write_property_props h o p value key :
  key ≠ (o, p) →
  h_props (heap_of (write_property o p value h)) !! key = h_props h !! key.
Proof.
  intros Hk. unfold write_property.
  destruct (h_props h !! (o, p)) as [P|]; cbn;
    [|by rewrite lookup_insert_ne].
  destruct (d_set P) as [s|].
  - pose proof (keeps_call _ _ (closed_props (h_props h)) s [value] h eq_refl)
      as Hs.
    unfold props_are in Hs. destruct (call s [value] h); cbn; by rewrite Hs.
  - destruct (d_get P), (d_writable P) as [[]|]; cbn; try done;
      by rewrite lookup_insert_ne.
Qed.

Lemma install_outside h o p (k : Hook W) key :
  key ≠ (o, p) →
  h_props (heap_of (install o p k h)) !! key = h_props h !! key.
Proof.
  intros Hk. pose proof (install_props h o p k) as Hp.
  destruct (install o p k h) as [r h'|e h']; cbn; [|by rewrite Hp].
  destruct Hp as [[_ ->]|[_ [Hout _]]]; [done|by apply Hout].
Qed.

Lemma perform_outside h o p (a : Op W) key :
  key ≠ (o, p) → h_props (perform o p a h) !! key = h_props h !! key.
Proof.
  intros Hk. destruct a as [k| |value]; cbn.
  - by apply install_outside.
  - by rewrite read_property_props.
  - by apply write_property_props.
Qed.

Lemma write_property_frame h o p value :
  field_ok h o p → frame h (heap_of (write_property o p value h)) o p.
Proof.
  intros [Hraw|Hint].
  - apply raw_frame; [done|]. destruct Hraw as [Hg Hs].
    unfold write_property, call. obs.
    destruct (h_props h !! (o, p)) as [P|] eqn:HP; run.
    + destruct (d_get P) as [gu|] eqn:Eg; destruct (d_set P) as [su|] eqn:Es;
        user_funs; run; try split_user; cbn [heap_of];
        try (destruct (d_writable P) as [[]|]; cbn [heap_of]); leaf.
    + cbn [heap_of]. leaf.
  - pose proof Hint as (g & s & HP & Hcfg & Hg & Hs & Heg & [[body Hb]|Hes]).
    + assert (write_property o p value h = run_user (body [value]) h) as ->.
      { destruct HP as [P HP].
        unfold write_property, call. obs. rewrite HP in *. by run. }
      unfold run_user. destruct (body [value] (h_world h)); apply world_frame.
    + assert (Hw : write_intercepted h o p).
      { exact (ex_intro _ g (ex_intro _ s
          (conj HP (conj Hcfg (conj Hg (conj Hs (conj Heg Hes))))))). }
      destruct (intercepted_cached h o p Hint) as [orig Horig].
      pose proof (write_intercepted_run h o p value orig Hw Horig) as Hrun.
      destruct (forEach_thread _ value _) as [committed w|e w].
      * destruct (strict_eq committed orig).
        -- by destruct Hrun as (h' & -> & _ & _ & Hf).
        -- destruct (forEach_call _ committed w);
             by destruct Hrun as (h' & -> & _ & _ & Hf).
      * by destruct Hrun as (h' & -> & _ & _ & Hf).
Qed.

Lemma perform_step h o p (a : Op W) :
  field_ok h o p →
  let added :=
    match a with
    | Install k =>
        if returned_object (install o p k h) is_object then [k] else []
    | _ => []
    end in
  field_ok (perform o p a h) o p ∧ reused h (perform o p a h) o p ∧
  afterGetChain (perform o p a h) o p
    = afterGetChain h o p ++ afterGet_hooks o p added ∧
  beforeSetChain (perform o p a h) o p
    = beforeSet_hooks o p added ++ beforeSetChain h o p ∧
  afterSetChain (perform o p a h) o p
    = afterSetChain h o p ++ afterSet_hooks o p added.
Proof.
  intros Hok.
  assert (Hframe : ∀ h', frame h h' o p →
    field_ok h' o p ∧ reused h h' o p ∧
    afterGetChain h' o p = afterGetChain h o p ++ [] ∧
    beforeSetChain h' o p = [] ++ beforeSetChain h o p ∧
    afterSetChain h' o p = afterSetChain h o p ++ []).
  { intros h' Hf. split; [by eapply frame_field_ok|].
    destruct Hf as (_ & Hu & (Ca & Cb & Cs) & _).
    rewrite !app_nil_r. split; [exact Hu|]. split; [exact Ca|].
    split; [exact Cb|exact Cs]. }
  destruct a as [k| |value]; cbn.
  - by apply install_step.
  - apply Hframe. pose proof (read_property_frame h o p Hok) as Hread.
    by destruct (read_property o p h); destruct Hread as [? _].
  - apply Hframe. by apply write_property_frame.
Qed.

(** *** A setter of the user's *)

Lemma afterGet_install_setter h o p cb v :
  raw_field h o p → is_Some (setter_ref h o p) →
  match afterGet_install o p cb (length (h_descs h)) v (stage h o p) with
  | Ret r h' =>
      setter_ref h' o p = setter_ref h o p ∧
      user_setter h' o p = user_setter h o p
  | Throw e h' => True
  end.
Proof.
  intros [Hg Hs] [su Hsu].
  unfold afterGet_install, ensure_set, configure_get, configure_set, defineProperty.
  unfold user_setter. obs.
  destruct (h_props h !! (o, p)) as [P|] eqn:HP; run; [|done].
  destruct (d_get P) as [gu|] eqn:Eg; destruct (d_set P) as [su'|] eqn:Es;
    destruct (d_configurable P) eqn:Ec; user_funs; run;
    try refuse; run; simplify_eq; run; done.
Qed.

(** The case analysis of an installer on a property in either state, up to
    the fact about the setter that is left to show. *)
Ltac wraps Hok :=
  unfold ensure_get, ensure_set, wrap_set, configure_get, configure_set,
    defineProperty, user_setter, priorWriter;
  let Hg := fresh "Hg" in let Hs := fresh "Hs" in let Hi := fresh "Hi" in
  destruct Hok as [[Hg Hs]|Hi];
  [obs;
   match goal with
   | |- context [h_props ?h !! (?o, ?p)] =>
       let P := fresh "P" in
       destruct (h_props h !! (o, p)) as [P|] eqn:?HP; run;
       [destruct (d_get P) eqn:?Eg; destruct (d_set P) eqn:?Es;
        destruct (d_configurable P) eqn:?Ec; user_funs; run;
        try refuse; run; try done
       |]
   end
  |open_intercepted Hi; run;
   match goal with Hset : _ ∨ _ |- _ => open_setter Hset end; run];
  let us := fresh "us" in let E := fresh in
  intros us E; simplify_eq; run; done.

Lemma beforeSet_install_wraps h o p cb v :
  field_ok h o p → is_function v = false →
  match beforeSet_install o p cb (length (h_descs h)) v (stage h o p) with
  | Ret r h' =>
      ∀ us, user_setter h o p = Some us →
            priorWriter h' o p = Some us ∧ user_setter h' o p = None
  | Throw e h' => True
  end.
Proof. intros Hok Ef. unfold beforeSet_install. rewrite Ef. wraps Hok. Qed.

Lemma afterSet_install_wraps h o p cb v :
  field_ok h o p → is_function v = false →
  match afterSet_install o p cb (length (h_descs h)) v (stage h o p) with
  | Ret r h' =>
      ∀ us, user_setter h o p = Some us →
            priorWriter h' o p = Some us ∧ user_setter h' o p = None
  | Throw e h' => True
  end.
Proof. intros Hok Ef. unfold afterSet_install. rewrite Ef. wraps Hok. Qed.

(** *** A property that is not configurable *)





(** *** Further facts about installs, reads and writes *)

Lemma install_prelude h o p (k : Hook W) :
  field_ok h o p →
  install o p k h =
    match read_property o p h with
    | Ret v h1 =>
        match k with
        | AfterGet cb =>
            afterGet_install o p cb (length (h_descs h1)) v (stage h1 o p)
        | BeforeSet cb =>
            beforeSet_install o p cb (length (h_descs h1)) v (stage h1 o p)
        | AfterSet cb =>
            afterSet_install o p cb (length (h_descs h1)) v (stage h1 o p)
        end
    | Throw e h1 => Throw e (stage h1 o p)
    end.
Proof.
  intros Hok. destruct k as [cb|cb|cb]; cbn [install];
    unfold afterGet, beforeSet, afterSet; rewrite prelude_spec by done;
    by destruct (read_property o p h).
Qed.

Lemma write_user_setter h o p us value :
  user_setter h o p = Some us →
  write_property o p value h = run_user (us [value]) h.
Proof.
  unfold user_setter, setter_ref, attributes, write_property, call.
  destruct (h_props h !! (o, p)) as [P|]; cbn; [|done].
  destruct (d_set P) as [s|]; [|done].
  unfold bind, read_fun, defined.
  destruct (h_funs h !! s) as [F|]; cbn; [|done].
  destruct (fn_code F); intros; by simplify_eq.
Qed.

Lemma write_returns h o p value c h1 :
  write_intercepted h o p → write_property o p value h = Ret c h1 →
  cachedValue h1 o p = Some c ∧ frame h h1 o p.
Proof.
  intros Hw Hwrite.
  destruct (intercepted_cached h o p (write_intercepted_intercepted _ _ _ Hw))
    as [orig Horig].
  pose proof (write_intercepted_run h o p value orig Hw Horig) as Hrun.
  destruct (forEach_thread _ value _) as [committed w|e w].
  - destruct (strict_eq committed orig).
    + destruct Hrun as (h' & E & ? & _ & ?). rewrite E in Hwrite.
      by simplify_eq.
    + destruct (forEach_call _ committed w);
        destruct Hrun as (h' & E & ? & _ & ?); rewrite E in Hwrite;
        by simplify_eq.
  - destruct Hrun as (h' & E & _). rewrite E in Hwrite. by simplify_eq.
Qed.

Lemma user_setter_chains h o p us :
  field_ok h o p → user_setter h o p = Some us →
  beforeSetChain h o p = [] ∧ afterSetChain h o p = [].
Proof.
  unfold user_setter. intros [[_ Hs]|Hint] Hus.
  - obs. destruct (d_set _) as [s|]; [|done].
    destruct (Hs s eq_refl) as [body Hbody]. by rewrite Hbody.
  - destruct Hint as (g & s & _ & _ & _ & Hs & _ & [[body Hb]|Hes]).
    + obs. rewrite Hs. by rewrite Hb.
    + destruct Hes as (F & d & D & HF & Hc & _). rewrite Hs in Hus.
      rewrite HF in Hus. cbn in Hus. by rewrite Hc in Hus.
Qed.

Lemma read_keeps_user_setter h o p v h1 us :
  field_ok h o p → read_property o p h = Ret v h1 →
  user_setter h o p = Some us → user_setter h1 o p = Some us.
Proof.
  intros [Hraw|Hint] Hread Hus.
  - rewrite read_property_raw in Hread by done. unfold run_user in Hread.
    destruct (raw_read h o p (h_world h)); by simplify_eq.
  - pose proof Hint as (g & s & _ & _ & Hg & Hs & (G & d & D & HG & Hc & _) & _).
    rewrite (read_property_intercepted h o p g G) in Hread by done.
    destruct (read_chain _ _ _) as [v' w|e w]; [|done]. simplify_eq.
    unfold user_setter in *. change (setter_ref _ o p) with (setter_ref h o p).
    rewrite Hs in *. cbn [h_funs with_funs with_world].
    rewrite list_lookup_insert_ne; [done|].
    intros <-. rewrite HG in Hus. cbn in Hus. by rewrite Hc in Hus.
Qed.

(** *** Two properties *)

(** Closing [updates] for an explicit final heap. *)
Ltac updated :=
  unfold updates, outside; obs; run; cbn [heap_of]; run;
  split; [rewrite ?length_app, ?length_insert; cbn [length]; lia|];
  split; [intros ?d ?D ?HD; run; done|];
  split; [intros ?f ?F ?HF [[?b ?Hb]|[?Hng ?Hns]]; run; congruence|];
  split; intros ?f ?E; simplify_eq; rewrite ?length_app; cbn [length];
    first [by left|right; lia].

Lemma afterGet_install_raw_updates h o p cb v :
  raw_field h o p →
  updates h (heap_of (afterGet_install o p cb (length (h_descs h)) v
                        (stage h o p))) o p.
Proof.
  intros [Hg Hs].
  unfold afterGet_install, ensure_set, configure_get, configure_set, defineProperty.
  unfold updates, outside. obs.
  destruct (h_props h !! (o, p)) as [P|] eqn:HP; run.
  - destruct (d_get P) as [gu|] eqn:Eg; destruct (d_set P) as [su|] eqn:Es;
      destruct (d_configurable P) eqn:Ec; user_funs; run;
      try refuse; run; updated.
  - updated.
Qed.

Lemma beforeSet_install_raw_updates h o p cb v :
  raw_field h o p →
  updates h (heap_of (beforeSet_install o p cb (length (h_descs h)) v
                        (stage h o p))) o p.
Proof.
  intros [Hg Hs].
  unfold beforeSet_install, ensure_get, ensure_set, wrap_set, configure_get,
    configure_set, defineProperty.
  destruct (is_function v) eqn:Ef; [updated|].
  unfold updates, outside. obs.
  destruct (h_props h !! (o, p)) as [P|] eqn:HP; run.
  - destruct (d_get P) as [gu|] eqn:Eg; destruct (d_set P) as [su|] eqn:Es;
      destruct (d_configurable P) eqn:Ec; user_funs; run;
      try refuse; run; updated.
  - updated.
Qed.

Lemma afterSet_install_raw_updates h o p cb v :
  raw_field h o p →
  updates h (heap_of (afterSet_install o p cb (length (h_descs h)) v
                        (stage h o p))) o p.
Proof.
  intros [Hg Hs].
  unfold afterSet_install, ensure_get, ensure_set, wrap_set, configure_get,
    configure_set, defineProperty.
  destruct (is_function v) eqn:Ef; [updated|].
  unfold updates, outside. obs.
  destruct (h_props h !! (o, p)) as [P|] eqn:HP; run.
  - destruct (d_get P) as [gu|] eqn:Eg; destruct (d_set P) as [su|] eqn:Es;
      destruct (d_configurable P) eqn:Ec; user_funs; run;
      try refuse; run; updated.
  - updated.
Qed.

Lemma afterGet_install_intercepted_updates h o p cb v :
  intercepted h o p →
  updates h (heap_of (afterGet_install o p cb (length (h_descs h)) v
                        (stage h o p))) o p.
Proof.
  intros Hint.
  unfold afterGet_install, ensure_set, configure_get, configure_set, defineProperty.
  unfold updates, outside.
  open_intercepted Hint; run; open_setter Hset; run; updated.
Qed.

Lemma beforeSet_install_intercepted_updates h o p cb v :
  intercepted h o p →
  updates h (heap_of (beforeSet_install o p cb (length (h_descs h)) v
                        (stage h o p))) o p.
Proof.
  intros Hint.
  unfold beforeSet_install, ensure_get, ensure_set, wrap_set, configure_get,
    configure_set, defineProperty.
  destruct (is_function v) eqn:Ef; [updated|].
  unfold updates, outside.
  open_intercepted Hint; run; open_setter Hset; run; updated.
Qed.

Lemma afterSet_install_intercepted_updates h o p cb v :
  intercepted h o p →
  updates h (heap_of (afterSet_install o p cb (length (h_descs h)) v
                        (stage h o p))) o p.
Proof.
  intros Hint.
  unfold afterSet_install, ensure_get, ensure_set, wrap_set, configure_get,
    configure_set, defineProperty.
  destruct (is_function v) eqn:Ef; [updated|].
  unfold updates, outside.
  open_intercepted Hint; run; open_setter Hset; run; updated.
Qed.

Lemma updates_trans h1 h2 h3 o p :
  updates h1 h2 o p → updates h2 h3 o p → updates h1 h3 o p.
Proof.
  intros (Hl & Hd & Hf & Hg & Hs) (Hl' & Hd' & Hf' & Hg' & Hs').
  split; [lia|]. split; [by eauto|]. split; [|split].
  - intros f F HF Hout. apply Hf'; [by apply Hf|].
    pose proof (lookup_lt_Some _ _ _ HF) as Hlt.
    destruct Hout as [[body Hb]|[Hng Hns]].
    + left. exists body. apply Hf; [done|]. left. by exists body.
    + right. split.
      * intros E. destruct (Hg f E) as [?|?]; [done|lia].
      * intros E. destruct (Hs f E) as [?|?]; [done|lia].
  - intros f E. destruct (Hg' f E) as [E'|?]; [|right; lia].
    destruct (Hg f E') as [?|?]; [by left|by right].
  - intros f E. destruct (Hs' f E) as [E'|?]; [|right; lia].
    destruct (Hs f E') as [?|?]; [by left|by right].
Qed.

Lemma updates_world h w o p : updates h (with_world w h) o p.
Proof. unfold updates. split; [done|]. split; [done|]. by eauto. Qed.

Lemma updates_stage h o p : updates h (stage h o p) o p.
Proof. updated. Qed.

Lemma store_value_updates h o p g G v w :
  intercepted h o p → getter_ref h o p = Some g → h_funs h !! g = Some G →
  updates h (with_funs (<[g := fn_with_value v G]> (h_funs h))
                       (with_world w h)) o p.
Proof.
  intros (g' & s & _ & _ & Hg' & _ & (G' & d & D & HG & Hc & _) & _) Hg HG'.
  assert (g' = g) as -> by congruence.
  unfold updates, outside. cbn [h_funs h_descs with_funs with_world].
  split; [by rewrite length_insert|]. split; [done|]. split; [|by eauto].
  intros f F HF [[body Hb]|[Hng _]];
    (rewrite list_lookup_insert_ne; [done|]); intros <-; simplify_eq/=.
Qed.

Lemma read_property_updates h o p :
  field_ok h o p → updates h (heap_of (read_property o p h)) o p.
Proof.
  intros [Hraw|Hint].
  - rewrite read_property_raw by done. unfold run_user.
    destruct (raw_read h o p (h_world h)); apply updates_world.
  - pose proof Hint as (g & s & _ & _ & Hg & _ & (G & d & D & HG & _) & _).
    rewrite (read_property_intercepted h o p g G) by done.
    destruct (read_chain _ _ _); cbn [heap_of];
      [by apply store_value_updates|apply updates_world].
Qed.

Lemma write_property_updates h o p value :
  field_ok h o p → updates h (heap_of (write_property o p value h)) o p.
Proof.
  intros [Hraw|Hint].
  - destruct Hraw as [Hg Hs]. unfold write_property, call. obs.
    destruct (h_props h !! (o, p)) as [P|] eqn:HP; run.
    + destruct (d_get P) as [gu|] eqn:Eg; destruct (d_set P) as [su|] eqn:Es;
        user_funs; run; try split_user; cbn [heap_of];
        try (destruct (d_writable P) as [[]|]; cbn [heap_of]); updated.
    + cbn [heap_of]. updated.
  - pose proof Hint as (g & s & HP & Hcfg & Hg & Hs & Heg & [[body Hb]|Hes]).
    + assert (write_property o p value h = run_user (body [value]) h) as ->.
      { destruct HP as [P HP].
        unfold write_property, call. obs. rewrite HP in *. by run. }
      unfold run_user. destruct (body [value] (h_world h)); apply updates_world.
    + assert (Hw : write_intercepted h o p).
      { exact (ex_intro _ g (ex_intro _ s
          (conj HP (conj Hcfg (conj Hg (conj Hs (conj Heg Hes))))))). }
      destruct Heg as (G & d & D & HG & _).
      destruct Hes as (F & d' & D' & HF & _).
      rewrite (write_property_intercepted h o p g s G F) by done.
      unfold write_result.
      destruct (forEach_thread _ value _) as [committed w|e w];
        [|apply updates_world].
      pose proof (store_value_updates h o p g G committed w Hint Hg HG) as Hu.
      destruct (strict_eq committed (fn_value G)); [done|].
      destruct (forEach_call _ committed w); cbn [heap_of];
        (eapply updates_trans; [exact Hu|apply updates_world]).
Qed.

Lemma install_updates h o p (k : Hook W) :
  field_ok h o p → updates h (heap_of (install o p k h)) o p.
Proof.
  intros Hok. rewrite install_prelude by done.
  pose proof (read_property_updates h o p Hok) as Hu.
  pose proof (read_property_frame h o p Hok) as Hframe.
  destruct (read_property o p h) as [v h1|e h1]; cbn [heap_of] in *.
  2:{ eapply updates_trans; [exact Hu|apply updates_stage]. }
  destruct Hframe as (Hf & _). eapply updates_trans; [exact Hu|].
  destruct (frame_field_ok _ _ _ _ Hf Hok) as [Hraw1|Hint1];
    destruct k as [cb|cb|cb].
  - by apply afterGet_install_raw_updates.
  - by apply beforeSet_install_raw_updates.
  - by apply afterSet_install_raw_updates.
  - by apply afterGet_install_intercepted_updates.
  - by apply beforeSet_install_intercepted_updates.
  - by apply afterSet_install_intercepted_updates.
Qed.

Lemma perform_updates h o p (a : Op W) :
  field_ok h o p → updates h (perform o p a h) o p.
Proof.
  intros Hok. destruct a as [k| |value]; cbn [perform].
  - by apply install_updates.
  - by apply read_property_updates.
  - by apply write_property_updates.
Qed.

(** The accessors of a property in one of the states that the installers
    meet are function objects of the heap. *)
Lemma field_ok_accessors h o p f :
  field_ok h o p →
  getter_ref h o p = Some f ∨ setter_ref h o p = Some f →
  is_Some (h_funs h !! f).
Proof.
  intros [[Hg Hs]|Hint] Hf.
  - destruct Hf as [E|E]; [destruct (Hg f E) as [b ->]|destruct (Hs f E) as [b ->]];
      by eexists.
  - destruct Hint as (g & s & _ & _ & Hg & Hs & (G & _ & _ & HG & _) & Hset).
    destruct Hf as [E|E].
    + assert (f = g) as -> by congruence. by eexists.
    + assert (f = s) as -> by congruence.
      destruct Hset as [[b ->]|(F & _ & _ & -> & _)]; by eexists.
Qed.

Lemma updates_frame h h' o p o2 p2 :
  field_ok h o2 p2 → independent h o p o2 p2 →
  h_props h' !! (o2, p2) = h_props h !! (o2, p2) →
  updates h h' o p →
  frame h h' o2 p2 ∧ cachedValue h' o2 p2 = cachedValue h o2 p2 ∧
  independent h' o p o2 p2.
Proof.
  intros Hok Hind Hprops (Hl & Hd & Hf & Hg & Hs).
  assert (Hattr : attributes h' o2 p2 = attributes h o2 p2)
    by (unfold attributes; by rewrite Hprops).
  assert (Hgr : getter_ref h' o2 p2 = getter_ref h o2 p2)
    by (unfold getter_ref; by rewrite Hattr).
  assert (Hsr : setter_ref h' o2 p2 = setter_ref h o2 p2)
    by (unfold setter_ref; by rewrite Hattr).
  assert (Huser : ∀ f, user_fun (h_funs h) f → user_fun (h_funs h') f).
  { intros f [body Hb]. exists body. apply Hf; [done|]. left. by exists body. }
  assert (Hacc : ∀ f,
    getter_ref h o2 p2 = Some f ∨ setter_ref h o2 p2 = Some f →
    h_funs h' !! f = h_funs h !! f).
  { intros f Hacc. destruct (field_ok_accessors h o2 p2 f Hok Hacc) as [F HF].
    rewrite HF. apply Hf; [done|]. by apply Hind. }
  assert (Hgo : getter_of h' o2 p2 = getter_of h o2 p2).
  { unfold getter_of. rewrite Hgr.
    destruct (getter_ref h o2 p2) as [g|] eqn:E; [|done]. apply Hacc. by left. }
  assert (Hso : setter_of h' o2 p2 = setter_of h o2 p2).
  { unfold setter_of. rewrite Hsr.
    destruct (setter_ref h o2 p2) as [s|] eqn:E; [|done]. apply Hacc. by right. }
  assert (Hchains : same_chains h h' o2 p2).
  { unfold same_chains, afterGetChain, beforeSetChain, afterSetChain.
    by rewrite Hgo, Hso. }
  assert (Hraw : raw_field h o2 p2 → raw_field h' o2 p2).
  { intros [Hg' Hs']. split; intros f E; apply Huser.
    - apply Hg'. congruence.
    - apply Hs'. congruence. }
  assert (Heg : ∀ g, engine_getter h g →
            h_funs h' !! g = h_funs h !! g → engine_getter h' g).
  { intros g (G & d & D & HG & Hc & Ha & HD & HDg & Hog) E.
    exists G, d, D. rewrite E. repeat split; try done; [by apply Hd|].
    intros og Eog. by apply Huser, Hog. }
  assert (Hes : ∀ g s, engine_setter h g s →
            h_funs h' !! s = h_funs h !! s → engine_setter h' g s).
  { intros g s (F & d & D & HF & Hc & Hb & Ha & HD & HDg & HDs) E.
    exists F, d, D. rewrite E. repeat split; try done. by apply Hd. }
  assert (Hint : intercepted h o2 p2 → intercepted h' o2 p2).
  { intros (g & s & HP & Hcfg & Hg' & Hs' & Heg' & Hset).
    exists g, s. rewrite Hprops, Hattr, Hgr, Hsr.
    split; [done|]. split; [done|]. split; [done|]. split; [done|].
    split; [apply Heg; [done|apply Hacc; by left]|].
    destruct Hset as [Hu|He]; [left; by apply Huser|right].
    apply Hes; [done|apply Hacc; by right]. }
  assert (Hwint : write_intercepted h o2 p2 → write_intercepted h' o2 p2).
  { intros (g & s & HP & Hcfg & Hg' & Hs' & Heg' & Hset).
    exists g, s. rewrite Hprops, Hattr, Hgr, Hsr.
    split; [done|]. split; [done|]. split; [done|]. split; [done|].
    split; [apply Heg; [done|apply Hacc; by left]|].
    apply Hes; [done|apply Hacc; by right]. }
  split; [|split].
  - split; [done|]. split; [by split; eauto|]. split; [done|].
    intros (g & s & _ & _ & Hg' & _ & (G & d & D & HG & _ & _ & _ & _ & Hog) & _).
    unfold priorReader. rewrite Hgo. unfold getter_of. rewrite Hg', HG.
    destruct (fn_oldGet G) as [og|] eqn:Eog; [|done].
    destruct (Hog og eq_refl) as [body Hb].
    by rewrite (Hf og _ Hb (or_introl (ex_intro _ body Hb))), Hb.
  - unfold cachedValue. by rewrite Hgo.
  - intros f Hacc'. rewrite Hgr, Hsr in Hacc'.
    destruct (field_ok_accessors h o2 p2 f Hok Hacc') as [F HF].
    pose proof (lookup_lt_Some _ _ _ HF) as Hlt.
    destruct (Hind f Hacc') as [Hu|[Hng Hns]]; [left; by apply Huser|].
    right. split.
    + intros E. destruct (Hg f E) as [?|?]; [done|lia].
    + intros E. destruct (Hs f E) as [?|?]; [done|lia].
Qed.

End Theory.

(** ** The claims *)

Lemma obj_x1_ok : field_ok obj_x1 0 "x".
Proof. left. split; intros g Hg; vm_compute in Hg; discriminate. Qed.

(** C1. With afterGet hooks H1 then H2 installed, the afterGet chain ends
    in H1, H2, and each read, in that state and in every later state with
    the same chain, passes its start value through the hooks that were
    there before, then through H1, then feeds H1's output to H2, stores
    H2's output as the cached value and returns it; the chain is still in
    place after the read.  The start value is the cached value (unless it
    is [undefined]), that is the value the previous read produced and not
    the original one: on [{x: 1}] with the one hook [v => v + 1], the first
    read yields 2 and the second 3. *)
Theorem afterGet_runs_in_registration_order :
  (∀ W (h0 h1 h2 : Heap W) o p (H1 H2 : Callback W) r1 r2,
     field_ok h0 o p →
     afterGet o p H1 h0 = Ret r1 h1 →
     afterGet o p H2 h1 = Ret r2 h2 →
     ∃ earlier,
       intercepted h2 o p ∧
       afterGetChain h2 o p
         = earlier ++ [handler_of o p H1; handler_of o p H2] ∧
       ∀ h : Heap W,
         intercepted h o p →
         afterGetChain h o p
           = earlier ++ [handler_of o p H1; handler_of o p H2] →
         (∀ c, cachedValue h o p = Some c → strict_eq c VUndefined = false →
            start_outcome h o p = UReturn c (h_world h)) ∧
         ∀ v0 w0 v w v1 w1 v2 w2,
           start_outcome h o p = UReturn v0 w0 →
           forEach_thread earlier v0 w0 = UReturn v w →
           H1 o p v w = UReturn v1 w1 →
           H2 o p v1 w1 = UReturn v2 w2 →
           ∃ h', read_property o p h = Ret v2 h' ∧
                 cachedValue h' o p = Some v2 ∧ h_world h' = w2 ∧
                 intercepted h' o p ∧
                 afterGetChain h' o p = afterGetChain h o p) ∧
  (result (afterGet 0 "x" plus_one obj_x1) = Some (VObj 0) ∧
   result (read_property 0 "x" obj_x_hooked) = Some (VNum 2) ∧
   result (read_property 0 "x" (after (read_property 0 "x") obj_x_hooked))
     = Some (VNum 3)).
Proof.
  split.
  - intros W h0 h1 h2 o p H1 H2 r1 r2 Hok E1 E2.
    pose proof (afterGet_spec h0 o p H1 Hok) as S1. rewrite E1 in S1.
    destruct S1 as (_ & Hi1 & _ & _ & C1 & _).
    pose proof (afterGet_spec h1 o p H2 (or_intror Hi1)) as S2.
    rewrite E2 in S2. destruct S2 as (_ & Hi2 & _ & _ & C2 & _).
    exists (afterGetChain h0 o p). split; [done|]. split.
    { by rewrite C2, C1, <- app_assoc. }
    intros h Hi Hchain. split.
    { intros c Hc Hdef. rewrite (start_outcome_spec h o p c Hi Hc).
      by rewrite Hdef. }
    intros v0 w0 v w v1 w1 v2 w2 Hstart Hearlier HH1 HH2.
    pose proof (read_intercepted_run h o p Hi) as Hread.
    rewrite Hstart, Hchain, !forEach_thread_app, Hearlier in Hread.
    cbn in Hread. unfold handler_of in Hread. rewrite HH1, HH2 in Hread.
    destruct Hread as (h' & ? & ? & ? & (_ & [Hu _] & (Ca & _) & _)).
    exists h'. destruct (Hu Hi) as [Hi' _]. by rewrite Ca, Hchain.
  - repeat split; vm_compute; reflexivity.
Qed.

Lemma afterGet_runs_in_registration_order_witness :
  ∃ earlier,
    intercepted obj_x_two_hooks 0 "x" ∧
    afterGetChain obj_x_two_hooks 0 "x"
      = earlier ++ [handler_of 0 "x" plus_one; handler_of 0 "x" times_two] ∧
    ∀ h : Heap Log,
      intercepted h 0 "x" →
      afterGetChain h 0 "x"
        = earlier ++ [handler_of 0 "x" plus_one; handler_of 0 "x" times_two] →
      (∀ c, cachedValue h 0 "x" = Some c → strict_eq c VUndefined = false →
         start_outcome h 0 "x" = UReturn c (h_world h)) ∧
      ∀ v0 w0 v w v1 w1 v2 w2,
        start_outcome h 0 "x" = UReturn v0 w0 →
        forEach_thread earlier v0 w0 = UReturn v w →
        plus_one 0 "x" v w = UReturn v1 w1 →
        times_two 0 "x" v1 w1 = UReturn v2 w2 →
        ∃ h', read_property 0 "x" h = Ret v2 h' ∧
              cachedValue h' 0 "x" = Some v2 ∧ h_world h' = w2 ∧
              intercepted h' 0 "x" ∧
              afterGetChain h' 0 "x" = afterGetChain h 0 "x".
Proof.
  apply (proj1 afterGet_runs_in_registration_order Log obj_x1
           (after (afterGet 0 "x" plus_one) obj_x1) obj_x_two_hooks 0 "x"
           plus_one times_two (VObj 0) (VObj 0)).
  - exact obj_x1_ok.
  - vm_compute. reflexivity.
  - vm_compute. reflexivity.
Defined.

(** C2. With beforeSet hooks B1 then B2 installed, the beforeSet chain
    starts with B2, B1, and a write, in that state and in every later
    state with the same chain, hands the incoming value to B2 first, B2's
    output to B1, B1's output to the hooks that were there before, and
    commits what comes out as the cached value; the write returns the
    committed value, unless an afterSet hook raises once the value is
    committed.  After [installBeforeSet(obj, "y", v => v * 2)], the write
    [obj.y = 5] commits 10. *)
Theorem beforeSet_runs_newest_first :
  (∀ W (h0 h1 h2 : Heap W) o p (B1 B2 : Callback W),
     field_ok h0 o p →
     beforeSet o p B1 h0 = Ret (VObj o) h1 →
     beforeSet o p B2 h1 = Ret (VObj o) h2 →
     ∃ older,
       write_intercepted h2 o p ∧
       beforeSetChain h2 o p
         = handler_of o p B2 :: handler_of o p B1 :: older ∧
       ∀ h : Heap W,
         write_intercepted h o p →
         beforeSetChain h o p
           = handler_of o p B2 :: handler_of o p B1 :: older →
         ∀ value v2 w2 v1 w1 committed w,
           B2 o p value (h_world h) = UReturn v2 w2 →
           B1 o p v2 w2 = UReturn v1 w1 →
           forEach_thread older v1 w1 = UReturn committed w →
           match write_property o p value h with
           | Ret r h' =>
               r = committed ∧ cachedValue h' o p = Some committed ∧
               write_intercepted h' o p ∧
               beforeSetChain h' o p = beforeSetChain h o p
           | Throw e h' =>
               cachedValue h' o p = Some committed ∧
               ∃ w', forEach_call (afterSetChain h o p) committed w
                     = URaise e w'
           end) ∧
  (result (beforeSet 0 "y" times_two obj_x1) = Some (VObj 0) ∧
   result (write_property 0 "y" (VNum 5) obj_y_doubling) = Some (VNum 10) ∧
   cachedValue obj_y_ten 0 "y" = Some (VNum 10)).
Proof.
  split.
  - intros W h0 h1 h2 o p B1 B2 Hok E1 E2.
    pose proof (beforeSet_spec h0 o p B1 Hok) as S1. rewrite E1 in S1.
    destruct S1 as [[? _]|(_ & Hw1 & _ & _ & C1 & _)]; [done|].
    pose proof (beforeSet_spec h1 o p B2
                  (or_intror (write_intercepted_intercepted _ _ _ Hw1))) as S2.
    rewrite E2 in S2.
    destruct S2 as [[? _]|(_ & Hw2 & _ & _ & C2 & _)]; [done|].
    exists (beforeSetChain h0 o p). split; [done|].
    split; [by rewrite C2, C1|].
    intros h Hw Hchain value v2 w2 v1 w1 committed w HB2 HB1 Holder.
    destruct (intercepted_cached h o p (write_intercepted_intercepted _ _ _ Hw))
      as [orig Horig].
    pose proof (write_intercepted_run h o p value orig Hw Horig) as Hrun.
    rewrite Hchain in Hrun. cbn in Hrun. unfold handler_of in Hrun at 1 2.
    rewrite HB2, HB1, Holder in Hrun.
    destruct (strict_eq committed orig).
    + destruct Hrun as (h' & -> & ? & _ & (_ & [_ Hu] & (_ & Cb & _) & _)).
      destruct (Hu Hw) as [Hw' _]. by rewrite Cb, Hchain.
    + destruct (forEach_call _ committed w) as [r w'|e w'].
      * destruct Hrun as (h' & -> & ? & _ & (_ & [_ Hu] & (_ & Cb & _) & _)).
        destruct (Hu Hw) as [Hw' _]. by rewrite Cb, Hchain.
      * destruct Hrun as (h' & -> & ? & _). split; [done|by exists w'].
  - repeat split; vm_compute; reflexivity.
Qed.

Lemma obj_x1_y_ok : field_ok obj_x1 0 "y".
Proof. left. split; intros g Hg; vm_compute in Hg; discriminate. Qed.

Lemma beforeSet_runs_newest_first_witness :
  ∃ older,
    write_intercepted obj_y_two_hooks 0 "y" ∧
    beforeSetChain obj_y_two_hooks 0 "y"
      = handler_of 0 "y" plus_one :: handler_of 0 "y" times_two :: older ∧
    ∀ h : Heap Log,
      write_intercepted h 0 "y" →
      beforeSetChain h 0 "y"
        = handler_of 0 "y" plus_one :: handler_of 0 "y" times_two :: older →
      ∀ value v2 w2 v1 w1 committed w,
        plus_one 0 "y" value (h_world h) = UReturn v2 w2 →
        times_two 0 "y" v2 w2 = UReturn v1 w1 →
        forEach_thread older v1 w1 = UReturn committed w →
        match write_property 0 "y" value h with
        | Ret r h' =>
            r = committed ∧ cachedValue h' 0 "y" = Some committed ∧
            write_intercepted h' 0 "y" ∧
            beforeSetChain h' 0 "y" = beforeSetChain h 0 "y"
        | Throw e h' =>
            cachedValue h' 0 "y" = Some committed ∧
            ∃ w', forEach_call (afterSetChain h 0 "y") committed w
                  = URaise e w'
        end.
Proof.
  apply (proj1 beforeSet_runs_newest_first Log obj_x1
           (after (beforeSet 0 "y" times_two) obj_x1) obj_y_two_hooks 0 "y"
           times_two plus_one).
  - exact obj_x1_y_ok.
  - vm_compute. reflexivity.
  - vm_compute. reflexivity.
Defined.

(** C3. With afterSet hooks A1 then A2 installed, the afterSet chain ends
    in A1, A2.  A write, in that state and in every later state with the
    same chain, whose committed value is not strictly equal to the value
    cached when the write began runs the hooks that were there before, then
    A1, then A2, each on the committed value; what the hooks return is
    dropped and the write returns the committed value.  The hooks run after
    the commit: if A1 raises, the value is committed all the same.  A write
    whose before-chain yields a value strictly equal to the cached one
    commits it and runs no afterSet hook: the user's world is the one the
    before-chain left.  On [{x: 1}]: after [beforeSet(obj, "y", v => v * 2)],
    [obj.y = 5] and [afterSet(obj, "y", (o,p,v) => log.push(v))], the write
    [obj.y = 0] commits 0 and logs it, and a second [obj.y = 0] logs
    nothing. *)
Theorem afterSet_runs_in_order_on_change :
  (∀ W (h0 h1 h2 : Heap W) o p (A1 A2 : Callback W),
     field_ok h0 o p →
     afterSet o p A1 h0 = Ret (VObj o) h1 →
     afterSet o p A2 h1 = Ret (VObj o) h2 →
     ∃ earlier,
       write_intercepted h2 o p ∧
       afterSetChain h2 o p
         = earlier ++ [observer_of o p A1; observer_of o p A2] ∧
       ∀ (h : Heap W) value orig committed w,
         write_intercepted h o p →
         afterSetChain h o p
           = earlier ++ [observer_of o p A1; observer_of o p A2] →
         cachedValue h o p = Some orig →
         forEach_thread (beforeSetChain h o p) value (h_world h)
           = UReturn committed w →
         (strict_eq committed orig = true →
          ∃ h', write_property o p value h = Ret committed h' ∧
                cachedValue h' o p = Some committed ∧ h_world h' = w) ∧
         (strict_eq committed orig = false →
          ∀ w0, forEach_call earlier committed w = UReturn VUndefined w0 →
            (∀ r1 w1 r2 w2,
               A1 o p committed w0 = UReturn r1 w1 →
               A2 o p committed w1 = UReturn r2 w2 →
               ∃ h', write_property o p value h = Ret committed h' ∧
                     cachedValue h' o p = Some committed ∧ h_world h' = w2) ∧
            (∀ e w1,
               A1 o p committed w0 = URaise e w1 →
               ∃ h', write_property o p value h = Throw e h' ∧
                     cachedValue h' o p = Some committed ∧ h_world h' = w1))) ∧
  (result (afterSet 0 "y" log_value obj_y_ten) = Some (VObj 0) ∧
   result (write_property 0 "y" (VNum 0) obj_y_logged) = Some (VNum 0) ∧
   h_world (after (write_property 0 "y" (VNum 0)) obj_y_logged) = [VNum 0] ∧
   result (write_property 0 "y" (VNum 0)
             (after (write_property 0 "y" (VNum 0)) obj_y_logged))
     = Some (VNum 0) ∧
   h_world (after (write_property 0 "y" (VNum 0))
              (after (write_property 0 "y" (VNum 0)) obj_y_logged))
     = [VNum 0]).
Proof.
  split.
  - intros W h0 h1 h2 o p A1 A2 Hok E1 E2.
    pose proof (afterSet_spec h0 o p A1 Hok) as S1. rewrite E1 in S1.
    destruct S1 as [[? _]|(_ & Hw1 & _ & _ & _ & C1)]; [done|].
    pose proof (afterSet_spec h1 o p A2
                  (or_intror (write_intercepted_intercepted _ _ _ Hw1))) as S2.
    rewrite E2 in S2.
    destruct S2 as [[? _]|(_ & Hw2 & _ & _ & _ & C2)]; [done|].
    exists (afterSetChain h0 o p). split; [done|].
    split; [by rewrite C2, C1, <- app_assoc|].
    intros h value orig committed w Hw Hchain Horig Hbefore.
    pose proof (write_intercepted_run h o p value orig Hw Horig) as Hrun.
    rewrite Hbefore, Hchain, !forEach_call_app in Hrun.
    split.
    + intros Heq. rewrite Heq in Hrun.
      destruct Hrun as (h' & ? & ? & ? & _). by exists h'.
    + intros Hne w0 Hearlier. rewrite Hne, Hearlier in Hrun.
      cbn in Hrun. unfold observer_of in Hrun at 1 2. split.
      * intros r1 w1 r2 w2 HA1 HA2. rewrite HA1, HA2 in Hrun.
        destruct Hrun as (h' & ? & ? & ? & _). by exists h'.
      * intros e w1 HA1. rewrite HA1 in Hrun.
        destruct Hrun as (h' & ? & ? & ? & _). by exists h'.
  - repeat split; vm_compute; reflexivity.
Qed.

Lemma afterSet_runs_in_order_on_change_witness :
  ∃ earlier,
    write_intercepted obj_y_two_observers 0 "y" ∧
    afterSetChain obj_y_two_observers 0 "y"
      = earlier ++ [observer_of 0 "y" log_value; observer_of 0 "y" log_value] ∧
    ∀ (h : Heap Log) value orig committed w,
      write_intercepted h 0 "y" →
      afterSetChain h 0 "y"
        = earlier ++ [observer_of 0 "y" log_value; observer_of 0 "y" log_value] →
      cachedValue h 0 "y" = Some orig →
      forEach_thread (beforeSetChain h 0 "y") value (h_world h)
        = UReturn committed w →
      (strict_eq committed orig = true →
       ∃ h', write_property 0 "y" value h = Ret committed h' ∧
             cachedValue h' 0 "y" = Some committed ∧ h_world h' = w) ∧
      (strict_eq committed orig = false →
       ∀ w0, forEach_call earlier committed w = UReturn VUndefined w0 →
         (∀ r1 w1 r2 w2,
            log_value 0 "y" committed w0 = UReturn r1 w1 →
            log_value 0 "y" committed w1 = UReturn r2 w2 →
            ∃ h', write_property 0 "y" value h = Ret committed h' ∧
                  cachedValue h' 0 "y" = Some committed ∧ h_world h' = w2) ∧
         (∀ e w1,
            log_value 0 "y" committed w0 = URaise e w1 →
            ∃ h', write_property 0 "y" value h = Throw e h' ∧
                  cachedValue h' 0 "y" = Some committed ∧ h_world h' = w1)).
Proof.
  apply (proj1 afterSet_runs_in_order_on_change Log obj_x1
           (after (afterSet 0 "y" log_value) obj_x1) obj_y_two_observers
           0 "y" log_value log_value).
  - exact obj_x1_y_ok.
  - vm_compute. reflexivity.
  - vm_compute. reflexivity.
Defined.

(** C4. When a beforeSet hook raises during a write, the write raises the
    same failure to its caller; the hooks behind it in the chain and the
    afterSet hooks do not run (the user's world is the one the raising hook
    left), and the cached value and the chains are what they were. *)
Theorem beforeSet_failure_aborts_write :
  ∀ W (h : Heap W) o p value (ran : list (Handler W)) raising rest v w e w',
    write_intercepted h o p →
    beforeSetChain h o p = ran ++ raising :: rest →
    forEach_thread ran value (h_world h) = UReturn v w →
    raising v w = URaise e w' →
    ∃ h', write_property o p value h = Throw e h' ∧
          cachedValue h' o p = cachedValue h o p ∧
          h_world h' = w' ∧ same_chains h h' o p.
Proof.
  intros W h o p value ran raising rest v w e w' Hw Hchain Hran Hraise.
  destruct (intercepted_cached h o p (write_intercepted_intercepted _ _ _ Hw))
    as [orig Horig].
  pose proof (write_intercepted_run h o p value orig Hw Horig) as Hrun.
  rewrite Hchain, forEach_thread_app, Hran in Hrun. cbn in Hrun.
  rewrite Hraise in Hrun.
  destruct Hrun as (h' & ? & ? & ? & _ & _ & ? & _).
  exists h'. split; [done|]. split; [congruence|done].
Qed.

Lemma obj_y_guarded_ok : write_intercepted obj_y_guarded 0 "y".
Proof.
  exists 0, 1. split; [by eexists|]. split; [reflexivity|].
  split; [reflexivity|]. split; [reflexivity|]. split.
  - eexists _, 0, _. split; [reflexivity|]. split; [reflexivity|].
    split; [by eexists|]. split; [reflexivity|]. split; [reflexivity|].
    intros og Hog. vm_compute in Hog. discriminate.
  - eexists _, 0, _. split; [reflexivity|]. split; [reflexivity|].
    split; [by eexists|]. split; [by eexists|]. by repeat split.
Qed.

Lemma beforeSet_failure_aborts_write_witness :
  ∃ h', write_property 0 "y" (VNum 4) obj_y_guarded = Throw (VStr "rejected") h' ∧
        cachedValue h' 0 "y" = cachedValue obj_y_guarded 0 "y" ∧
        h_world h' = [] ∧ same_chains obj_y_guarded h' 0 "y".
Proof.
  apply (beforeSet_failure_aborts_write Log obj_y_guarded 0 "y" (VNum 4)
           [handler_of 0 "y" plus_one] (handler_of 0 "y" reject) []
           (VNum 5) [] (VStr "rejected") []).
  - exact obj_y_guarded_ok.
  - vm_compute. reflexivity.
  - vm_compute. reflexivity.
  - vm_compute. reflexivity.
Defined.




(** C9. An installing call of any of the three kinds on a property under
    interception reads the property once before anything else: the user's
    world after the call is the world after one read, and when the read
    returns, the cached value after the call is the value the read
    returned, that is the result of the afterGet chain; when the read
    raises, so does the call.  So on [{x: 1}] with the hook [v => v + 1]
    installed, the cached value is 1; installing a second hook makes it 2,
    and the next read yields 3. *)
Theorem install_reads_the_property :
  (∀ W (h : Heap W) o p (k : Hook W),
     intercepted h o p →
     match read_property o p h with
     | Ret v h1 =>
         ∃ r h', install o p k h = Ret r h' ∧
                 cachedValue h' o p = Some v ∧ h_world h' = h_world h1
     | Throw e h1 =>
         ∃ h', install o p k h = Throw e h' ∧
               cachedValue h' o p = cachedValue h o p ∧
               h_world h' = h_world h1
     end) ∧
  (cachedValue obj_x_hooked 0 "x" = Some (VNum 1) ∧
   result (afterGet 0 "x" same_value obj_x_hooked) = Some (VObj 0) ∧
   cachedValue (after (afterGet 0 "x" same_value) obj_x_hooked) 0 "x"
     = Some (VNum 2) ∧
   result (read_property 0 "x"
             (after (afterGet 0 "x" same_value) obj_x_hooked))
     = Some (VNum 3)).
Proof.
  split.
  - intros W h o p k. apply install_reads.
  - repeat split; vm_compute; reflexivity.
Qed.

Lemma obj_x_hooked_ok : intercepted obj_x_hooked 0 "x".
Proof.
  exists 0, 1. split; [by eexists|]. split; [reflexivity|].
  split; [reflexivity|]. split; [reflexivity|]. split.
  - eexists _, 0, _. split; [reflexivity|]. split; [reflexivity|].
    split; [by eexists|]. split; [reflexivity|]. split; [reflexivity|].
    intros og Hog. vm_compute in Hog. discriminate.
  - right. eexists _, 0, _. split; [reflexivity|]. split; [reflexivity|].
    split; [by eexists|]. split; [by eexists|]. by repeat split.
Qed.

Lemma install_reads_the_property_witness :
  match read_property 0 "x" obj_x_hooked with
  | Ret v h1 =>
      ∃ r h', install 0 "x" (BeforeSet times_two) obj_x_hooked = Ret r h' ∧
              cachedValue h' 0 "x" = Some v ∧ h_world h' = h_world h1
  | Throw e h1 =>
      ∃ h', install 0 "x" (BeforeSet times_two) obj_x_hooked = Throw e h' ∧
            cachedValue h' 0 "x" = cachedValue obj_x_hooked 0 "x" ∧
            h_world h' = h_world h1
  end.
Proof.
  apply (proj1 install_reads_the_property Log obj_x_hooked 0 "x"
           (BeforeSet times_two)).
  exact obj_x_hooked_ok.
Defined.





(** C6. Whatever installing calls are made on a property, in whatever
    order and whether or not some of them return [false] or raise, the
    accessor functions that carry the chains stay the same objects once they
    are in place, and each chain is the chain from before the calls plus the
    hooks whose call returned the object: appended in call order to the
    afterGet and afterSet chains, put in front, newest first, of the
    beforeSet chain.  No earlier hook is dropped or moved, and these are
    the chains a read and a write run afterwards. *)
Theorem installs_keep_every_hook :
  ∀ W (h : Heap W) o p (ks : list (Hook W)),
    field_ok h o p →
    field_ok (install_all o p ks h) o p ∧
    reused h (install_all o p ks h) o p ∧
    afterGetChain (install_all o p ks h) o p
      = afterGetChain h o p ++ afterGet_hooks o p (registered o p ks h) ∧
    beforeSetChain (install_all o p ks h) o p
      = beforeSet_hooks o p (registered o p ks h) ++ beforeSetChain h o p ∧
    afterSetChain (install_all o p ks h) o p
      = afterSetChain h o p ++ afterSet_hooks o p (registered o p ks h) ∧
    (intercepted (install_all o p ks h) o p →
     ∀ v0 w0,
       start_outcome (install_all o p ks h) o p = UReturn v0 w0 →
       match forEach_thread
               (afterGetChain h o p ++ afterGet_hooks o p (registered o p ks h))
               v0 w0 with
       | UReturn v w =>
           ∃ h', read_property o p (install_all o p ks h) = Ret v h' ∧
                 h_world h' = w
       | URaise e w =>
           ∃ h', read_property o p (install_all o p ks h) = Throw e h' ∧
                 h_world h' = w
       end) ∧
    (write_intercepted (install_all o p ks h) o p →
     ∀ value orig,
       cachedValue (install_all o p ks h) o p = Some orig →
       match forEach_thread
               (beforeSet_hooks o p (registered o p ks h) ++ beforeSetChain h o p)
               value (h_world (install_all o p ks h)) with
       | URaise e w =>
           ∃ h', write_property o p value (install_all o p ks h) = Throw e h' ∧
                 h_world h' = w
       | UReturn committed w =>
           if strict_eq committed orig then
             ∃ h', write_property o p value (install_all o p ks h)
                     = Ret committed h' ∧
                   h_world h' = w
           else
             match forEach_call
                     (afterSetChain h o p
                        ++ afterSet_hooks o p (registered o p ks h))
                     committed w with
             | UReturn _ w' =>
                 ∃ h', write_property o p value (install_all o p ks h)
                         = Ret committed h' ∧
                       h_world h' = w'
             | URaise e w' =>
                 ∃ h', write_property o p value (install_all o p ks h)
                         = Throw e h' ∧
                       h_world h' = w'
             end
       end).
Proof.
  intros W h o p ks Hok.
  destruct (install_all_spec o p ks h Hok) as (Hok' & Hu & Ca & Cb & Cs).
  split; [done|]. split; [done|]. split; [done|]. split; [done|].
  split; [done|]. split.
  - intros Hi v0 w0 Hstart.
    pose proof (read_intercepted_run _ o p Hi) as Hrun.
    rewrite Hstart, Ca in Hrun.
    destruct (forEach_thread _ v0 w0) as [v w|e w];
      destruct Hrun as (h' & ? & _ & ? & _); by exists h'.
  - intros Hw value orig Horig.
    pose proof (write_intercepted_run _ o p value orig Hw Horig) as Hrun.
    rewrite Cb, Cs in Hrun.
    destruct (forEach_thread _ value _) as [committed w|e w].
    + destruct (strict_eq committed orig).
      * destruct Hrun as (h' & ? & _ & ? & _). by exists h'.
      * destruct (forEach_call _ committed w) as [r w'|e w'];
          destruct Hrun as (h' & ? & _ & ? & _); by exists h'.
    + destruct Hrun as (h' & ? & _ & ? & _). by exists h'.
Qed.

Lemma installs_keep_every_hook_witness :
  field_ok obj_x_four_hooks 0 "x" ∧
  reused obj_x1 obj_x_four_hooks 0 "x" ∧
  afterGetChain obj_x_four_hooks 0 "x"
    = afterGetChain obj_x1 0 "x" ++ afterGet_hooks 0 "x" four_hooks_kept ∧
  beforeSetChain obj_x_four_hooks 0 "x"
    = beforeSet_hooks 0 "x" four_hooks_kept ++ beforeSetChain obj_x1 0 "x" ∧
  afterSetChain obj_x_four_hooks 0 "x"
    = afterSetChain obj_x1 0 "x" ++ afterSet_hooks 0 "x" four_hooks_kept ∧
  (intercepted obj_x_four_hooks 0 "x" →
   ∀ v0 w0,
     start_outcome obj_x_four_hooks 0 "x" = UReturn v0 w0 →
     match forEach_thread
             (afterGetChain obj_x1 0 "x"
                ++ afterGet_hooks 0 "x" four_hooks_kept)
             v0 w0 with
     | UReturn v w =>
         ∃ h', read_property 0 "x" obj_x_four_hooks = Ret v h' ∧
               h_world h' = w
     | URaise e w =>
         ∃ h', read_property 0 "x" obj_x_four_hooks = Throw e h' ∧
               h_world h' = w
     end) ∧
  (write_intercepted obj_x_four_hooks 0 "x" →
   ∀ value orig,
     cachedValue obj_x_four_hooks 0 "x" = Some orig →
     match forEach_thread
             (beforeSet_hooks 0 "x" four_hooks_kept
                ++ beforeSetChain obj_x1 0 "x")
             value (h_world obj_x_four_hooks) with
     | URaise e w =>
         ∃ h', write_property 0 "x" value obj_x_four_hooks = Throw e h' ∧
               h_world h' = w
     | UReturn committed w =>
         if strict_eq committed orig then
           ∃ h', write_property 0 "x" value obj_x_four_hooks
                   = Ret committed h' ∧
                 h_world h' = w
         else
           match forEach_call
                   (afterSetChain obj_x1 0 "x"
                      ++ afterSet_hooks 0 "x" four_hooks_kept)
                   committed w with
           | UReturn _ w' =>
               ∃ h', write_property 0 "x" value obj_x_four_hooks
                       = Ret committed h' ∧
                     h_world h' = w'
           | URaise e w' =>
               ∃ h', write_property 0 "x" value obj_x_four_hooks
                       = Throw e h' ∧
                     h_world h' = w'
           end
     end).
Proof.
  apply (installs_keep_every_hook Log obj_x1 0 "x" four_hooks).
  exact obj_x1_ok.
Defined.

(** C7, as the code has it.  An installing call on a property that has a
    getter of the user's runs that getter once and seeds the cached value
    with what it returned; the getter is kept as [oldGet].  After that a
    read that finds a cached value other than [undefined] starts from it
    and does not run the prior getter, while a read that finds [undefined]
    cached runs the prior getter and starts from what it returns.  Start
    value and chain are all that a read runs. *)
Theorem prior_getter_runs_when_undefined :
  (∀ W (h : Heap W) o p (k : Hook W) prior v w,
     raw_field h o p → user_getter h o p = Some prior →
     d_configurable (attributes h o p) = true →
     prior [] (h_world h) = UReturn v w →
     ∃ r h', install o p k h = Ret r h' ∧ h_world h' = w ∧
             (r = VObj o →
              cachedValue h' o p = Some v ∧ priorReader h' o p = Some prior)) ∧
  (∀ W (h : Heap W) o p c,
     intercepted h o p → cachedValue h o p = Some c →
     (strict_eq c VUndefined = false →
      start_outcome h o p = UReturn c (h_world h)) ∧
     (strict_eq c VUndefined = true →
      ∀ prior, priorReader h o p = Some prior →
        start_outcome h o p = prior [] (h_world h)) ∧
     match start_outcome h o p with
     | UReturn v0 w0 =>
         match forEach_thread (afterGetChain h o p) v0 w0 with
         | UReturn v w =>
             ∃ h', read_property o p h = Ret v h' ∧ h_world h' = w ∧
                   priorReader h' o p = priorReader h o p
         | URaise e w =>
             ∃ h', read_property o p h = Throw e h' ∧ h_world h' = w
         end
     | URaise e w => ∃ h', read_property o p h = Throw e h' ∧ h_world h' = w
     end).
Proof.
  split.
  - intros W h o p k prior v w. apply install_seeds.
  - intros W h o p c Hint Hc.
    split; [|split].
    { intros E. rewrite (start_outcome_spec h o p c Hint Hc). by rewrite E. }
    { intros E prior Hp. rewrite (start_outcome_spec h o p c Hint Hc).
      by rewrite E, Hp. }
    pose proof (read_intercepted_run h o p Hint) as Hrun.
    destruct (start_outcome h o p) as [v0 w0|e w].
    + destruct (forEach_thread _ v0 w0) as [v w|e w];
        destruct Hrun as (h' & ? & _ & ? & Hf); exists h'; [|done].
      destruct Hf as (_ & _ & _ & Hp).
      split; [done|]. split; [done|]. by apply Hp.
    + destruct Hrun as (h' & ? & _ & ? & _). by exists h'.
Qed.

Lemma obj_getter_raw : raw_field obj_getter 0 "t".
Proof.
  split; intros g Hg; vm_compute in Hg; [|discriminate].
  injection Hg as <-. by eexists.
Qed.

Lemma obj_t_hooked_ok : intercepted obj_t_hooked 0 "t".
Proof.
  exists 1, 2. split; [by eexists|]. split; [reflexivity|].
  split; [reflexivity|]. split; [reflexivity|]. split.
  - eexists _, 0, _. split; [reflexivity|]. split; [reflexivity|].
    split; [by eexists|]. split; [reflexivity|]. split; [reflexivity|].
    intros og Hog. vm_compute in Hog. injection Hog as <-. by eexists.
  - right. eexists _, 0, _. split; [reflexivity|]. split; [reflexivity|].
    split; [by eexists|]. split; [by eexists|]. by repeat split.
Qed.

Lemma prior_getter_runs_when_undefined_witness :
  (∃ r h', install 0 "t" (AfterGet same_value) obj_getter = Ret r h' ∧
           h_world h' = [VStr "prior getter"] ∧
           (r = VObj 0 →
            cachedValue h' 0 "t" = Some (VNum 7) ∧
            priorReader h' 0 "t" = Some getter_of_t)) ∧
  ((strict_eq (VNum 7) VUndefined = false →
    start_outcome obj_t_hooked 0 "t"
      = UReturn (VNum 7) (h_world obj_t_hooked)) ∧
   (strict_eq (VNum 7) VUndefined = true →
    ∀ prior, priorReader obj_t_hooked 0 "t" = Some prior →
      start_outcome obj_t_hooked 0 "t" = prior [] (h_world obj_t_hooked)) ∧
   match start_outcome obj_t_hooked 0 "t" with
   | UReturn v0 w0 =>
       match forEach_thread (afterGetChain obj_t_hooked 0 "t") v0 w0 with
       | UReturn v w =>
           ∃ h', read_property 0 "t" obj_t_hooked = Ret v h' ∧ h_world h' = w ∧
                 priorReader h' 0 "t" = priorReader obj_t_hooked 0 "t"
       | URaise e w =>
           ∃ h', read_property 0 "t" obj_t_hooked = Throw e h' ∧ h_world h' = w
       end
   | URaise e w =>
       ∃ h', read_property 0 "t" obj_t_hooked = Throw e h' ∧ h_world h' = w
   end).
Proof.
  split.
  - apply (proj1 prior_getter_runs_when_undefined Log obj_getter 0 "t"
             (AfterGet same_value) getter_of_t (VNum 7) [VStr "prior getter"]).
    + exact obj_getter_raw.
    + reflexivity.
    + reflexivity.
    + reflexivity.
  - apply (proj2 prior_getter_runs_when_undefined Log obj_t_hooked 0 "t"
             (VNum 7)).
    + exact obj_t_hooked_ok.
    + vm_compute. reflexivity.
Defined.

(** C7 as stated fails on the code.  On a property with a prior getter
    that logs each call: the installing call runs it once; the first read
    returns 7 without running it; after the write [obj.t = undefined] has
    committed [undefined], the next read runs the prior getter a second
    time and returns 7 again. *)
Lemma prior_getter_runs_again_after_undefined :
  h_world obj_t_hooked = [VStr "prior getter"] ∧
  result (read_property 0 "t" obj_t_hooked) = Some (VNum 7) ∧
  h_world obj_t_read = [VStr "prior getter"] ∧
  result (write_property 0 "t" VUndefined obj_t_read) = Some VUndefined ∧
  cachedValue obj_t_cleared 0 "t" = Some VUndefined ∧
  result (read_property 0 "t" obj_t_cleared) = Some (VNum 7) ∧
  h_world (after (read_property 0 "t") obj_t_cleared)
    = [VStr "prior getter"; VStr "prior getter"].
Proof. repeat split; vm_compute; reflexivity. Qed.

(** C8. One installing call of any kind on a configurable data property
    leaves the property with the engine's getter and the engine's setter.
    After [afterGet] alone the chains of the setter are empty: a write
    commits the incoming value as it is, without touching the user's world,
    and the read that follows returns what the hook makes of that value.
    After [beforeSet] or [afterSet] alone (on a value that is not callable)
    the afterGet chain is empty and a read returns the stored value.  In
    each case only the chain of the hook's own kind has a handler. *)
Theorem single_install_leaves_both_paths :
  ∀ W (h : Heap W) o p (cb : Callback W) P v0,
    h_props h !! (o, p) = Some P → d_value P = Some v0 →
    d_get P = None → d_set P = None → d_configurable P = true →
    (∃ h', afterGet o p cb h = Ret (VObj o) h' ∧
           write_intercepted h' o p ∧ cachedValue h' o p = Some v0 ∧
           afterGetChain h' o p = [handler_of o p cb] ∧
           beforeSetChain h' o p = [] ∧ afterSetChain h' o p = [] ∧
           ∀ value, ∃ h'',
             write_property o p value h' = Ret value h'' ∧
             cachedValue h'' o p = Some value ∧ h_world h'' = h_world h ∧
             ∀ v w, cb o p value (h_world h) = UReturn v w →
               ∃ h3, read_property o p h'' = Ret v h3 ∧ h_world h3 = w) ∧
    (is_function v0 = false →
     (∃ h' h'', beforeSet o p cb h = Ret (VObj o) h' ∧
                write_intercepted h' o p ∧
                afterGetChain h' o p = [] ∧
                beforeSetChain h' o p = [handler_of o p cb] ∧
                afterSetChain h' o p = [] ∧
                read_property o p h' = Ret v0 h'' ∧
                h_world h'' = h_world h) ∧
     (∃ h' h'', afterSet o p cb h = Ret (VObj o) h' ∧
                write_intercepted h' o p ∧
                afterGetChain h' o p = [] ∧
                beforeSetChain h' o p = [] ∧
                afterSetChain h' o p = [observer_of o p cb] ∧
                read_property o p h' = Ret v0 h'' ∧
                h_world h'' = h_world h)).
Proof.
  intros W h o p cb P v0 HP Hv Hg Hs Hcfg.
  destruct (plain_field h o p P v0 HP Hv Hg Hs) as (Hraw & Hug & Hsr & HA & Hread).
  assert (Hraw1 : raw_field (with_world (h_world h) h) o p) by exact Hraw.
  assert (Hstart : ∀ (h' : Heap W) c,
            intercepted h' o p → cachedValue h' o p = Some c →
            priorReader h' o p = None →
            start_outcome h' o p = UReturn c (h_world h')).
  { intros h' c Hi Hc Hp. rewrite (start_outcome_spec h' o p c Hi Hc), Hp.
    by destruct (strict_eq c VUndefined). }
  split.
  - unfold afterGet. rewrite prelude_spec by by left. rewrite Hread.
    pose proof (afterGet_install_raw _ o p cb v0 Hraw1) as Hin.
    destruct (afterGet_install _ _ _ _ _ _) as [r h'|e h'].
    2:{ destruct Hin as (Hn & _).
        change (attributes _ o p) with (attributes h o p) in Hn.
        rewrite HA, Hcfg in Hn. discriminate. }
    destruct Hin as (-> & Hi & Hw & Ca & Cb & Cs & Hwd & Hc & Hp).
    specialize (Hw Hsr). exists h'. split; [done|]. split; [done|].
    split; [done|]. split; [done|]. split; [done|]. split; [done|].
    intros value.
    destruct (pass_through_write h' o p value Hw Cb Cs)
      as (h'' & Ewrite & Hc'' & Hwd'' & (_ & [Hu _] & (Ca'' & _) & Hp'')).
    exists h''. split; [done|]. split; [done|].
    split; [by rewrite Hwd'', Hwd|].
    intros v w Hcb. destruct (Hu Hi) as [Hi'' _].
    pose proof (read_intercepted_run h'' o p Hi'') as Hrun.
    rewrite (Hstart h'' value Hi'' Hc'') in Hrun
      by (rewrite Hp'' by done; by rewrite Hp).
    rewrite Ca'', Ca in Hrun. cbn in Hrun. unfold handler_of in Hrun.
    rewrite Hwd'', Hwd in Hrun. cbn in Hrun. rewrite Hcb in Hrun.
    destruct Hrun as (h3 & ? & _ & ? & _). by exists h3.
  - intros Hnf. split.
    + unfold beforeSet. rewrite prelude_spec by by left. rewrite Hread.
      pose proof (beforeSet_install_raw _ o p cb v0 Hraw1) as Hin.
      destruct (beforeSet_install _ _ _ _ _ _) as [r h'|e h'].
      2:{ destruct Hin as (_ & Hn & _).
          change (attributes _ o p) with (attributes h o p) in Hn.
        rewrite HA, Hcfg in Hn. discriminate. }
      rewrite Hnf in Hin.
      destruct Hin as (-> & Hw & Ca & Cb & Cs & Hwd & Hc & Hp).
      pose proof (write_intercepted_intercepted _ _ _ Hw) as Hi.
      pose proof (read_intercepted_run h' o p Hi) as Hrun.
      rewrite (Hstart h' v0 Hi Hc) in Hrun by by rewrite Hp.
      rewrite Ca in Hrun. cbn in Hrun.
      destruct Hrun as (h'' & ? & _ & ? & _). exists h', h''.
      split; [done|]. split; [done|]. split; [done|]. split; [done|].
      split; [done|]. split; [done|]. etransitivity; [eassumption|exact Hwd].
    + unfold afterSet. rewrite prelude_spec by by left. rewrite Hread.
      pose proof (afterSet_install_raw _ o p cb v0 Hraw1) as Hin.
      destruct (afterSet_install _ _ _ _ _ _) as [r h'|e h'].
      2:{ destruct Hin as (_ & Hn & _).
          change (attributes _ o p) with (attributes h o p) in Hn.
        rewrite HA, Hcfg in Hn. discriminate. }
      rewrite Hnf in Hin.
      destruct Hin as (-> & Hw & Ca & Cb & Cs & Hwd & Hc & Hp).
      pose proof (write_intercepted_intercepted _ _ _ Hw) as Hi.
      pose proof (read_intercepted_run h' o p Hi) as Hrun.
      rewrite (Hstart h' v0 Hi Hc) in Hrun by by rewrite Hp.
      rewrite Ca in Hrun. cbn in Hrun.
      destruct Hrun as (h'' & ? & _ & ? & _). exists h', h''.
      split; [done|]. split; [done|]. split; [done|]. split; [done|].
      split; [done|]. split; [done|]. etransitivity; [eassumption|exact Hwd].
Qed.

Lemma single_install_leaves_both_paths_witness :
  (∃ h', afterGet 0 "x" plus_one obj_x1 = Ret (VObj 0) h' ∧
         write_intercepted h' 0 "x" ∧ cachedValue h' 0 "x" = Some (VNum 1) ∧
         afterGetChain h' 0 "x" = [handler_of 0 "x" plus_one] ∧
         beforeSetChain h' 0 "x" = [] ∧ afterSetChain h' 0 "x" = [] ∧
         ∀ value, ∃ h'',
           write_property 0 "x" value h' = Ret value h'' ∧
           cachedValue h'' 0 "x" = Some value ∧ h_world h'' = h_world obj_x1 ∧
           ∀ v w, plus_one 0 "x" value (h_world obj_x1) = UReturn v w →
             ∃ h3, read_property 0 "x" h'' = Ret v h3 ∧ h_world h3 = w) ∧
  (is_function (VNum 1) = false →
   (∃ h' h'', beforeSet 0 "x" plus_one obj_x1 = Ret (VObj 0) h' ∧
              write_intercepted h' 0 "x" ∧
              afterGetChain h' 0 "x" = [] ∧
              beforeSetChain h' 0 "x" = [handler_of 0 "x" plus_one] ∧
              afterSetChain h' 0 "x" = [] ∧
              read_property 0 "x" h' = Ret (VNum 1) h'' ∧
              h_world h'' = h_world obj_x1) ∧
   (∃ h' h'', afterSet 0 "x" plus_one obj_x1 = Ret (VObj 0) h' ∧
              write_intercepted h' 0 "x" ∧
              afterGetChain h' 0 "x" = [] ∧
              beforeSetChain h' 0 "x" = [] ∧
              afterSetChain h' 0 "x" = [observer_of 0 "x" plus_one] ∧
              read_property 0 "x" h' = Ret (VNum 1) h'' ∧
              h_world h'' = h_world obj_x1)).
Proof.
  apply (single_install_leaves_both_paths Log obj_x1 0 "x" plus_one
           (data_property (VNum 1)) (VNum 1)).
  - vm_compute. reflexivity.
  - reflexivity.
  - reflexivity.
  - reflexivity.
  - reflexivity.
Defined.

(** ** Further properties of the installers, of reads and of writes *)

(** X1. Installing calls, reads and writes on [object.property], in any
    number and order, leave every other own property of every object as it
    was: the only property the module ever redefines is the one it is
    called on. *)
Theorem other_properties_untouched :
  ∀ W (h : Heap W) o p (ops : list (Op W)) key,
    key ≠ (o, p) →
    h_props (perform_all o p ops h) !! key = h_props h !! key.
Proof.
  intros W h o p ops key Hkey. revert h.
  induction ops as [|a ops IH]; intros h; cbn [perform_all]; [done|].
  rewrite IH. by apply perform_outside.
Qed.

Lemma other_properties_untouched_witness :
  h_props (perform_all 0 "y"
             [Install (BeforeSet times_two); Write (VNum 5); Read;
              Install (AfterGet plus_one)] obj_x1) !! (0, "x")
    = h_props obj_x1 !! (0, "x").
Proof.
  apply (other_properties_untouched Log obj_x1 0 "y"
           [Install (BeforeSet times_two); Write (VNum 5); Read;
            Install (AfterGet plus_one)] (0, "x")).
  intros E. discriminate E.
Defined.

(** X2. An installing call that raises, or that returns [false], has
    installed nothing: the property table is what it was, from any heap
    whatever, and on a property in one of the states that the installers
    meet the three chains are what they were. *)
Theorem failed_install_installs_nothing :
  ∀ W (h : Heap W) o p (k : Hook W),
    returned_object (install o p k h) is_object = false →
    h_props (heap_of (install o p k h)) = h_props h ∧
    (field_ok h o p →
     field_ok (heap_of (install o p k h)) o p ∧
     same_chains h (heap_of (install o p k h)) o p).
Proof.
  intros W h o p k Hfail. split.
  - pose proof (install_props h o p k) as Hp.
    destruct (install o p k h) as [r h'|e h']; cbn in *; [|done].
    destruct Hp as [[_ ?]|[-> _]]; [done|discriminate].
  - intros Hok.
    destruct (install_step h o p k Hok) as (Hok' & _ & Ca & Cb & Cs).
    rewrite Hfail in Ca, Cb, Cs. cbn in Ca, Cb, Cs.
    rewrite app_nil_r in Ca, Cs. by split.
Qed.

Lemma failed_install_installs_nothing_witness :
  h_props (heap_of (install 0 "c" (AfterGet same_value) obj_fixed))
    = h_props obj_fixed ∧
  (field_ok obj_fixed 0 "c" →
   field_ok (heap_of (install 0 "c" (AfterGet same_value) obj_fixed)) 0 "c" ∧
   same_chains obj_fixed
     (heap_of (install 0 "c" (AfterGet same_value) obj_fixed)) 0 "c").
Proof.
  apply (failed_install_installs_nothing Log obj_fixed 0 "c"
           (AfterGet same_value)).
  vm_compute. reflexivity.
Defined.

(** X3. An installing call that returns the object leaves
    [object.property] an accessor property: it has no [value], it has the
    [enumerable] and [configurable] that the property had before ([true]
    and [true] if there was no such property), and, where the property was
    configurable or missing, no [writable] either.  On a property in one
    of the states that the installers meet it has both a getter and a
    setter. *)
Theorem install_keeps_attributes :
  ∀ W (h h' : Heap W) o p (k : Hook W),
    install o p k h = Ret (VObj o) h' →
    ∃ P, h_props h' !! (o, p) = Some P ∧ d_value P = None ∧
         (d_configurable (attributes h o p) = true → d_writable P = None) ∧
         d_enumerable P = d_enumerable (attributes h o p) ∧
         d_configurable P = d_configurable (attributes h o p) ∧
         (field_ok h o p → is_Some (d_get P) ∧ is_Some (d_set P)).
Proof.
  intros W h h' o p k Hinst.
  pose proof (install_props h o p k) as Hp. rewrite Hinst in Hp.
  destruct Hp as [[? _]|[_ (_ & P & HP & Hv & Hw & He & Hc)]]; [done|].
  exists P. split; [done|]. split; [done|]. split; [done|].
  split; [done|]. split; [done|]. intros Hok.
  assert (Hi : intercepted h' o p).
  { destruct k as [cb|cb|cb]; cbn [install] in Hinst.
    - pose proof (afterGet_spec h o p cb Hok) as Hs. rewrite Hinst in Hs.
      by destruct Hs as (_ & ? & _).
    - pose proof (beforeSet_spec h o p cb Hok) as Hs. rewrite Hinst in Hs.
      destruct Hs as [[? _]|(_ & ? & _)]; [done|].
      by apply write_intercepted_intercepted.
    - pose proof (afterSet_spec h o p cb Hok) as Hs. rewrite Hinst in Hs.
      destruct Hs as [[? _]|(_ & ? & _)]; [done|].
      by apply write_intercepted_intercepted. }
  destruct Hi as (g & s & _ & _ & Hg & Hs & _).
  unfold getter_ref, setter_ref, attributes in Hg, Hs. rewrite HP in Hg, Hs.
  cbn in Hg, Hs. by rewrite Hg, Hs.
Qed.

Lemma install_keeps_attributes_witness :
  ∃ P, h_props (after (afterSet 0 "r" log_value) obj_readonly) !! (0, "r")
         = Some P ∧
       d_value P = None ∧
       (d_configurable (attributes obj_readonly 0 "r") = true →
        d_writable P = None) ∧
       d_enumerable P = d_enumerable (attributes obj_readonly 0 "r") ∧
       d_configurable P = d_configurable (attributes obj_readonly 0 "r") ∧
       (field_ok obj_readonly 0 "r" → is_Some (d_get P) ∧ is_Some (d_set P)).
Proof.
  apply (install_keeps_attributes Log obj_readonly
           (after (afterSet 0 "r" log_value) obj_readonly) 0 "r"
           (AfterSet log_value)).
  vm_compute. reflexivity.
Defined.

(** X4. Installing calls, reads and writes on a property, in any number
    and order, keep the property in one of the states that the installers
    meet and keep the accessor functions that are in place; each chain
    only ever grows, at its end for afterGet and afterSet and at its front
    for beforeSet, by the hooks whose installing call returned the object.
    No read, no write and no failed call removes or reorders a hook. *)
Theorem operations_keep_the_chains :
  ∀ W (h : Heap W) o p (ops : list (Op W)),
    field_ok h o p →
    field_ok (perform_all o p ops h) o p ∧
    reused h (perform_all o p ops h) o p ∧
    afterGetChain (perform_all o p ops h) o p
      = afterGetChain h o p ++ afterGet_hooks o p (installed o p ops h) ∧
    beforeSetChain (perform_all o p ops h) o p
      = beforeSet_hooks o p (installed o p ops h) ++ beforeSetChain h o p ∧
    afterSetChain (perform_all o p ops h) o p
      = afterSetChain h o p ++ afterSet_hooks o p (installed o p ops h).
Proof.
  intros W h o p ops. revert h.
  induction ops as [|a ops IH]; intros h Hok; cbn [perform_all installed].
  - cbn. rewrite !app_nil_r. split; [done|]. split; [apply reused_refl|done].
  - destruct (perform_step h o p a Hok) as (Hok1 & Hu1 & Hag1 & Hbs1 & Has1).
    destruct (IH _ Hok1) as (Hok2 & Hu2 & Hag2 & Hbs2 & Has2).
    split; [done|]. split; [by eapply reused_trans|].
    rewrite afterGet_hooks_app, beforeSet_hooks_app, afterSet_hooks_app.
    rewrite Hag2, Hbs2, Has2, Hag1, Hbs1, Has1.
    by rewrite !app_assoc.
Qed.

Lemma operations_keep_the_chains_witness :
  field_ok (perform_all 0 "x" mixed_operations obj_x1) 0 "x" ∧
  reused obj_x1 (perform_all 0 "x" mixed_operations obj_x1) 0 "x" ∧
  afterGetChain (perform_all 0 "x" mixed_operations obj_x1) 0 "x"
    = afterGetChain obj_x1 0 "x"
        ++ afterGet_hooks 0 "x" (installed 0 "x" mixed_operations obj_x1) ∧
  beforeSetChain (perform_all 0 "x" mixed_operations obj_x1) 0 "x"
    = beforeSet_hooks 0 "x" (installed 0 "x" mixed_operations obj_x1)
        ++ beforeSetChain obj_x1 0 "x" ∧
  afterSetChain (perform_all 0 "x" mixed_operations obj_x1) 0 "x"
    = afterSetChain obj_x1 0 "x"
        ++ afterSet_hooks 0 "x" (installed 0 "x" mixed_operations obj_x1).
Proof.
  apply (operations_keep_the_chains Log obj_x1 0 "x" mixed_operations).
  exact obj_x1_ok.
Defined.



(** X6. An installing call on a property that the object does not have
    creates it: the call returns the object without running any user
    code; the new property is an enumerable, configurable accessor
    property with both accessors the engine's, no prior getter, and the
    one hook in its chain; the cached value is [undefined], and that is
    what the next read passes to the afterGet chain. *)
Theorem install_on_missing_property :
  ∀ W (h : Heap W) o p (k : Hook W),
    h_props h !! (o, p) = None →
    ∃ h', install o p k h = Ret (VObj o) h' ∧
          h_world h' = h_world h ∧
          write_intercepted h' o p ∧
          cachedValue h' o p = Some VUndefined ∧
          priorReader h' o p = None ∧
          d_enumerable (attributes h' o p) = true ∧
          d_configurable (attributes h' o p) = true ∧
          afterGetChain h' o p = afterGet_hooks o p [k] ∧
          beforeSetChain h' o p = beforeSet_hooks o p [k] ∧
          afterSetChain h' o p = afterSet_hooks o p [k] ∧
          start_outcome h' o p = UReturn VUndefined (h_world h').
Proof.
  intros W h o p k HP.
  assert (Hattr : attributes h o p = fresh_descriptor)
    by (unfold attributes; by rewrite HP).
  assert (Hraw : raw_field h o p).
  { unfold raw_field, getter_ref, setter_ref. rewrite Hattr.
    split; intros ? [=]. }
  assert (Hread : read_property o p h = Ret VUndefined h)
    by (unfold read_property; by rewrite HP).
  pose proof (install_prelude h o p k (or_introl Hraw)) as Hpre.
  rewrite Hread in Hpre.
  pose proof (install_props h o p k) as Hprops.
  assert (Hnone : user_getter h o p = None)
    by (unfold user_getter, getter_ref; by rewrite Hattr).
  assert (Hmain : ∃ h', install o p k h = Ret (VObj o) h' ∧
            h_world h' = h_world h ∧ write_intercepted h' o p ∧
            cachedValue h' o p = Some VUndefined ∧
            priorReader h' o p = None ∧
            afterGetChain h' o p = afterGet_hooks o p [k] ∧
            beforeSetChain h' o p = beforeSet_hooks o p [k] ∧
            afterSetChain h' o p = afterSet_hooks o p [k]).
  { rewrite Hpre. destruct k as [cb|cb|cb].
    - pose proof (afterGet_install_raw h o p cb VUndefined Hraw) as Hin.
      destruct (afterGet_install _ _ _ _ _ _) as [r h'|e h'].
      + destruct Hin as (-> & Hi & Hw & Ca & Cb & Cs & Hwd & Hc & Hp).
        exists h'. rewrite Hp. split; [done|]. split; [done|].
        split; [|done]. apply Hw. unfold setter_ref. by rewrite Hattr.
      + destruct Hin as (Hn & _). by rewrite Hattr in Hn.
    - pose proof (beforeSet_install_raw h o p cb VUndefined Hraw) as Hin.
      destruct (beforeSet_install _ _ _ _ _ _) as [r h'|e h'].
      + cbn in Hin. destruct Hin as (-> & Hw & Ca & Cb & Cs & Hwd & Hc & Hp).
        exists h'. by rewrite Hp.
      + destruct Hin as (_ & Hn & _). by rewrite Hattr in Hn.
    - pose proof (afterSet_install_raw h o p cb VUndefined Hraw) as Hin.
      destruct (afterSet_install _ _ _ _ _ _) as [r h'|e h'].
      + cbn in Hin. destruct Hin as (-> & Hw & Ca & Cb & Cs & Hwd & Hc & Hp).
        exists h'. by rewrite Hp.
      + destruct Hin as (_ & Hn & _). by rewrite Hattr in Hn. }
  destruct Hmain as (h' & Hinst & Hwd & Hw & Hc & Hp & Ca & Cb & Cs).
  rewrite Hinst in Hprops.
  destruct Hprops as [[? _]|[_ (_ & P & HP' & _ & _ & He & Hcfg)]]; [done|].
  rewrite HP in He, Hcfg. cbn in He, Hcfg.
  exists h'. split; [done|]. split; [done|]. split; [done|].
  split; [done|]. split; [done|].
  split; [by unfold attributes; rewrite HP'|].
  split; [by unfold attributes; rewrite HP'|].
  split; [done|]. split; [done|]. split; [done|].
  rewrite (start_outcome_spec h' o p VUndefined)
    by (done || by apply write_intercepted_intercepted).
  by rewrite Hp.
Qed.

Lemma install_on_missing_property_witness :
  ∃ h', install 0 "z" (AfterGet plus_one) obj_empty = Ret (VObj 0) h' ∧
        h_world h' = h_world obj_empty ∧
        write_intercepted h' 0 "z" ∧
        cachedValue h' 0 "z" = Some VUndefined ∧
        priorReader h' 0 "z" = None ∧
        d_enumerable (attributes h' 0 "z") = true ∧
        d_configurable (attributes h' 0 "z") = true ∧
        afterGetChain h' 0 "z" = afterGet_hooks 0 "z" [AfterGet plus_one] ∧
        beforeSetChain h' 0 "z" = beforeSet_hooks 0 "z" [AfterGet plus_one] ∧
        afterSetChain h' 0 "z" = afterSet_hooks 0 "z" [AfterGet plus_one] ∧
        start_outcome h' 0 "z" = UReturn VUndefined (h_world h').
Proof.
  apply (install_on_missing_property Log obj_empty 0 "z" (AfterGet plus_one)).
  reflexivity.
Defined.




(** X8. When an afterGet hook raises during a read, the read raises the
    same error at once: the hooks after it do not run, the user's world
    is the one the raising hook left, the cached value is what it was
    before the read (the outputs of the hooks that did run are dropped),
    and the chains are unchanged. *)
Theorem afterGet_failure_aborts_read :
  ∀ W (h : Heap W) o p (ran : list (Handler W)) raising rest v0 w0 v w e w',
    intercepted h o p →
    afterGetChain h o p = ran ++ raising :: rest →
    start_outcome h o p = UReturn v0 w0 →
    forEach_thread ran v0 w0 = UReturn v w →
    raising v w = URaise e w' →
    ∃ h', read_property o p h = Throw e h' ∧
          cachedValue h' o p = cachedValue h o p ∧
          h_world h' = w' ∧ same_chains h h' o p.
Proof.
  intros W h o p ran raising rest v0 w0 v w e w' Hi Hchain Hstart Hran Hraise.
  pose proof (read_intercepted_run h o p Hi) as Hrun.
  rewrite Hstart, Hchain, forEach_thread_app, Hran in Hrun.
  cbn in Hrun. rewrite Hraise in Hrun.
  destruct Hrun as (h' & ? & ? & ? & (_ & _ & ? & _)). by exists h'.
Qed.

Lemma obj_x_rejecting_ok : intercepted obj_x_rejecting 0 "x".
Proof.
  exists 0, 1. split; [by eexists|]. split; [reflexivity|].
  split; [reflexivity|]. split; [reflexivity|]. split.
  - eexists _, 0, _. split; [reflexivity|]. split; [reflexivity|].
    split; [by eexists|]. split; [reflexivity|]. split; [reflexivity|].
    intros og Hog. vm_compute in Hog. discriminate.
  - right. eexists _, 0, _. split; [reflexivity|]. split; [reflexivity|].
    split; [by eexists|]. split; [by eexists|]. by repeat split.
Qed.

Lemma afterGet_failure_aborts_read_witness :
  ∃ h', read_property 0 "x" obj_x_rejecting = Throw (VStr "rejected") h' ∧
        cachedValue h' 0 "x" = cachedValue obj_x_rejecting 0 "x" ∧
        h_world h' = [] ∧ same_chains obj_x_rejecting h' 0 "x".
Proof.
  apply (afterGet_failure_aborts_read Log obj_x_rejecting 0 "x"
           [handler_of 0 "x" plus_one] (handler_of 0 "x" reject) []
           (VNum 2) [] (VNum 3) [] (VStr "rejected") []).
  - exact obj_x_rejecting_ok.
  - vm_compute. reflexivity.
  - vm_compute. reflexivity.
  - vm_compute. reflexivity.
  - vm_compute. reflexivity.
Defined.

(** X9. What a write commits is what the next read starts from.  After a
    write through the engine's setter has returned [c], a read passes [c]
    through the afterGet chain, returns the result and caches it; if a
    hook of the chain raises, [c] stays cached.  This is so when [c] is
    not [undefined] or the property had no getter before interception. *)
Theorem read_after_write :
  ∀ W (h h1 : Heap W) o p value c,
    write_intercepted h o p →
    write_property o p value h = Ret c h1 →
    strict_eq c VUndefined = false ∨ priorReader h o p = None →
    match forEach_thread (afterGetChain h o p) c (h_world h1) with
    | UReturn v w =>
        ∃ h2, read_property o p h1 = Ret v h2 ∧
              cachedValue h2 o p = Some v ∧ h_world h2 = w
    | URaise e w =>
        ∃ h2, read_property o p h1 = Throw e h2 ∧
              cachedValue h2 o p = Some c ∧ h_world h2 = w
    end.
Proof.
  intros W h h1 o p value c Hw Hwrite Hdef.
  destruct (write_returns h o p value c h1 Hw Hwrite) as (Hc & Hf).
  pose proof (write_intercepted_intercepted _ _ _ Hw) as Hi.
  destruct Hf as (_ & [Hu _] & (Ca & _) & Hpr).
  destruct (Hu Hi) as [Hi1 _]. specialize (Hpr Hi).
  pose proof (read_intercepted_run h1 o p Hi1) as Hrun.
  rewrite (start_outcome_spec h1 o p c Hi1 Hc), Hpr, Ca in Hrun.
  assert (Hstart :
    match strict_eq c VUndefined, priorReader h o p with
    | true, Some prior => prior [] (h_world h1)
    | _, _ => UReturn c (h_world h1)
    end = UReturn c (h_world h1)).
  { destruct Hdef as [->| ->]; [done|by destruct (strict_eq c VUndefined)]. }
  rewrite Hstart in Hrun.
  destruct (forEach_thread _ c _) as [v w|e w].
  - destruct Hrun as (h2 & ? & ? & ? & _). by exists h2.
  - destruct Hrun as (h2 & ? & Hc2 & ? & _). exists h2. by rewrite Hc2.
Qed.

Lemma obj_x_hooked_write_ok : write_intercepted obj_x_hooked 0 "x".
Proof.
  exists 0, 1. split; [by eexists|]. split; [reflexivity|].
  split; [reflexivity|]. split; [reflexivity|]. split.
  - eexists _, 0, _. split; [reflexivity|]. split; [reflexivity|].
    split; [by eexists|]. split; [reflexivity|]. split; [reflexivity|].
    intros og Hog. vm_compute in Hog. discriminate.
  - eexists _, 0, _. split; [reflexivity|]. split; [reflexivity|].
    split; [by eexists|]. split; [by eexists|]. by repeat split.
Qed.

Lemma read_after_write_witness :
  match forEach_thread (afterGetChain obj_x_hooked 0 "x") (VNum 5)
          (h_world (after (write_property 0 "x" (VNum 5)) obj_x_hooked)) with
  | UReturn v w =>
      ∃ h2, read_property 0 "x"
              (after (write_property 0 "x" (VNum 5)) obj_x_hooked) = Ret v h2 ∧
            cachedValue h2 0 "x" = Some v ∧ h_world h2 = w
  | URaise e w =>
      ∃ h2, read_property 0 "x"
              (after (write_property 0 "x" (VNum 5)) obj_x_hooked)
              = Throw e h2 ∧
            cachedValue h2 0 "x" = Some (VNum 5) ∧ h_world h2 = w
  end.
Proof.
  apply (read_after_write Log obj_x_hooked
           (after (write_property 0 "x" (VNum 5)) obj_x_hooked) 0 "x"
           (VNum 5) (VNum 5)).
  - exact obj_x_hooked_write_ok.
  - vm_compute. reflexivity.
  - left. reflexivity.
Defined.

(** X10. [beforeSet] and [afterSet] on a property that has a setter of the
    user's replace it.  Before the call a write runs the user's setter;
    once the call has returned the object, both accessors are the
    engine's, the user's setter is kept as [oldset], and a write runs the
    hook and nothing else: what it returns, raises and does to the user's
    world is what the one hook does.  The user's setter is not run
    again. *)
Theorem set_hook_replaces_user_setter :
  ∀ W (h h' : Heap W) o p (k : Hook W) us,
    field_ok h o p → user_setter h o p = Some us →
    match k with AfterGet _ => False | _ => True end →
    install o p k h = Ret (VObj o) h' →
    (∀ value, write_property o p value h = run_user (us [value]) h) ∧
    write_intercepted h' o p ∧
    priorWriter h' o p = Some us ∧ user_setter h' o p = None ∧
    beforeSetChain h' o p = beforeSet_hooks o p [k] ∧
    afterSetChain h' o p = afterSet_hooks o p [k] ∧
    ∀ value orig,
      cachedValue h' o p = Some orig →
      match forEach_thread (beforeSet_hooks o p [k]) value (h_world h') with
      | URaise e w =>
          ∃ h2, write_property o p value h' = Throw e h2 ∧ h_world h2 = w
      | UReturn committed w =>
          if strict_eq committed orig then
            ∃ h2, write_property o p value h' = Ret committed h2 ∧
                  h_world h2 = w
          else
            match forEach_call (afterSet_hooks o p [k]) committed w with
            | UReturn _ w' =>
                ∃ h2, write_property o p value h' = Ret committed h2 ∧
                      h_world h2 = w'
            | URaise e w' =>
                ∃ h2, write_property o p value h' = Throw e h2 ∧
                      h_world h2 = w'
            end
      end.
Proof.
  intros W h h' o p k us Hok Hus Hk Hinst.
  split; [intros value; by apply write_user_setter|].
  destruct (user_setter_chains h o p us Hok Hus) as (Hb0 & Ha0).
  assert (Hmain : write_intercepted h' o p ∧
            beforeSetChain h' o p = beforeSet_hooks o p [k] ∧
            afterSetChain h' o p = afterSet_hooks o p [k]).
  { destruct k as [cb|cb|cb]; [done| |]; cbn [install] in Hinst.
    - pose proof (beforeSet_spec h o p cb Hok) as Hs. rewrite Hinst in Hs.
      destruct Hs as [[? _]|(_ & ? & _ & _ & Cb & Cs)]; [done|].
      by rewrite Cb, Cs, Hb0, Ha0.
    - pose proof (afterSet_spec h o p cb Hok) as Hs. rewrite Hinst in Hs.
      destruct Hs as [[? _]|(_ & ? & _ & _ & Cb & Cs)]; [done|].
      by rewrite Cb, Cs, Hb0, Ha0. }
  destruct Hmain as (Hw & Cb & Cs).
  assert (Hwrap : priorWriter h' o p = Some us ∧ user_setter h' o p = None).
  { rewrite install_prelude in Hinst by done.
    pose proof (read_property_frame h o p Hok) as Hframe.
    destruct (read_property o p h) as [v h1|e h1] eqn:Hread; [|done].
    destruct Hframe as (Hf & _).
    pose proof (frame_field_ok _ _ _ _ Hf Hok) as Hok1.
    pose proof (read_keeps_user_setter h o p v h1 us Hok Hread Hus) as Hus1.
    destruct k as [cb|cb|cb]; [done| |].
    - destruct (is_function v) eqn:Ef.
      { unfold beforeSet_install in Hinst. rewrite Ef in Hinst. done. }
      pose proof (beforeSet_install_wraps h1 o p cb v Hok1 Ef) as Hin.
      rewrite Hinst in Hin. by apply Hin.
    - destruct (is_function v) eqn:Ef.
      { unfold afterSet_install in Hinst. rewrite Ef in Hinst. done. }
      pose proof (afterSet_install_wraps h1 o p cb v Hok1 Ef) as Hin.
      rewrite Hinst in Hin. by apply Hin. }
  destruct Hwrap as (Hpw & Hnone).
  split; [done|]. split; [done|]. split; [done|]. split; [done|].
  split; [done|]. intros value orig Horig.
  pose proof (write_intercepted_run h' o p value orig Hw Horig) as Hrun.
  rewrite Cb, Cs in Hrun.
  destruct (forEach_thread _ value _) as [committed w|e w].
  - destruct (strict_eq committed orig).
    + destruct Hrun as (h2 & ? & _ & ? & _). by exists h2.
    + destruct (forEach_call _ committed w);
        destruct Hrun as (h2 & ? & _ & ? & _); by exists h2.
  - destruct Hrun as (h2 & ? & _ & ? & _). by exists h2.
Qed.

Lemma obj_accessor_raw : raw_field obj_accessor 0 "t".
Proof.
  split; intros g Hg; vm_compute in Hg; simplify_eq; by eexists.
Qed.

Lemma set_hook_replaces_user_setter_witness :
  (∀ value, write_property 0 "t" value obj_accessor
            = run_user (setter_of_t [value]) obj_accessor) ∧
  write_intercepted obj_accessor_write_hook 0 "t" ∧
  priorWriter obj_accessor_write_hook 0 "t" = Some setter_of_t ∧
  user_setter obj_accessor_write_hook 0 "t" = None ∧
  beforeSetChain obj_accessor_write_hook 0 "t"
    = beforeSet_hooks 0 "t" [BeforeSet times_two] ∧
  afterSetChain obj_accessor_write_hook 0 "t"
    = afterSet_hooks 0 "t" [BeforeSet times_two] ∧
  ∀ value orig,
    cachedValue obj_accessor_write_hook 0 "t" = Some orig →
    match forEach_thread (beforeSet_hooks 0 "t" [BeforeSet times_two]) value
            (h_world obj_accessor_write_hook) with
    | URaise e w =>
        ∃ h2, write_property 0 "t" value obj_accessor_write_hook = Throw e h2 ∧
              h_world h2 = w
    | UReturn committed w =>
        if strict_eq committed orig then
          ∃ h2, write_property 0 "t" value obj_accessor_write_hook
                  = Ret committed h2 ∧
                h_world h2 = w
        else
          match forEach_call (afterSet_hooks 0 "t" [BeforeSet times_two])
                  committed w with
          | UReturn _ w' =>
              ∃ h2, write_property 0 "t" value obj_accessor_write_hook
                      = Ret committed h2 ∧
                    h_world h2 = w'
          | URaise e w' =>
              ∃ h2, write_property 0 "t" value obj_accessor_write_hook
                      = Throw e h2 ∧
                    h_world h2 = w'
          end
    end.
Proof.
  apply (set_hook_replaces_user_setter Log obj_accessor
           obj_accessor_write_hook 0 "t" (BeforeSet times_two) setter_of_t).
  - left. exact obj_accessor_raw.
  - reflexivity.
  - exact I.
  - vm_compute. reflexivity.
Defined.

(** X11. [afterGet] on a property that has a setter of the user's leaves
    that setter in place.  Once the call has returned the object, the
    getter is the engine's and reads come from the cached value, but a
    write still runs the user's setter and nothing else: it does not
    change the cached value, so the reads that follow do not see it. *)
Theorem afterGet_leaves_user_setter :
  ∀ W (h h' : Heap W) o p (cb : Callback W) us,
    raw_field h o p → user_setter h o p = Some us →
    afterGet o p cb h = Ret (VObj o) h' →
    intercepted h' o p ∧ user_setter h' o p = Some us ∧
    beforeSetChain h' o p = [] ∧ afterSetChain h' o p = [] ∧
    ∀ value,
      write_property o p value h' = run_user (us [value]) h' ∧
      cachedValue (heap_of (write_property o p value h')) o p
        = cachedValue h' o p ∧
      afterGetChain (heap_of (write_property o p value h')) o p
        = afterGetChain h' o p.
Proof.
  intros W h h' o p cb us Hraw Hus Hinst.
  pose proof (afterGet_spec h o p cb (or_introl Hraw)) as Hspec.
  rewrite Hinst in Hspec. destruct Hspec as (_ & Hi & _ & _ & _ & Cb & Cs).
  destruct (raw_chains h o p Hraw) as (_ & Hb0 & Ha0).
  rewrite Hb0 in Cb. rewrite Ha0 in Cs.
  assert (Hus' : user_setter h' o p = Some us).
  { change (install o p (AfterGet cb) h = Ret (VObj o) h') in Hinst.
    rewrite install_prelude in Hinst by by left.
    pose proof (read_property_frame h o p (or_introl Hraw)) as Hframe.
    destruct (read_property o p h) as [v h1|e h1] eqn:Hread; [|done].
    destruct Hframe as ((Hr & _) & Hp & _).
    pose proof (read_keeps_user_setter h o p v h1 us (or_introl Hraw) Hread Hus)
      as Hus1.
    assert (Hset : is_Some (setter_ref h1 o p)).
    { unfold user_setter in Hus1. destruct (setter_ref h1 o p); [by eexists|done]. }
    pose proof (afterGet_install_setter h1 o p cb v (Hr Hraw) Hset) as Hin.
    rewrite Hinst in Hin. destruct Hin as (_ & ->). done. }
  split; [done|]. split; [done|]. split; [done|]. split; [done|].
  intros value. rewrite (write_user_setter h' o p us value Hus').
  split; [done|]. unfold run_user.
  by destruct (us [value] (h_world h')).
Qed.

Lemma afterGet_leaves_user_setter_witness :
  intercepted obj_accessor_read_hook 0 "t" ∧
  user_setter obj_accessor_read_hook 0 "t" = Some setter_of_t ∧
  beforeSetChain obj_accessor_read_hook 0 "t" = [] ∧
  afterSetChain obj_accessor_read_hook 0 "t" = [] ∧
  ∀ value,
    write_property 0 "t" value obj_accessor_read_hook
      = run_user (setter_of_t [value]) obj_accessor_read_hook ∧
    cachedValue (heap_of (write_property 0 "t" value obj_accessor_read_hook))
                0 "t"
      = cachedValue obj_accessor_read_hook 0 "t" ∧
    afterGetChain (heap_of (write_property 0 "t" value obj_accessor_read_hook))
                  0 "t"
      = afterGetChain obj_accessor_read_hook 0 "t".
Proof.
  apply (afterGet_leaves_user_setter Log obj_accessor obj_accessor_read_hook
           0 "t" same_value setter_of_t).
  - exact obj_accessor_raw.
  - reflexivity.
  - vm_compute. reflexivity.
Defined.

(** X12. Interception makes a read-only property writable.  On a data
    property that is configurable but not writable, a write is dropped (as
    the host does outside strict mode); once an installing call has
    returned the object, the property has no [writable] attribute any
    more, and a write commits what the before-chain makes of the incoming
    value. *)
Theorem interception_lifts_read_only :
  ∀ W (h : Heap W) o p (k : Hook W) P v0,
    h_props h !! (o, p) = Some P → d_value P = Some v0 →
    d_get P = None → d_set P = None →
    d_writable P = Some false → d_configurable P = true →
    is_function v0 = false →
    (∀ value, write_property o p value h = Ret VUndefined h) ∧
    ∃ h', install o p k h = Ret (VObj o) h' ∧
          write_intercepted h' o p ∧ cachedValue h' o p = Some v0 ∧
          d_writable (attributes h' o p) = None ∧
          ∀ value,
            match forEach_thread (beforeSetChain h' o p) value (h_world h') with
            | UReturn committed _ =>
                cachedValue (heap_of (write_property o p value h')) o p
                  = Some committed
            | URaise _ _ =>
                cachedValue (heap_of (write_property o p value h')) o p
                  = Some v0
            end.
Proof.
  intros W h o p k P v0 HP Hv Hg Hs Hwr Hcfg Hnf.
  split.
  { intros value. unfold write_property. by rewrite HP, Hs, Hg, Hwr. }
  destruct (plain_field h o p P v0 HP Hv Hg Hs)
    as (Hraw & _ & Hsr & HA & Hread).
  pose proof (install_prelude h o p k (or_introl Hraw)) as Hpre.
  rewrite Hread in Hpre.
  pose proof (install_props h o p k) as Hprops.
  assert (Hraw1 : raw_field (with_world (h_world h) h) o p) by exact Hraw.
  assert (Hmain : ∃ h', install o p k h = Ret (VObj o) h' ∧
            write_intercepted h' o p ∧ cachedValue h' o p = Some v0).
  { rewrite Hpre. destruct k as [cb|cb|cb].
    - pose proof (afterGet_install_raw _ o p cb v0 Hraw1) as Hin.
      destruct (afterGet_install _ _ _ _ _ _) as [r h'|e h'].
      + destruct Hin as (-> & _ & Hw & _ & _ & _ & _ & Hc & _).
        exists h'. split; [done|]. split; [|done]. by apply Hw.
      + destruct Hin as (Hn & _).
        change (attributes _ o p) with (attributes h o p) in Hn.
        rewrite HA, Hcfg in Hn. discriminate.
    - pose proof (beforeSet_install_raw _ o p cb v0 Hraw1) as Hin.
      destruct (beforeSet_install _ _ _ _ _ _) as [r h'|e h'].
      + rewrite Hnf in Hin. destruct Hin as (-> & Hw & _ & _ & _ & _ & Hc & _).
        by exists h'.
      + destruct Hin as (_ & Hn & _).
        change (attributes _ o p) with (attributes h o p) in Hn.
        rewrite HA, Hcfg in Hn. discriminate.
    - pose proof (afterSet_install_raw _ o p cb v0 Hraw1) as Hin.
      destruct (afterSet_install _ _ _ _ _ _) as [r h'|e h'].
      + rewrite Hnf in Hin. destruct Hin as (-> & Hw & _ & _ & _ & _ & Hc & _).
        by exists h'.
      + destruct Hin as (_ & Hn & _).
        change (attributes _ o p) with (attributes h o p) in Hn.
        rewrite HA, Hcfg in Hn. discriminate. }
  destruct Hmain as (h' & Hinst & Hw & Hc).
  rewrite Hinst in Hprops.
  destruct Hprops as [[? _]|[_ (_ & P' & HP' & _ & Hwr' & _)]]; [done|].
  rewrite HP in Hwr'. cbn in Hwr'.
  exists h'. split; [done|]. split; [done|]. split; [done|].
  split; [unfold attributes; rewrite HP'; by apply Hwr'|].
  intros value.
  pose proof (write_intercepted_run h' o p value v0 Hw Hc) as Hrun.
  destruct (forEach_thread _ value _) as [committed w|e w].
  - destruct (strict_eq committed v0).
    + by destruct Hrun as (h2 & -> & ? & _).
    + destruct (forEach_call _ committed w);
        by destruct Hrun as (h2 & -> & ? & _).
  - by destruct Hrun as (h2 & -> & ? & _).
Qed.

Lemma interception_lifts_read_only_witness :
  (∀ value, write_property 0 "r" value obj_readonly
            = Ret VUndefined obj_readonly) ∧
  ∃ h', install 0 "r" (AfterSet log_value) obj_readonly = Ret (VObj 0) h' ∧
        write_intercepted h' 0 "r" ∧ cachedValue h' 0 "r" = Some (VNum 1) ∧
        d_writable (attributes h' 0 "r") = None ∧
        ∀ value,
          match forEach_thread (beforeSetChain h' 0 "r") value (h_world h') with
          | UReturn committed _ =>
              cachedValue (heap_of (write_property 0 "r" value h')) 0 "r"
                = Some committed
          | URaise _ _ =>
              cachedValue (heap_of (write_property 0 "r" value h')) 0 "r"
                = Some (VNum 1)
          end.
Proof.
  apply (interception_lifts_read_only Log obj_readonly 0 "r"
           (AfterSet log_value)
           (mkDescriptor (Some (VNum 1)) (Some false) None None false true)
           (VNum 1)).
  - reflexivity.
  - reflexivity.
  - reflexivity.
  - reflexivity.
  - reflexivity.
  - reflexivity.
  - reflexivity.
Defined.



(** X14. Operations on one property do not disturb another.  When the
    accessors of [o2.p2] are not accessors that the engine made for
    [object.property] (as is the case for any two properties that got
    their accessors from the installers, each from its own calls), then
    installing calls, reads and writes on [object.property], in any number
    and order, leave [o2.p2] in the state it was in: the same attributes,
    the same accessor functions, the same three chains, the same cached
    value and the same prior getter. *)
Theorem other_property_keeps_its_hooks :
  ∀ W (h : Heap W) o p o2 p2 (ops : list (Op W)),
    (o2, p2) ≠ (o, p) →
    field_ok h o p → field_ok h o2 p2 → independent h o p o2 p2 →
    field_ok (perform_all o p ops h) o2 p2 ∧
    attributes (perform_all o p ops h) o2 p2 = attributes h o2 p2 ∧
    reused h (perform_all o p ops h) o2 p2 ∧
    same_chains h (perform_all o p ops h) o2 p2 ∧
    cachedValue (perform_all o p ops h) o2 p2 = cachedValue h o2 p2 ∧
    (intercepted h o2 p2 →
     priorReader (perform_all o p ops h) o2 p2 = priorReader h o2 p2).
Proof.
  intros W h o p o2 p2 ops Hne Hok Hok2 Hind.
  assert (Hall : frame h (perform_all o p ops h) o2 p2 ∧
            cachedValue (perform_all o p ops h) o2 p2 = cachedValue h o2 p2 ∧
            h_props (perform_all o p ops h) !! (o2, p2)
              = h_props h !! (o2, p2)).
  { revert h Hok Hok2 Hind.
    induction ops as [|a ops IH]; intros h Hok Hok2 Hind; cbn [perform_all].
    { split; [apply frame_refl|done]. }
    pose proof (perform_outside h o p a (o2, p2) Hne) as Hprops.
    destruct (updates_frame h (perform o p a h) o p o2 p2 Hok2 Hind Hprops
                (perform_updates h o p a Hok)) as (Hf1 & Hc1 & Hind1).
    destruct (perform_step h o p a Hok) as (Hok1 & _).
    destruct (IH _ Hok1 (frame_field_ok _ _ _ _ Hf1 Hok2) Hind1)
      as (Hf2 & Hc2 & Hp2).
    split; [by eapply frame_trans|]. split; congruence. }
  destruct Hall as (Hf & Hc & Hp).
  split; [by eapply frame_field_ok|].
  split; [unfold attributes; by rewrite Hp|].
  by destruct Hf as (_ & ? & ? & ?).
Qed.

Lemma obj_xy_hooked_x_ok : field_ok obj_xy_hooked 0 "x".
Proof.
  right. exists 0, 1. split; [by eexists|]. split; [reflexivity|].
  split; [reflexivity|]. split; [reflexivity|]. split.
  - eexists _, 0, _. split; [reflexivity|]. split; [reflexivity|].
    split; [by eexists|]. split; [reflexivity|]. split; [reflexivity|].
    intros og Hog. vm_compute in Hog. discriminate.
  - right. eexists _, 0, _. split; [reflexivity|]. split; [reflexivity|].
    split; [by eexists|]. split; [by eexists|]. by repeat split.
Qed.

Lemma obj_xy_hooked_y_ok : field_ok obj_xy_hooked 0 "y".
Proof.
  right. exists 2, 3. split; [by eexists|]. split; [reflexivity|].
  split; [reflexivity|]. split; [reflexivity|]. split.
  - eexists _, 1, _. split; [reflexivity|]. split; [reflexivity|].
    split; [by eexists|]. split; [reflexivity|]. split; [reflexivity|].
    intros og Hog. vm_compute in Hog. discriminate.
  - right. eexists _, 1, _. split; [reflexivity|]. split; [reflexivity|].
    split; [by eexists|]. split; [by eexists|]. by repeat split.
Qed.

Lemma obj_xy_hooked_independent : independent obj_xy_hooked 0 "y" 0 "x".
Proof.
  intros f [E|E]; vm_compute in E; simplify_eq; right;
    split; intros E'; vm_compute in E'; discriminate.
Qed.

Lemma other_property_keeps_its_hooks_witness :
  field_ok (perform_all 0 "y" mixed_operations obj_xy_hooked) 0 "x" ∧
  attributes (perform_all 0 "y" mixed_operations obj_xy_hooked) 0 "x"
    = attributes obj_xy_hooked 0 "x" ∧
  reused obj_xy_hooked
    (perform_all 0 "y" mixed_operations obj_xy_hooked) 0 "x" ∧
  same_chains obj_xy_hooked
    (perform_all 0 "y" mixed_operations obj_xy_hooked) 0 "x" ∧
  cachedValue (perform_all 0 "y" mixed_operations obj_xy_hooked) 0 "x"
    = cachedValue obj_xy_hooked 0 "x" ∧
  (intercepted obj_xy_hooked 0 "x" →
   priorReader (perform_all 0 "y" mixed_operations obj_xy_hooked) 0 "x"
     = priorReader obj_xy_hooked 0 "x").
Proof.
  apply (other_property_keeps_its_hooks Log obj_xy_hooked 0 "y" 0 "x"
           mixed_operations).
  - intros E. discriminate E.
  - exact obj_xy_hooked_y_ok.
  - exact obj_xy_hooked_x_ok.
  - exact obj_xy_hooked_independent.
Defined.
